(** * De Bruijn graph assembler ([debruijn/debruijn.py]): model and properties

    The program cuts reads into k-mers, builds a weighted directed graph on
    the (k-1)-mers, removes bubbles and tips, and reads contigs off the
    remaining start-to-sink paths.

    The Python code is embedded as Rocq functions:
    - strings are [string], slices follow Python's clamping rules;
    - a [dict] is an association list in insertion order (the order in
      which [build_graph] meets the k-mers fixes the node order of the
      graph, which the scans of the simplification passes depend on);
    - a [networkx.DiGraph] is the list of its nodes and the list of its
      weighted edges, both in insertion order;
    - exceptions are the [Raise] results of type [result];
    - the global [random] generator is a state threaded through the calls;
    - a Python float is the rational number it stands for: the mean of
      integer weights that [statistics.mean] returns is the exact mean when
      this is an integer, and else the binary64 number nearest to it. *)

From Stdlib Require Import String Ascii List ZArith QArith Lqa Lia Bool Permutation.
From Stdlib Require Import DecimalString.
Import ListNotations.

Local Open Scope string_scope.
Local Open Scope Z_scope.
Local Open Scope list_scope.

(** ** Part I: definitions *)

(** *** Python values *)

Module Py.

(** The exceptions the program can meet. *)
Inductive exn : Type :=
| StatisticsError        (* statistics.mean / statistics.stdev *)
| NetworkXError          (* remove_node of an absent node, LCA on a cyclic graph *)
| NodeNotFound           (* a path query from a node that is not in the graph *)
| NetworkXPointlessConcept
| IndexError             (* node[-1] on an empty string *)
| ValueError             (* random.randint on an empty range *)
| OverflowError          (* a mean too large for a float *)
| RecursionError.        (* the interpreter's recursion limit *)

Inductive result (A : Type) : Type :=
| Ok (a : A)
| Raise (e : exn).
Arguments Ok {A} a.
Arguments Raise {A} e.

Definition bind {A B} (r : result A) (k : A -> result B) : result B :=
  match r with
  | Ok a => k a
  | Raise e => Raise e
  end.

(** [len(s)] *)
Definition len (s : string) : Z := Z.of_nat (String.length s).

(** One bound of a slice [s[lo:hi]]: a missing bound takes its default,
    a negative one counts from the end, and both are clamped to
    [[0, len(s)]]. *)
Definition slice_bound (n default : Z) (b : option Z) : Z :=
  match b with
  | None => default
  | Some i => if i <? 0 then Z.max 0 (i + n) else Z.min i n
  end.

(** [s[lo:hi]] *)
Definition slice (s : string) (lo hi : option Z) : string :=
  let n := len s in
  let a := slice_bound n 0 lo in
  let b := slice_bound n n hi in
  substring (Z.to_nat a) (Z.to_nat (b - a)) s.

(** [s[-1]], which raises [IndexError] on the empty string. *)
Fixpoint last_char (s : string) : option ascii :=
  match s with
  | EmptyString => None
  | String c EmptyString => Some c
  | String _ s' => last_char s'
  end.

(** [range(n)] *)
Definition range (n : Z) : list Z := map Z.of_nat (seq 0 (Z.to_nat n)).

(** [x in l] on strings. *)
Definition mem (x : string) (l : list string) : bool :=
  existsb (String.eqb x) l.

(** A [dict] from strings to integers, in insertion order. *)
Definition dict : Type := list (string * Z).

(** [d.get(k, default)] *)
Fixpoint dict_get (d : dict) (k : string) (default : Z) : Z :=
  match d with
  | [] => default
  | (k', v) :: d' => if String.eqb k k' then v else dict_get d' k default
  end.

(** [d[k] = v]: an existing key keeps its place, a new key goes last. *)
Fixpoint dict_set (d : dict) (k : string) (v : Z) : dict :=
  match d with
  | [] => [(k, v)]
  | (k', v') :: d' =>
      if String.eqb k k' then (k', v) :: d' else (k', v') :: dict_set d' k v
  end.

Definition dict_keys (d : dict) : list string := map fst d.
Definition dict_values (d : dict) : list Z := map snd d.

(** [sum(l)] *)
Definition sum (l : list Z) : Z := fold_right Z.add 0 l.

End Py.
Import Py.

Notation "x <- c1 ;; c2" := (Py.bind c1 (fun x => c2))
  (at level 61, c1 at next level, right associativity).

(** *** K-mer extraction *)

(** [cut_kmer]: the k-mers of a read, in order. *)
Definition cut_kmer (read : string) (kmer_size : Z) : list string :=
  map (fun i => slice read (Some i) (Some (i + kmer_size)))
      (range (len read - kmer_size + 1)).

(** [build_kmer_dict], on the reads that [read_fastq] yields. *)
Definition count_kmer (kmer_dict : dict) (kmer : string) : dict :=
  dict_set kmer_dict kmer (dict_get kmer_dict kmer 0 + 1).

Definition build_kmer_dict (reads : list string) (kmer_size : Z) : dict :=
  fold_left
    (fun kmer_dict read => fold_left count_kmer (cut_kmer read kmer_size) kmer_dict)
    reads [].

(** *** The parts of [statistics] and [random] the program uses *)

Module Stat.

Local Open Scope Q_scope.

Definition qsum (l : list Q) : Q := fold_right Qplus 0 l.

(** The exact mean of the data, which [statistics.variance] works with:
    the data must have at least one point. *)
Definition mean (data : list Q) : result Q :=
  match data with
  | [] => Raise StatisticsError
  | _ => Ok (qsum data / inject_Z (Z.of_nat (List.length data)))
  end.

(** [a / b] rounded to the nearest integer, a tie going to the even one,
    for [0 < b]. *)
Definition round_half_even (a b : Z) : Z :=
  let k := (a / b)%Z in
  match (2 * (a mod b) ?= b)%Z with
  | Lt => k
  | Gt => (k + 1)%Z
  | Eq => if Z.even k then k else (k + 1)%Z
  end.

(** [n / (d * 2 ^ e)] as a fraction, for an exponent [e] of any sign. *)
Definition scale (n d e : Z) : Z * Z :=
  if (0 <=? e)%Z then (n, (d * 2 ^ e)%Z) else ((n * 2 ^ (- e))%Z, d).

(** The exponent of the last place of the binary64 number nearest to
    [n / d], for [0 < n] and [0 < d]: 52 below the exponent of the leading
    bit of [n / d], and not below -1074, the last place of the subnormal
    numbers. *)
Definition last_place (n d : Z) : Z :=
  let t := (Z.log2 n - Z.log2 d)%Z in
  let (a, b) := scale n d t in
  Z.max ((if (b <=? a)%Z then t else t - 1) - 52) (-1074).

(** [float(q)] for a fraction [q], which is the division of two integers:
    the binary64 number nearest to [q], a tie going to the one with an even
    last bit, and [OverflowError] when that is beyond the largest one. *)
Definition to_float (q : Q) : result Q :=
  let n := Z.abs (Qnum q) in
  let d := Zpos (Qden q) in
  if (n =? 0)%Z then Ok 0
  else
    let e := last_place n d in
    let (a, b) := scale n d e in
    let m := (Z.sgn (Qnum q) * round_half_even a b)%Z in
    if (0 <=? e)%Z
    then if (2 ^ 1024 <=? Z.abs m * 2 ^ e)%Z then Raise OverflowError
         else Ok (inject_Z (m * 2 ^ e))
    else Ok (Qmake m (Z.to_pos (2 ^ (- e)))).

(** [statistics.mean] on integers: the sum is exact; the mean is returned
    as an integer when it is one, and as a float otherwise. *)
Definition mean_of_ints (data : list Z) : result Q :=
  match data with
  | [] => Raise StatisticsError
  | _ =>
      let total := sum data in
      let n := Z.of_nat (List.length data) in
      if (total mod n =? 0)%Z then Ok (inject_Z (total / n))
      else to_float (Qmake total (Z.to_pos n))
  end.

(** [statistics.variance], the square of [statistics.stdev]: the data must
    have at least two points. *)
Definition variance (data : list Q) : result Q :=
  match data with
  | [] | [_] => Raise StatisticsError
  | _ =>
      m <- mean data ;;
      Ok (qsum (map (fun x => (x - m) * (x - m)) data)
          / inject_Z (Z.of_nat (List.length data) - 1))
  end.

Definition Qltb (x y : Q) : bool := negb (Qle_bool y x).

(** The test [statistics.stdev(data) > 0]. The standard deviation is the
    square root of the variance, so it is positive exactly when the
    variance is. *)
Definition stdev_positive (data : list Q) : result bool :=
  v <- variance data ;; Ok (Qltb 0 v).

(** [max(l)]: the first of the largest elements. *)
Definition max (l : list Q) : option Q :=
  match l with
  | [] => None
  | x :: r => Some (fold_left (fun m y => if Qltb m y then y else m) r x)
  end.

(** [l.index(x)]: the position of the first element equal to [x]. *)
Fixpoint index (x : Q) (l : list Q) : option nat :=
  match l with
  | [] => None
  | y :: r => if Qeq_bool y x then Some O else option_map S (index x r)
  end.

(** [l.index(max(l))] *)
Definition index_of_max (l : list Q) : result nat :=
  match max l with
  | None => Raise ValueError
  | Some m => match index m l with
              | None => Raise ValueError
              | Some i => Ok i
              end
  end.

(** The data are all equal. *)
Definition all_equal (l : list Q) : Prop :=
  forall x y, In x l -> In y l -> x == y.

(** The sum of the squared deviations from [m]. *)
Definition sq_dev (m : Q) (l : list Q) : Q :=
  qsum (map (fun x => (x - m) * (x - m)) l).

End Stat.

(** What the interpreter supplies: the pseudo-random generator behind
    [random.seed] and [random.randint], and the order in which a [set] of
    strings is iterated (networkx takes "the first" element of a set of
    common ancestors). Nothing is assumed of either beyond the contract of
    [randint], that its result lies in the range asked for, and that the
    first element of a set is one of its elements. *)
Class Runtime : Type := {
  rng : Type;
  seed : Z -> rng;
  randint : Z -> Z -> rng -> Z * rng;
  randint_range : forall a b s, a <= b -> a <= fst (randint a b s) <= b;
  set_first : string -> list string -> string;
  set_first_in : forall x l, In (set_first x l) (x :: l)
}.

(** The state of the global generator, with the list of the values drawn
    so far (most recent first), kept for the statements about tie-breaks. *)
Record generator (R : Type) : Type := {
  gen : R;
  drawn : list Z
}.
Arguments gen {R} _.
Arguments drawn {R} _.

Definition world {RT : Runtime} : Type := generator rng.

(** [random.seed(a)] *)
Definition random_seed {RT : Runtime} (a : Z) (w : world) : world :=
  {| gen := seed a; drawn := [] |}.

(** [random.randint(a, b)] *)
Definition random_randint {RT : Runtime} (a b : Z) (w : world) : result (Z * world) :=
  if b <? a then Raise ValueError
  else let (i, s) := randint a b (gen w) in
       Ok (i, {| gen := s; drawn := i :: drawn w |}).

(** *** The parts of [networkx] the program uses

    They follow networkx 3: [all_simple_paths] from a node to itself yields
    the path of that one node, and [lowest_common_ancestor] starts from an
    element of the set of common ancestors and walks down. *)

Module Nx.

Definition edge : Type := (string * string * Z)%type.
Definition src (e : edge) : string := fst (fst e).
Definition dst (e : edge) : string := snd (fst e).
Definition weight (e : edge) : Z := snd e.

(** A [DiGraph] whose edges carry a [weight]: nodes and edges in the
    order they were first added. *)
Record DiGraph : Type := {
  nodes : list string;
  edges : list edge
}.

Definition empty : DiGraph := {| nodes := []; edges := [] |}.

(** [n in G] *)
Definition has_node (g : DiGraph) (n : string) : bool := mem n (nodes g).

Definition add_node (g : DiGraph) (n : string) : DiGraph :=
  if has_node g n then g else {| nodes := nodes g ++ [n]; edges := edges g |}.

Fixpoint set_edge (es : list edge) (u v : string) (w : Z) : list edge :=
  match es with
  | [] => [(u, v, w)]
  | e :: es' =>
      if String.eqb (src e) u && String.eqb (dst e) v
      then (u, v, w) :: es'
      else e :: set_edge es' u v w
  end.

(** [G.add_edge(u, v, weight=w)]: the end points become nodes ([u] first),
    and the weight of an edge that is already there is overwritten. *)
Definition add_edge (g : DiGraph) (u v : string) (w : Z) : DiGraph :=
  let g' := add_node (add_node g u) v in
  {| nodes := nodes g'; edges := set_edge (edges g') u v w |}.

(** [G.successors(n)] and [G.predecessors(n)] *)
Definition successors (g : DiGraph) (n : string) : list string :=
  map dst (filter (fun e => String.eqb (src e) n) (edges g)).

Definition predecessors (g : DiGraph) (n : string) : list string :=
  map src (filter (fun e => String.eqb (dst e) n) (edges g)).

Definition delete_node (g : DiGraph) (n : string) : DiGraph :=
  {| nodes := filter (fun x => negb (String.eqb x n)) (nodes g);
     edges := filter (fun e => negb (String.eqb (src e) n)
                               && negb (String.eqb (dst e) n)) (edges g) |}.

(** [G.remove_node(n)]: the node goes with its edges; an absent node is an
    error. *)
Definition remove_node (g : DiGraph) (n : string) : result DiGraph :=
  if has_node g n then Ok (delete_node g n) else Raise NetworkXError.

(** [G.remove_nodes_from(ns)]: absent nodes are passed over. *)
Definition remove_nodes_from (g : DiGraph) (ns : list string) : DiGraph :=
  fold_left (fun g n => if has_node g n then delete_node g n else g) ns g.

(** [G.subgraph(ns).edges(data=True)]: the edges of [G] between two nodes
    of [ns]. *)
Definition subgraph_edges (g : DiGraph) (ns : list string) : list edge :=
  flat_map
    (fun u => filter (fun e => String.eqb (src e) u && mem (dst e) ns) (edges g))
    (filter (fun u => mem u ns) (nodes g)).

(** Sets of nodes as duplicate-free lists. *)
Definition add_new (seen xs : list string) : list string :=
  fold_left (fun acc x => if mem x acc then acc else acc ++ [x]) xs seen.

(** The nodes reached from [seen] by following [step], breadth first;
    every round but the last adds a node, so [fuel] above the number of
    nodes is never used up. *)
Fixpoint reach (step : string -> list string) (fuel : nat) (seen : list string)
  : list string :=
  match fuel with
  | O => seen
  | S fuel' =>
      let seen' := add_new seen (flat_map step seen) in
      if Nat.eqb (List.length seen') (List.length seen) then seen
      else reach step fuel' seen'
  end.

(** The nodes reached from [n] by one step of [step] or more. *)
Definition reach_from (g : DiGraph) (step : string -> list string) (n : string)
  : list string :=
  reach step (S (List.length (nodes g))) (add_new [] (step n)).

(** [networkx.descendants(G, n)] and [networkx.ancestors(G, n)]: the
    node itself is left out. *)
Definition descendants (g : DiGraph) (n : string) : list string :=
  filter (fun x => negb (String.eqb x n)) (reach_from g (successors g) n).

Definition ancestors (g : DiGraph) (n : string) : list string :=
  filter (fun x => negb (String.eqb x n)) (reach_from g (predecessors g) n).

(** [networkx.is_directed_acyclic_graph(G)]: no node is reached from
    itself. *)
Definition is_directed_acyclic_graph (g : DiGraph) : bool :=
  forallb (fun n => negb (mem n (reach_from g (successors g) n))) (nodes g).

(** [networkx.has_path(G, source, target)] *)
Definition has_path (g : DiGraph) (source target : string) : result bool :=
  if has_node g source && has_node g target
  then Ok (String.eqb source target || mem target (reach_from g (successors g) source))
  else Raise NodeNotFound.

(** The loop of [all_simple_paths] in recursive form. [visit] is entered
    when the search arrives at [n] along [path]; it yields the path if [n]
    is a target and goes deeper, over the successors of [n] that are not
    on the path, while the path is shorter than the cutoff ([depth] is the
    cutoff minus the length of [path]) and some target is still off the
    path. *)
Fixpoint visit (g : DiGraph) (targets : list string) (depth : nat)
         (path : list string) (n : string) : list (list string) :=
  let path' := path ++ [n] in
  (if mem n targets then [path'] else [])
  ++ match depth with
     | O => []
     | S depth' =>
         if existsb (fun t => negb (mem t path')) targets
         then flat_map (visit g targets depth' path')
                       (filter (fun m => negb (mem m path')) (successors g n))
         else []
     end.

(** A string that is not a node is taken as the collection of its
    characters. *)
Fixpoint chars (s : string) : list string :=
  match s with
  | EmptyString => []
  | String c s' => String c EmptyString :: chars s'
  end.

(** [list(networkx.all_simple_paths(G, source, target))], with the
    default cutoff [len(G) - 1]. *)
Definition all_simple_paths (g : DiGraph) (source target : string)
  : result (list (list string)) :=
  if has_node g source then
    let targets := if has_node g target then [target] else chars target in
    match nodes g, targets with
    | _ :: ns, _ :: _ => Ok (visit g targets (List.length ns) [] source)
    | _, _ => Ok []
    end
  else Raise NodeNotFound.

(** The walk down from a common ancestor: to the first successor that is
    a common ancestor too, as long as there is one. On an acyclic graph
    the walk is shorter than the number of nodes. *)
Fixpoint descend (g : DiGraph) (common : list string) (fuel : nat) (a : string)
  : string :=
  match fuel with
  | O => a
  | S fuel' =>
      match find (fun x => mem x common) (successors g a) with
      | None => a
      | Some s => descend g common fuel' s
      end
  end.

(** [networkx.lowest_common_ancestor(G, node1, node2)], [None] when the
    two nodes have no common ancestor. A node counts among its own
    ancestors here. *)
Definition lowest_common_ancestor {RT : Runtime} (g : DiGraph) (node1 node2 : string)
  : result (option string) :=
  if negb (is_directed_acyclic_graph g) then Raise NetworkXError
  else match nodes g with
       | [] => Raise NetworkXPointlessConcept
       | _ =>
           if has_node g node1 && has_node g node2 then
             let a1 := ancestors g node1 ++ [node1] in
             let a2 := ancestors g node2 ++ [node2] in
             match filter (fun x => mem x a2) a1 with
             | [] => Ok None
             | x :: r =>
                 let common := x :: r in
                 Ok (Some (descend g common (List.length (nodes g))
                                   (set_first x r)))
             end
           else Raise NodeNotFound
       end.

End Nx.
Import Nx.

(** *** Graph construction *)

(** [build_graph]: one edge per k-mer, from its prefix [kmer[:-1]] to its
    suffix [kmer[1:]], weighted by its count. *)
Definition add_kmer (graph : DiGraph) (item : string * Z) : DiGraph :=
  let (kmer, w) := item in
  add_edge graph (slice kmer None (Some (-1))) (slice kmer (Some 1) None) w.

Definition build_graph (kmer_dict : dict) : DiGraph :=
  fold_left add_kmer kmer_dict Nx.empty.

(** *** Path removal and selection *)

(** [for node in ns: graph.remove_node(node)] *)
Fixpoint remove_nodes (graph : DiGraph) (ns : list string) : result DiGraph :=
  match ns with
  | [] => Ok graph
  | n :: ns' => g <- remove_node graph n ;; remove_nodes g ns'
  end.

(** The part of a path that [remove_paths] deletes: the whole path,
    [path[:-1]], [path[1:]] or [path[1:-1]]. *)
Definition removed_part (path : list string) (delete_entry_node delete_sink_node : bool)
  : list string :=
  if delete_entry_node && delete_sink_node then path
  else if delete_entry_node then removelast path
  else if delete_sink_node then tl path
  else removelast (tl path).

(** One turn of the loop of [remove_paths]. Only the branch with both flags
    set goes through [remove_nodes_from]. *)
Definition remove_path (graph : DiGraph) (path : list string)
           (delete_entry_node delete_sink_node : bool) : result DiGraph :=
  if delete_entry_node && delete_sink_node
  then Ok (remove_nodes_from graph path)
  else remove_nodes graph (removed_part path delete_entry_node delete_sink_node).

Fixpoint remove_paths (graph : DiGraph) (path_list : list (list string))
         (delete_entry_node delete_sink_node : bool) : result DiGraph :=
  match path_list with
  | [] => Ok graph
  | path :: rest =>
      g <- remove_path graph path delete_entry_node delete_sink_node ;;
      remove_paths g rest delete_entry_node delete_sink_node
  end.

(** [[path for i, path in enumerate(path_list) if i != best]] *)
Fixpoint drop_index {A : Type} (best : nat) (l : list A) : list A :=
  match l, best with
  | [], _ => []
  | _ :: r, O => r
  | x :: r, S i => x :: drop_index i r
  end.

Section Program.

Context {RT : Runtime}.

(** The choice of [best_path_index] in [select_best_path]. A spread is
    never negative, so the last [elif std_lengths == 0] is the branch taken
    when the spread of the lengths is not positive. *)
Definition best_path_index (path_length : list Z) (weight_avg_list : list Q)
           (w : world) : result (nat * world) :=
  sw <- Stat.stdev_positive weight_avg_list ;;
  if sw then
    i <- Stat.index_of_max weight_avg_list ;; Ok (i, w)
  else
    let lengths := map inject_Z path_length in
    sl <- Stat.stdev_positive lengths ;;
    if sl then
      i <- Stat.index_of_max lengths ;; Ok (i, w)
    else
      r <- random_randint 0 (Z.of_nat (List.length path_length) - 1) w ;;
      Ok (Z.to_nat (fst r), snd r).

(** [select_best_path] *)
Definition select_best_path (graph : DiGraph) (path_list : list (list string))
           (path_length : list Z) (weight_avg_list : list Q)
           (delete_entry_node delete_sink_node : bool) (w : world)
  : result (DiGraph * world) :=
  b <- best_path_index path_length weight_avg_list w ;;
  let paths_to_remove := drop_index (fst b) path_list in
  g <- remove_paths graph paths_to_remove delete_entry_node delete_sink_node ;;
  Ok (g, snd b).

(** [path_average_weight] *)
Definition path_average_weight (graph : DiGraph) (path : list string) : result Q :=
  Stat.mean_of_ints (map weight (subgraph_edges graph path)).

Fixpoint average_weights (graph : DiGraph) (path_list : list (list string))
  : result (list Q) :=
  match path_list with
  | [] => Ok []
  | p :: r =>
      a <- path_average_weight graph p ;;
      l <- average_weights graph r ;;
      Ok (a :: l)
  end.

Definition lengths_of (path_list : list (list string)) : list Z :=
  map (fun p => Z.of_nat (List.length p)) path_list.

(** *** Bubbles *)

(** [solve_bubble]. The ancestor is what the scan of [simplify_bubbles]
    left in [ancestor_node], which can be [None]; [all_simple_paths]
    refuses a source that is not a node. *)
Definition solve_bubble (graph : DiGraph) (ancestor_node : option string)
           (descendant_node : string) (w : world) : result (DiGraph * world) :=
  match ancestor_node with
  | None => Raise NodeNotFound
  | Some a =>
      path_list <- all_simple_paths graph a descendant_node ;;
      weight_avg_list <- average_weights graph path_list ;;
      select_best_path graph path_list (lengths_of path_list) weight_avg_list
                       false false w
  end.

(** The scan of [simplify_bubbles]. The state of the loops is the pair of
    [bubble] and [ancestor_node]. The inner loop over [j] stops at the first
    pair with a common ancestor; the loop over [i] goes on. *)
Fixpoint scan_j (graph : DiGraph) (pi : string) (pjs : list string)
         (st : bool * option string) : result (bool * option string) :=
  match pjs with
  | [] => Ok st
  | pj :: rest =>
      a <- lowest_common_ancestor graph pi pj ;;
      match a with
      | Some _ => Ok (true, a)
      | None => scan_j graph pi rest (fst st, None)
      end
  end.

Fixpoint scan_i (graph : DiGraph) (preds : list string)
         (st : bool * option string) : result (bool * option string) :=
  match preds with
  | [] => Ok st
  | pi :: rest => st' <- scan_j graph pi rest st ;; scan_i graph rest st'
  end.

(** The loop over the nodes: [Some (ancestor_node, node)] when it is left
    with [bubble] set, [None] when it runs to its end. *)
Fixpoint scan_nodes (graph : DiGraph) (ns : list string) (ancestor_node : option string)
  : result (option (option string * string)) :=
  match ns with
  | [] => Ok None
  | node :: rest =>
      let list_predecessors := predecessors graph node in
      st <- (if (1 <? List.length list_predecessors)%nat
             then scan_i graph list_predecessors (false, ancestor_node)
             else Ok (false, ancestor_node)) ;;
      if fst st then Ok (Some (snd st, node))
      else scan_nodes graph rest (snd st)
  end.

(** [simplify_bubbles]; [depth] is the number of nested calls the
    interpreter allows. *)
Fixpoint simplify_bubbles (depth : nat) (graph : DiGraph) (w : world)
  : result (DiGraph * world) :=
  match depth with
  | O => Raise RecursionError
  | S depth' =>
      found <- scan_nodes graph (nodes graph) None ;;
      match found with
      | None => Ok (graph, w)
      | Some (ancestor_node, node) =>
          r <- solve_bubble graph ancestor_node node w ;;
          simplify_bubbles depth' (fst r) (snd r)
      end
  end.

(** *** Boundary nodes *)

(** [get_starting_nodes] and [get_sink_nodes] *)
Definition get_starting_nodes (graph : DiGraph) : list string :=
  filter (fun node => Nat.eqb (List.length (predecessors graph node)) 0) (nodes graph).

Definition get_sink_nodes (graph : DiGraph) : list string :=
  filter (fun node => Nat.eqb (List.length (successors graph node)) 0) (nodes graph).

(** *** Tips *)

(** The paths gathered for a node: from every starting node that reaches
    it (entry tips), to every ending node it reaches (out tips). *)
Fixpoint paths_between (graph : DiGraph) (pairs : list (string * string))
  : result (list (list string)) :=
  match pairs with
  | [] => Ok []
  | (a, b) :: rest =>
      h <- has_path graph a b ;;
      ps <- (if h then all_simple_paths graph a b else Ok []) ;;
      qs <- paths_between graph rest ;;
      Ok (ps ++ qs)
  end.

(** The scan of [solve_entry_tips]: it stops at the first node outside
    [starting_nodes] with more than one predecessor and returns the paths
    gathered for it. *)
Fixpoint scan_entry (graph : DiGraph) (starting_nodes ns : list string)
  : result (option (list (list string))) :=
  match ns with
  | [] => Ok None
  | node :: rest =>
      if negb (mem node starting_nodes)
         && (1 <? List.length (predecessors graph node))%nat
      then
        path_list <- paths_between graph (map (fun s => (s, node)) starting_nodes) ;;
        Ok (Some path_list)
      else scan_entry graph starting_nodes rest
  end.

(** [solve_entry_tips] *)
Fixpoint solve_entry_tips (depth : nat) (graph : DiGraph) (starting_nodes : list string)
         (w : world) : result (DiGraph * world) :=
  match depth with
  | O => Raise RecursionError
  | S depth' =>
      found <- scan_entry graph starting_nodes (nodes graph) ;;
      match found with
      | Some path_list =>
          if (1 <? List.length path_list)%nat then
            weight_avg_list <- average_weights graph path_list ;;
            r <- select_best_path graph path_list (lengths_of path_list)
                                  weight_avg_list true false w ;;
            solve_entry_tips depth' (fst r) (get_starting_nodes (fst r)) (snd r)
          else Ok (graph, w)
      | None => Ok (graph, w)
      end
  end.

(** The scan of [solve_out_tips], over successors and ending nodes. *)
Fixpoint scan_out (graph : DiGraph) (ending_nodes ns : list string)
  : result (option (list (list string))) :=
  match ns with
  | [] => Ok None
  | node :: rest =>
      if negb (mem node ending_nodes)
         && (1 <? List.length (successors graph node))%nat
      then
        path_list <- paths_between graph (map (fun e => (node, e)) ending_nodes) ;;
        Ok (Some path_list)
      else scan_out graph ending_nodes rest
  end.

(** [solve_out_tips] *)
Fixpoint solve_out_tips (depth : nat) (graph : DiGraph) (ending_nodes : list string)
         (w : world) : result (DiGraph * world) :=
  match depth with
  | O => Raise RecursionError
  | S depth' =>
      found <- scan_out graph ending_nodes (nodes graph) ;;
      match found with
      | Some path_list =>
          if (1 <? List.length path_list)%nat then
            weight_avg_list <- average_weights graph path_list ;;
            r <- select_best_path graph path_list (lengths_of path_list)
                                  weight_avg_list false true w ;;
            solve_out_tips depth' (fst r) (get_sink_nodes (fst r)) (snd r)
          else Ok (graph, w)
      | None => Ok (graph, w)
      end
  end.

(** *** Contigs *)

(** The sequence of a path: its first node, then the last character of
    each node after it. *)
Fixpoint extend_contig (contig : string) (ns : list string) : result string :=
  match ns with
  | [] => Ok contig
  | node :: rest =>
      match last_char node with
      | None => Raise IndexError
      | Some c => extend_contig (contig ++ String c EmptyString)%string rest
      end
  end.

Definition contig_of_path (a_path : list string) : result (string * Z) :=
  match a_path with
  | [] => Raise IndexError
  | first :: rest =>
      contig <- extend_contig first rest ;;
      Ok (contig, len contig)
  end.

Fixpoint contigs_of_paths (paths : list (list string)) : result (list (string * Z)) :=
  match paths with
  | [] => Ok []
  | p :: rest =>
      c <- contig_of_path p ;;
      cs <- contigs_of_paths rest ;;
      Ok (c :: cs)
  end.

(** The loop of [get_contigs] over the pairs of a start and an end: the
    contigs of the paths of a pair are made before the next pair is looked
    at. *)
Fixpoint contigs_between (graph : DiGraph) (pairs : list (string * string))
  : result (list (string * Z)) :=
  match pairs with
  | [] => Ok []
  | (node_start, node_end) :: rest =>
      h <- has_path graph node_start node_end ;;
      ps <- (if h then all_simple_paths graph node_start node_end else Ok []) ;;
      cs <- contigs_of_paths ps ;;
      ds <- contigs_between graph rest ;;
      Ok (cs ++ ds)
  end.

(** [get_contigs]: the pairs are met start by start and, for each start,
    end by end. *)
Definition get_contigs (graph : DiGraph) (starting_nodes ending_nodes : list string)
  : result (list (string * Z)) :=
  contigs_between graph
    (flat_map (fun s => map (fun e => (s, e)) ending_nodes) starting_nodes).

(** *** The pipeline of [main] *)

(** From the reads to the contigs, without the files. The generator is
    seeded when the module is loaded, whatever state [w0] it was in. *)
Definition assemble (depth : nat) (reads : list string) (kmer_size : Z) (w0 : world)
  : result (list (string * Z) * world) :=
  let w := random_seed 9001 w0 in
  let dict_file_kmer := build_kmer_dict reads kmer_size in
  let graph := build_graph dict_file_kmer in
  r1 <- simplify_bubbles depth graph w ;;
  let starting_nodes := get_starting_nodes (fst r1) in
  r2 <- solve_entry_tips depth (fst r1) starting_nodes (snd r1) ;;
  let ending_nodes := get_sink_nodes (fst r2) in
  r3 <- solve_out_tips depth (fst r2) ending_nodes (snd r2) ;;
  let starting_nodes := get_starting_nodes (fst r3) in
  let ending_nodes := get_sink_nodes (fst r3) in
  contigs <- get_contigs (fst r3) starting_nodes ending_nodes ;;
  Ok (contigs, snd r3).

End Program.

(** A runtime to run the model on: a linear congruential generator, and
    sets iterated in the order of the list that holds them. *)
Definition lcg_randint (a b : Z) (s : Z) : Z * Z :=
  let s' := (s * 1103515245 + 12345) mod 2147483648 in
  (a + s' mod (b - a + 1), s').

Definition lcg_runtime : Runtime := {|
  rng := Z;
  seed := fun a => a;
  randint := lcg_randint;
  randint_range := fun a b s (H : a <= b) =>
    ltac:(unfold lcg_randint; cbn [fst];
          pose proof (Z.mod_pos_bound ((s * 1103515245 + 12345) mod 2147483648)
                                      (b - a + 1));
          lia);
  set_first := fun x _ => x;
  set_first_in := fun x l => or_introl eq_refl
|}.

Definition world0 : @world lcg_runtime := {| gen := 0; drawn := [] |}.










(** *** The vocabulary of the statements, and the graphs of the examples *)

(** What [build_graph] keeps true of the graph it grows, for k-mers of
    length [k]. *)
Definition edge_ok (k : Z) (e : edge) : Prop :=
  slice (src e) (Some 1) None = slice (dst e) None (Some (-1))
  /\ len (src e) = k - 1 /\ len (dst e) = k - 1 /\ 1 <= weight e.

(** Every node is an end of some edge. *)
Definition no_isolated_node (g : DiGraph) : Prop :=
  forall n, In n (nodes g) -> exists e, In e (edges g) /\ (src e = n \/ dst e = n).

(** The invariant of the graph of k-mers of length [k]. *)
Definition debruijn_ok (k : Z) (g : DiGraph) : Prop :=
  (forall e, In e (edges g) -> edge_ok k e) /\ no_isolated_node g.

(** All the nodes that [remove_paths] is to delete, in the order of the
    deletions. *)
Definition removed_nodes (path_list : list (list string)) (de ds : bool) : list string :=
  flat_map (fun p => removed_part p de ds) path_list.

(** The removal goes through when both flags are set, or when no node is
    to be removed twice and all of them are in the graph. *)
Definition removal_safe (g : DiGraph) (path_list : list (list string)) (de ds : bool)
  : Prop :=
  de && ds = true
  \/ (NoDup (removed_nodes path_list de ds)
      /\ forall n, In n (removed_nodes path_list de ds) -> In n (nodes g)).

(** The lengths are all equal. *)
Definition all_equal_Z (l : list Z) : Prop :=
  forall x y, In x l -> In y l -> x = y.




(** Three branches from TA to GT; the first two have the same average
    weight, the third a smaller one. *)
Definition three_branch_graph : DiGraph :=
  build_graph [("TAC", 5); ("ACG", 5); ("CGT", 5);
               ("TAG", 5); ("AGG", 5); ("GGT", 5);
               ("TAT", 3); ("ATG", 3); ("TGT", 3)].

(** Its three paths from TA to GT, as [all_simple_paths] lists them. *)
Definition three_branches : list (list string) :=
  [["TA"; "AC"; "CG"; "GT"]; ["TA"; "AG"; "GG"; "GT"]; ["TA"; "AT"; "TG"; "GT"]].

(** Two starting nodes, AC and TC, that meet in CG. *)
Definition entry_tip_graph : DiGraph :=
  build_graph [("ACG", 3); ("TCG", 1); ("CGT", 3)].

(** The two ends of an edge. *)
Definition key (e : edge) : string * string := fst e.

(** What every [DiGraph] satisfies: a node is stored once, there is one
    edge at most from a node to another, and the ends of an edge are
    nodes. *)
Definition wf (g : DiGraph) : Prop :=
  NoDup (nodes g)
  /\ NoDup (map key (edges g))
  /\ forall e, In e (edges g) -> In (src e) (nodes g) /\ In (dst e) (nodes g).

(** The edges of the graph between two nodes of [ns]. *)
Definition induced_edges (g : DiGraph) (ns : list string) : list edge :=
  filter (fun e => mem (src e) ns && mem (dst e) ns) (edges g).

(** The consecutive steps of a path. *)
Definition steps (path : list string) : list (string * string) :=
  combine path (tl path).

(** [graph[u][v]["weight"]] *)
Definition edge_weight (g : DiGraph) (k : string * string) : Z :=
  match find (fun e => String.eqb (src e) (fst k) && String.eqb (dst e) (snd k))
             (edges g) with
  | Some e => weight e
  | None => 0
  end.

(** A path of the graph that visits no node twice. *)
Definition simple_path (g : DiGraph) (path : list string) : Prop :=
  NoDup path /\ forall s, In s (steps path) -> In s (map key (edges g)).

(** The only edges between nodes of the path are its steps. *)
Definition chord_free (g : DiGraph) (path : list string) : Prop :=
  forall e, In e (edges g) -> In (src e) path -> In (dst e) path ->
            In (key e) (steps path).

(** A path TA -> AA -> AC with the chord TA -> AC. *)
Definition chord_graph : DiGraph := build_graph [("TAA", 1); ("AAC", 1); ("TAC", 4)].

(** The path AC -> CG -> GT -> TA, with the weights 1, 1 and 2. *)
Definition thirds_graph : DiGraph := build_graph [("ACG", 1); ("CGT", 1); ("GTA", 2)].



(** Reads with two entry tips AT, TC and GT, TC that meet the path from AC
    in CG. *)
Definition two_tip_reads : list string := ["ACG"; "ACG"; "ACG"; "ATCG"; "GTC"].
Definition two_tip_graph : DiGraph := build_graph (build_kmer_dict two_tip_reads 3).

(** One node AA with a loop. *)
Definition loop_graph : DiGraph := build_graph [("AAA", 2)].

(** There is an edge from [u] to [v]. *)
Definition has_edge (g : DiGraph) (u v : string) : Prop := In v (successors g u).

(** There is a walk from [u] to [w], of any length. *)
Inductive reaches (g : DiGraph) : string -> string -> Prop :=
| reaches_refl u : reaches g u u
| reaches_edge u v w : has_edge g u v -> reaches g v w -> reaches g u w.

(** There is a walk from [u] to [w] of one edge at least. *)
Definition reaches_plus (g : DiGraph) (u w : string) : Prop :=
  exists v, has_edge g u v /\ reaches g v w.

(** [a] is an ancestor of both [p] and [q], a node counting among its own
    ancestors. *)
Definition common_ancestor (g : DiGraph) (a p q : string) : Prop :=
  reaches g a p /\ reaches g a q.

(** No node is on a cycle. *)
Definition acyclic (g : DiGraph) : Prop := forall n, ~ reaches_plus g n n.

(** What is met from [x] by following [step]. *)
Inductive chain (step : string -> list string) (x : string) : string -> Prop :=
| chain_refl : chain step x x
| chain_step y z : chain step x y -> In z (step y) -> chain step x z.

(** No two predecessors of [n] have a common ancestor. *)
Definition no_bubble_at (g : DiGraph) (n : string) : Prop :=
  forall p q, In p (predecessors g n) -> In q (predecessors g n) -> p <> q ->
              forall a, ~ common_ancestor g a p q.

(** A bubble of two branches between TC and AC. *)
Definition two_branch_graph : DiGraph :=
  build_graph (build_kmer_dict ["TCAC"; "TCGAC"] 3).

(** The same bubble, and a third predecessor TA of AC that has no ancestor
    in common with the other two. *)
Definition three_pred_graph : DiGraph :=
  build_graph (build_kmer_dict ["TCAC"; "TCGAC"; "TAC"] 3).

(** Two tips that meet in AC, and a loop on AA. *)
Definition cyclic_graph : DiGraph :=
  build_graph (build_kmer_dict ["CAC"; "GAC"; "AAA"] 3).

(** *** The vocabulary of the further properties *)

(** All the k-mers of the reads, in the order [build_kmer_dict] meets them. *)
Definition all_kmers (reads : list string) (kmer_size : Z) : list string :=
  flat_map (fun read => cut_kmer read kmer_size) reads.

(** The edge that [build_graph] adds for an entry of the mapping. *)
Definition kmer_edge (item : string * Z) : edge :=
  (slice (fst item) None (Some (-1)), slice (fst item) (Some 1) None, snd item).

(** The graph without the nodes of [removed] and without the edges that
    touch one of them. *)
Definition without (g : DiGraph) (removed : list string) : DiGraph :=
  {| nodes := filter (fun n => negb (mem n removed)) (nodes g);
     edges := filter (fun e => negb (mem (src e) removed) && negb (mem (dst e) removed))
                     (edges g) |}.

(** [g'] is [g] with some nodes taken away, and their edges with them. *)
Definition pruned (g g' : DiGraph) : Prop := exists removed, g' = without g removed.

(** The call does not exhaust the recursion allowance. *)
Definition within_depth {A : Type} (r : result A) : Prop := r <> Raise RecursionError.

(** [rest] continues a walk of the graph from [n]: each node is a successor
    of the one before. *)
Fixpoint walk (g : DiGraph) (n : string) (rest : list string) : Prop :=
  match rest with
  | [] => True
  | m :: rest' => In m (successors g n) /\ walk g m rest'
  end.

(** [p] is a path of the graph from [s] to [t] that visits no node twice. *)
Definition simple_path_between (g : DiGraph) (s t : string) (p : list string) : Prop :=
  exists rest, p = s :: rest /\ last p s = t /\ NoDup p /\ walk g s rest.

(** The graph of a path: its nodes in order, and an edge of weight 1 for
    each of its steps. *)
Definition path_graph (p : list string) : DiGraph :=
  {| nodes := p; edges := map (fun s => (fst s, snd s, 1)) (steps p) |}.

(** An edge and a detour of two edges between TA and AC, all of weight 1. *)
Definition short_cut_graph : DiGraph :=
  build_graph (build_kmer_dict ["TAAC"; "TAC"] 3).

(** A node CG with two ways out, to the ending nodes GT and GA. *)
Definition out_tip_graph : DiGraph :=
  build_graph [("ACG", 3); ("CGT", 3); ("CGA", 1)].

(** The chain AC -> CG -> GT. *)
Definition chain_graph : DiGraph := build_graph [("ACG", 3); ("CGT", 3)].

(** *** Reading the reads and writing the contigs *)

(** [c.isspace()] for a character below 256: the white space that
    [str.strip] removes. *)
Definition is_space (c : ascii) : bool :=
  let n := nat_of_ascii c in
  ((9 <=? n) && (n <=? 13) || (28 <=? n) && (n <=? 32)
   || (n =? 133) || (n =? 160))%nat.

(** [s.lstrip()], [s.rstrip()] and [s.strip()] *)
Fixpoint lstrip (s : string) : string :=
  match s with
  | EmptyString => EmptyString
  | String c s' => if is_space c then lstrip s' else s
  end.

Fixpoint rstrip (s : string) : string :=
  match s with
  | EmptyString => EmptyString
  | String c s' =>
      match rstrip s' with
      | EmptyString => if is_space c then EmptyString else String c EmptyString
      | r => String c r
      end
  end.

Definition strip (s : string) : string := rstrip (lstrip s).

(** [read_fastq], on the lines that the iteration over the file gives: of
    every four lines the second one, stripped; lines left over at the end,
    fewer than four, are dropped when [next] raises [StopIteration]. *)
Fixpoint read_fastq (lines : list string) : list string :=
  match lines with
  | _ :: sequence :: _ :: _ :: rest => strip sequence :: read_fastq rest
  | _ => []
  end.

(** [str(n)] for an integer. *)
Definition str_of_Z (n : Z) : string := NilZero.string_of_int (Z.to_int n).

(** [range(0, stop, step)] for a positive [step]. *)
Definition range_step (stop step : Z) : list Z :=
  map (fun j => j * step) (range ((stop + step - 1) / step)).

(** The lines of the sequence of a contig in [save_contigs]: the slices
    [contig[i:i+80]] for [i] in [range(0, length, 80)]. *)
Definition contig_lines (info : string * Z) : list string :=
  map (fun i => slice (fst info) (Some i) (Some (i + 80))) (range_step (snd info) 80).

(** What [save_contigs] writes for one contig: the header, then the lines
    of the sequence, each with its end of line. *)
Definition contig_record (counter : nat) (info : string * Z) : list string :=
  (">contig_" ++ str_of_Z (Z.of_nat counter) ++ " len=" ++ str_of_Z (snd info)
   ++ String (ascii_of_nat 10) EmptyString)%string
  :: map (fun line => (line ++ String (ascii_of_nat 10) EmptyString)%string)
         (contig_lines info).

(** [save_contigs]: the strings written to the file, in order. *)
Fixpoint save_contigs_from (counter : nat) (contigs_list : list (string * Z))
  : list string :=
  match contigs_list with
  | [] => []
  | info :: rest => contig_record counter info ++ save_contigs_from (S counter) rest
  end.

Definition save_contigs (contigs_list : list (string * Z)) : list string :=
  save_contigs_from 0 contigs_list.

(** A string with no white space at either end, as [strip] leaves it. *)
Definition no_outer_space (s : string) : Prop :=
  (forall c rest, s = String c rest -> is_space c = false)
  /\ (forall init c, s = (init ++ String c EmptyString)%string -> is_space c = false).

(** ** Part II: properties *)

(** *** K-mer counts *)

Lemma length_range (n : Z) : List.length (range n) = Z.to_nat n.
Proof. unfold range. now rewrite length_map, length_seq. Qed.

Lemma length_cut_kmer (read : string) (kmer_size : Z) :
  Z.of_nat (List.length (cut_kmer read kmer_size))
  = Z.max 0 (len read - kmer_size + 1).
Proof. unfold cut_kmer. rewrite length_map, length_range. lia. Qed.

Lemma sum_count_kmer (d : dict) (kmer : string) :
  sum (dict_values (count_kmer d kmer)) = sum (dict_values d) + 1.
Proof.
  unfold count_kmer.
  induction d as [|[k' v'] d IH]; cbn.
  - lia.
  - destruct (String.eqb kmer k'); cbn.
    + lia.
    + unfold dict_values, sum in IH. rewrite IH. lia.
Qed.

Lemma sum_count_kmers (kmers : list string) (d : dict) :
  sum (dict_values (fold_left count_kmer kmers d))
  = sum (dict_values d) + Z.of_nat (List.length kmers).
Proof.
  revert d. induction kmers as [|kmer kmers IH]; intros d; cbn [fold_left List.length].
  - lia.
  - rewrite IH, sum_count_kmer. lia.
Qed.

Lemma sum_build_kmer_dict_from (reads : list string) (kmer_size : Z) (d : dict) :
  sum (dict_values
         (fold_left (fun kmer_dict read =>
                       fold_left count_kmer (cut_kmer read kmer_size) kmer_dict)
                    reads d))
  = sum (dict_values d)
    + sum (map (fun read => Z.max 0 (len read - kmer_size + 1)) reads).
Proof.
  revert d. induction reads as [|read reads IH]; intros d; cbn [fold_left map].
  - cbn. lia.
  - rewrite IH, sum_count_kmers, length_cut_kmer.
    change (sum (?x :: ?l)) with (x + sum l). lia.
Qed.

(** C8. For every list of reads and every positive k, the counts of the
    mapping built by [build_kmer_dict] add up to the sum over the reads of
    [max(0, len(read) - k + 1)], and a read shorter than k gives no k-mer. *)
Theorem kmer_count_total (reads : list string) (kmer_size : Z) :
  0 < kmer_size ->
  sum (dict_values (build_kmer_dict reads kmer_size))
  = sum (map (fun read => Z.max 0 (len read - kmer_size + 1)) reads)
  /\ (forall read, len read < kmer_size -> cut_kmer read kmer_size = []).
Proof.
  intros _. split.
  - unfold build_kmer_dict. now rewrite sum_build_kmer_dict_from.
  - intros read Hshort. unfold cut_kmer, range.
    replace (Z.to_nat (len read - kmer_size + 1)) with O by lia.
    reflexivity.
Qed.

Lemma kmer_count_total_witness :
  0 < 3
  /\ sum (dict_values (build_kmer_dict ["ACGT"; "CGTA"; "AC"] 3)) = 4
  /\ cut_kmer "AC" 3 = [].
Proof.
  split; [lia|].
  destruct (kmer_count_total ["ACGT"; "CGTA"; "AC"] 3) as [Hsum Hshort]; [lia|].
  split.
  - rewrite Hsum. reflexivity.
  - apply Hshort. vm_compute. reflexivity.
Defined.

(** *** Strings and membership *)

Lemma mem_In (x : string) (l : list string) : mem x l = true <-> In x l.
Proof.
  unfold mem. rewrite existsb_exists. split.
  - intros [y [Hy Heq]]. apply String.eqb_eq in Heq. now subst.
  - intros H. exists x. split; [assumption|apply String.eqb_refl].
Qed.

Lemma mem_not_In (x : string) (l : list string) : mem x l = false <-> ~ In x l.
Proof.
  rewrite <- mem_In. destruct (mem x l); split; congruence.
Qed.

Lemma substring_empty (n m : nat) : substring n m "" = "".
Proof. destruct n, m; reflexivity. Qed.

Lemma length_substring (s : string) :
  forall n m, (n + m <= String.length s)%nat -> String.length (substring n m s) = m.
Proof.
  induction s as [|c s IH]; intros n m Hle; cbn in Hle.
  - assert (n = O /\ m = O) as [-> ->] by lia. reflexivity.
  - destruct n as [|n]; cbn.
    + destruct m as [|m]; cbn; [reflexivity|]. rewrite IH; [reflexivity|lia].
    + apply IH. lia.
Qed.

Lemma substring_substring (s : string) :
  forall n m n' m', (n' + m' <= m)%nat ->
    substring n' m' (substring n m s) = substring (n + n') m' s.
Proof.
  induction s as [|c s IH]; intros n m n' m' Hle.
  - now rewrite !substring_empty.
  - destruct n as [|n].
    + destruct m as [|m].
      * assert (n' = O /\ m' = O) as [-> ->] by lia. reflexivity.
      * cbn [substring Nat.add]. destruct n' as [|n'].
        -- destruct m' as [|m']; [reflexivity|]. cbn [substring]. f_equal.
           apply (IH O m O m'). lia.
        -- cbn [substring]. apply (IH O m n' m'). lia.
    + cbn [substring Nat.add]. apply IH. assumption.
Qed.

(** [s[:-1]] and [s[1:]] as substrings. *)
Lemma slice_prefix (s : string) :
  slice s None (Some (-1)) = substring 0 (String.length s - 1) s.
Proof.
  unfold slice, slice_bound, len. cbn [Z.ltb Z.compare].
  destruct s as [|c s]; [reflexivity|].
  f_equal; cbn [String.length]; lia.
Qed.

Lemma slice_suffix (s : string) :
  slice s (Some 1) None = substring 1 (String.length s - 1) s.
Proof.
  unfold slice, slice_bound, len. cbn [Z.ltb Z.compare].
  destruct s as [|c s]; [reflexivity|].
  f_equal; cbn [String.length]; lia.
Qed.

(** The two ends of a k-mer overlap on its middle. *)
Lemma kmer_overlap (kmer : string) (k : Z) :
  2 <= k -> len kmer = k ->
  let A := slice kmer None (Some (-1)) in
  let B := slice kmer (Some 1) None in
  slice A (Some 1) None = slice B None (Some (-1))
  /\ len A = k - 1 /\ len B = k - 1.
Proof.
  intros Hk Hlen A B. unfold len in Hlen.
  assert (HA : String.length A = (String.length kmer - 1)%nat).
  { unfold A. rewrite slice_prefix. apply length_substring. lia. }
  assert (HB : String.length B = (String.length kmer - 1)%nat).
  { unfold B. rewrite slice_suffix. apply length_substring. lia. }
  split; [|unfold len; lia].
  rewrite slice_suffix, slice_prefix, HA, HB.
  unfold A, B. rewrite slice_prefix, slice_suffix.
  rewrite !substring_substring by lia. reflexivity.
Qed.

(** *** Graph construction *)

Lemma In_nodes_add_node (g : DiGraph) (u n : string) :
  In n (nodes (add_node g u)) <-> In n (nodes g) \/ n = u.
Proof.
  unfold add_node, has_node. destruct (mem u (nodes g)) eqn:Hu; cbn.
  - apply mem_In in Hu. split; [tauto|]. intros [H| ->]; assumption.
  - rewrite in_app_iff. cbn. intuition auto.
Qed.

Lemma edges_add_node (g : DiGraph) (u : string) : edges (add_node g u) = edges g.
Proof. unfold add_node. now destruct (has_node g u). Qed.

Lemma In_set_edge (es : list edge) (u v : string) (w : Z) (e : edge) :
  In e (set_edge es u v w) -> e = (u, v, w) \/ In e es.
Proof.
  induction es as [|e0 es IH]; cbn.
  - intuition auto.
  - destruct (String.eqb (src e0) u && String.eqb (dst e0) v); cbn; intuition auto.
Qed.

Lemma set_edge_In (es : list edge) (u v : string) (w : Z) :
  In (u, v, w) (set_edge es u v w).
Proof.
  induction es as [|e0 es IH]; cbn.
  - now left.
  - destruct (String.eqb (src e0) u && String.eqb (dst e0) v); cbn; auto.
Qed.

Lemma set_edge_keeps_ends (es : list edge) (u v : string) (w : Z) (e : edge) :
  In e es ->
  exists e', In e' (set_edge es u v w) /\ src e' = src e /\ dst e' = dst e.
Proof.
  induction es as [|e0 es IH]; cbn; [tauto|].
  intros [->|Hin].
  - destruct (String.eqb (src e) u && String.eqb (dst e) v) eqn:Heq.
    + apply andb_true_iff in Heq as [Hu Hv].
      apply String.eqb_eq in Hu, Hv.
      exists (u, v, w). cbn. auto.
    + exists e. cbn. auto.
  - destruct (IH Hin) as [e' [Hin' Hends]].
    destruct (String.eqb (src e0) u && String.eqb (dst e0) v) eqn:Heq.
    + exists e. cbn. auto.
    + exists e'. cbn. auto.
Qed.

Lemma add_edge_debruijn_ok (k : Z) (g : DiGraph) (u v : string) (w : Z) :
  debruijn_ok k g -> edge_ok k (u, v, w) -> debruijn_ok k (add_edge g u v w).
Proof.
  intros [Hedges Hnodes] Hnew. split.
  - intros e He. cbn in He. rewrite !edges_add_node in He.
    apply In_set_edge in He as [->|He]; auto.
  - intros n Hn. cbn in Hn. cbn [add_edge edges]. rewrite !edges_add_node.
    apply In_nodes_add_node in Hn as [Hn| ->].
    + apply In_nodes_add_node in Hn as [Hn| ->].
      * destruct (Hnodes n Hn) as [e [He Hends]].
        destruct (set_edge_keeps_ends (edges g) u v w e He) as [e' [He' [Hs Hd]]].
        exists e'. rewrite Hs, Hd. auto.
      * exists (u, v, w). split; [apply set_edge_In|now left].
    + exists (u, v, w). split; [apply set_edge_In|now right].
Qed.

Lemma build_graph_from_ok (k : Z) (kmer_dict : dict) (g : DiGraph) :
  2 <= k ->
  (forall kmer c, In (kmer, c) kmer_dict -> len kmer = k /\ 1 <= c) ->
  debruijn_ok k g ->
  debruijn_ok k (fold_left add_kmer kmer_dict g).
Proof.
  intros Hk. revert g. induction kmer_dict as [|[kmer c] d IH]; intros g Hd Hg.
  - exact Hg.
  - cbn [fold_left]. apply IH.
    + intros kmer' c' Hin. apply Hd. now right.
    + destruct (Hd kmer c (or_introl eq_refl)) as [Hlen Hc].
      unfold add_kmer. apply add_edge_debruijn_ok; [assumption|].
      destruct (kmer_overlap kmer k Hk Hlen) as [Hov [HA HB]].
      repeat split; assumption.
Qed.

(** C6. For k-mers of length k >= 2 with counts >= 1, every edge (A, B) of
    the graph of [build_graph] has [A[1:] == B[:-1]], both ends of length
    k - 1 and a weight >= 1, and every node is an end of some edge. *)
Theorem build_graph_invariant (kmer_dict : dict) (k : Z) :
  2 <= k ->
  (forall kmer c, In (kmer, c) kmer_dict -> len kmer = k /\ 1 <= c) ->
  (forall A B w, In (A, B, w) (edges (build_graph kmer_dict)) ->
     slice A (Some 1) None = slice B None (Some (-1))
     /\ len A = k - 1 /\ len B = k - 1 /\ 1 <= w)
  /\ (forall n, In n (nodes (build_graph kmer_dict)) ->
        exists A B w, In (A, B, w) (edges (build_graph kmer_dict))
                      /\ (A = n \/ B = n)).
Proof.
  intros Hk Hd.
  assert (Hok : debruijn_ok k (build_graph kmer_dict)).
  { apply build_graph_from_ok; [assumption|assumption|].
    split; [intros e []|intros n []]. }
  destruct Hok as [Hedges Hnodes]. split.
  - intros A B w Hin. exact (Hedges _ Hin).
  - intros n Hn. destruct (Hnodes n Hn) as [[[A B] w] [Hin Hends]].
    exists A, B, w. auto.
Qed.

Lemma build_graph_invariant_witness :
  let d := [("ACG", 1); ("CGT", 2); ("GTA", 1)] in
  2 <= 3
  /\ (forall kmer c, In (kmer, c) d -> len kmer = 3 /\ 1 <= c)
  /\ (forall A B w, In (A, B, w) (edges (build_graph d)) ->
        slice A (Some 1) None = slice B None (Some (-1))
        /\ len A = 3 - 1 /\ len B = 3 - 1 /\ 1 <= w).
Proof.
  intros d.
  assert (Hd : forall kmer c, In (kmer, c) d -> len kmer = 3 /\ 1 <= c).
  { intros kmer c Hin. cbn in Hin.
    destruct Hin as [H|[H|[H|[]]]]; inversion H; subst; split; vm_compute; congruence. }
  split; [lia|]. split; [exact Hd|].
  apply (build_graph_invariant d 3); [lia|exact Hd].
Defined.

(** *** The round trip on two reads *)

(** C9. For the reads ["ACGT"; "CGTA"] and k = 3: the k-mer counts are
    ACG:1, CGT:2, GTA:1; the graph has the nodes AC, CG, GT, TA and the
    edges AC->CG (1), CG->GT (2), GT->TA (1); its only starting node is AC
    and its only sink is TA; contig extraction gives the one contig ACGTA of
    length 5, and so does the whole pipeline, which draws no random number
    on the way. This holds for every runtime and every recursion allowance
    of at least one call. *)
Theorem round_trip_scenario (RT : Runtime) (depth : nat) (w0 : world) :
  let reads := ["ACGT"; "CGTA"] in
  let kmer_dict := build_kmer_dict reads 3 in
  let graph := build_graph kmer_dict in
  kmer_dict = [("ACG", 1); ("CGT", 2); ("GTA", 1)]
  /\ nodes graph = ["AC"; "CG"; "GT"; "TA"]
  /\ edges graph = [("AC", "CG", 1); ("CG", "GT", 2); ("GT", "TA", 1)]
  /\ get_starting_nodes graph = ["AC"]
  /\ get_sink_nodes graph = ["TA"]
  /\ all_simple_paths graph "AC" "TA" = Ok [["AC"; "CG"; "GT"; "TA"]]
  /\ get_contigs graph (get_starting_nodes graph) (get_sink_nodes graph)
     = Ok [("ACGTA", 5)]
  /\ assemble (S depth) reads 3 w0 = Ok ([("ACGTA", 5)], random_seed 9001 w0).
Proof.
  cbv zeta. repeat split; reflexivity.
Qed.

(** *** Spread and maximum *)

Module StatFacts.
Import Stat.
Local Open Scope Q_scope.

Lemma Qsquare_nonneg (d : Q) : 0 <= d * d.
Proof.
  destruct (Qlt_le_dec d 0) as [Hneg|Hpos].
  - setoid_replace (d * d) with ((- d) * (- d)) by ring.
    apply Qmult_le_0_compat; lra.
  - now apply Qmult_le_0_compat.
Qed.

Lemma Qsquare_pos (d : Q) : ~ d == 0 -> 0 < d * d.
Proof.
  intros Hne. destruct (Q_dec d 0) as [[Hlt|Hgt]|Heq]; [| |contradiction].
  - setoid_replace (d * d) with ((- d) * (- d)) by ring.
    apply Qmult_lt_0_compat; lra.
  - now apply Qmult_lt_0_compat.
Qed.

Lemma sq_dev_cons m x l : sq_dev m (x :: l) = (x - m) * (x - m) + sq_dev m l.
Proof. reflexivity. Qed.

Lemma sq_dev_nonneg m l : 0 <= sq_dev m l.
Proof.
  induction l as [|x l IH]; [unfold sq_dev; cbn; lra|].
  rewrite sq_dev_cons. pose proof (Qsquare_nonneg (x - m)). lra.
Qed.

Lemma sq_dev_pos m l :
  (exists x, In x l /\ ~ x == m) -> 0 < sq_dev m l.
Proof.
  intros [x [Hin Hne]]. induction l as [|y l IH]; [destruct Hin|].
  rewrite sq_dev_cons.
  pose proof (sq_dev_nonneg m l). pose proof (Qsquare_nonneg (y - m)).
  destruct Hin as [->|Hin].
  - assert (0 < (x - m) * (x - m)) by (apply Qsquare_pos; lra).
    lra.
  - specialize (IH Hin). lra.
Qed.

Lemma sq_dev_zero m l :
  (forall x, In x l -> x == m) -> sq_dev m l == 0.
Proof.
  intros Hall. induction l as [|y l IH]; [reflexivity|].
  rewrite sq_dev_cons.
  rewrite IH by (intros; apply Hall; now right).
  rewrite (Hall y (or_introl eq_refl)). ring.
Qed.

(** The sum of a list of equal values. *)
Lemma qsum_constant c l :
  (forall x, In x l -> x == c) ->
  qsum l == inject_Z (Z.of_nat (List.length l)) * c.
Proof.
  intros Hall. induction l as [|y l IH].
  - cbn. ring.
  - cbn [qsum fold_right List.length]. fold (qsum l).
    rewrite IH by (intros; apply Hall; now right).
    rewrite (Hall y (or_introl eq_refl)).
    rewrite Nat2Z.inj_succ. unfold Z.succ. rewrite inject_Z_plus. ring.
Qed.

Lemma mean_constant c l :
  l <> [] -> (forall x, In x l -> x == c) ->
  exists m, mean l = Ok m /\ m == c.
Proof.
  intros Hne Hall. destruct l as [|y l]; [congruence|].
  eexists. split; [reflexivity|].
  rewrite (qsum_constant c) by assumption.
  set (n := inject_Z (Z.of_nat (List.length (y :: l)))).
  assert (0 < n).
  { unfold n. change 0 with (inject_Z 0). rewrite <- Zlt_Qlt. cbn [List.length]. lia. }
  field. lra.
Qed.

Lemma exists_far (m : Q) (l : list Q) :
  ~ all_equal l -> exists z, In z l /\ ~ z == m.
Proof.
  intros Hne.
  destruct (Forall_Exists_dec (fun z => z == m) (fun z => Qeq_dec z m) l)
    as [Hall|Hex].
  - exfalso. apply Hne. intros x y Hx Hy.
    rewrite Forall_forall in Hall.
    rewrite (Hall x Hx), (Hall y Hy). reflexivity.
  - apply Exists_exists in Hex. exact Hex.
Qed.


Lemma Qltb_true (x y : Q) : Qltb x y = true <-> x < y.
Proof.
  unfold Qltb. rewrite negb_true_iff. split.
  - intros H. apply Qnot_le_lt. intros Hle.
    apply Qle_bool_iff in Hle. congruence.
  - intros H. destruct (Qle_bool y x) eqn:E; [|reflexivity].
    apply Qle_bool_iff in E. lra.
Qed.



(** With two data points or more, the spread is positive exactly when the
    data are not all equal. *)
Lemma stdev_positive_long (l : list Q) :
  (2 <= List.length l)%nat ->
  exists b, stdev_positive l = Ok b
            /\ (b = true <-> ~ all_equal l).
Proof.
  intros Hlen.
  destruct l as [|x [|y l]]; cbn [List.length] in Hlen; try lia.
  set (data := x :: y :: l).
  set (n := inject_Z (Z.of_nat (List.length data))).
  set (m := qsum data / n).
  set (d := inject_Z (Z.of_nat (List.length data) - 1)).
  assert (Hd : 0 < d).
  { unfold d. change 0 with (inject_Z 0). rewrite <- Zlt_Qlt.
    unfold data. cbn [List.length]. lia. }
  assert (Hv : stdev_positive data = Ok (Qltb 0 (sq_dev m data / d))) by reflexivity.
  exists (Qltb 0 (sq_dev m data / d)). split; [exact Hv|].
  rewrite Qltb_true. split.
  - intros Hpos Hall.
    destruct (mean_constant x data) as [m' [Hm' Hmx]].
    + discriminate.
    + intros z Hz. apply Hall; [assumption|now left].
    + assert (Hm : mean data = Ok m) by reflexivity.
      rewrite Hm in Hm'. injection Hm' as <-.
      assert (Hz : sq_dev m data == 0).
      { apply sq_dev_zero. intros z Hz. rewrite Hmx.
        apply Hall; [assumption|now left]. }
      rewrite Hz in Hpos. unfold Qdiv in Hpos.
      rewrite Qmult_0_l in Hpos. lra.
  - intros Hne.
    apply Qlt_shift_div_l; [assumption|].
    rewrite Qmult_0_l. apply sq_dev_pos. now apply exists_far.
Qed.



End StatFacts.

(** *** Node removal *)

Lemma NoDup_app_inv {A : Type} (l1 l2 : list A) :
  NoDup (l1 ++ l2) ->
  NoDup l1 /\ NoDup l2 /\ (forall a, In a l1 -> ~ In a l2).
Proof.
  intros H. split; [now apply NoDup_app_remove_r in H|].
  split; [now apply NoDup_app_remove_l in H|].
  induction l1 as [|x l1 IH]; intros a Ha; [destruct Ha|].
  cbn in H. apply NoDup_cons_iff in H as [Hx Hrest].
  destruct Ha as [->|Ha].
  - intros Hin. apply Hx. apply in_or_app. now right.
  - now apply IH.
Qed.

Lemma In_nodes_delete_node (g : DiGraph) (n x : string) :
  In x (nodes (delete_node g n)) <-> In x (nodes g) /\ x <> n.
Proof.
  cbn. rewrite filter_In, negb_true_iff, String.eqb_neq. reflexivity.
Qed.

Lemma remove_nodes_nodes (ns : list string) :
  forall g g', remove_nodes g ns = Ok g' ->
               forall x, In x (nodes g') <-> In x (nodes g) /\ ~ In x ns.
Proof.
  induction ns as [|n ns IH]; intros g g' H x; cbn in H.
  - injection H as <-. cbn. tauto.
  - unfold remove_node in H. destruct (has_node g n); [|discriminate].
    cbn in H. rewrite (IH _ _ H), In_nodes_delete_node. cbn.
    intuition congruence.
Qed.

Lemma remove_nodes_success (ns : list string) :
  forall g, NoDup ns -> (forall n, In n ns -> In n (nodes g)) ->
            exists g', remove_nodes g ns = Ok g'.
Proof.
  induction ns as [|n ns IH]; intros g Hnd Hin; cbn.
  - now exists g.
  - apply NoDup_cons_iff in Hnd as [Hn Hnd].
    unfold remove_node, has_node.
    assert (Hmem : mem n (nodes g) = true) by (apply mem_In, Hin; now left).
    rewrite Hmem. cbn. apply IH; [assumption|].
    intros m Hm. apply In_nodes_delete_node. split.
    + apply Hin. now right.
    + intros ->. contradiction.
Qed.

Lemma remove_nodes_from_nodes (ns : list string) :
  forall g x, In x (nodes (remove_nodes_from g ns)) <-> In x (nodes g) /\ ~ In x ns.
Proof.
  unfold remove_nodes_from.
  induction ns as [|n ns IH]; intros g x; cbn [fold_left].
  - cbn. tauto.
  - rewrite IH. unfold has_node. destruct (mem n (nodes g)) eqn:Hmem.
    + rewrite In_nodes_delete_node. cbn. intuition congruence.
    + apply mem_not_In in Hmem. cbn. intuition congruence.
Qed.

Lemma remove_path_nodes (g g' : DiGraph) (p : list string) (de ds : bool) :
  remove_path g p de ds = Ok g' ->
  forall x, In x (nodes g') <-> In x (nodes g) /\ ~ In x (removed_part p de ds).
Proof.
  unfold remove_path, removed_part. intros H x.
  destruct (de && ds).
  - injection H as <-. apply remove_nodes_from_nodes.
  - now apply remove_nodes_nodes.
Qed.

Lemma remove_paths_nodes (ps : list (list string)) (de ds : bool) :
  forall g g', remove_paths g ps de ds = Ok g' ->
               forall x, In x (nodes g') <->
                         In x (nodes g) /\ ~ In x (removed_nodes ps de ds).
Proof.
  induction ps as [|p ps IH]; intros g g' H x; cbn in H.
  - injection H as <-. cbn. tauto.
  - destruct (remove_path g p de ds) as [g1|] eqn:Hp; [|discriminate].
    cbn in H. rewrite (IH _ _ H), (remove_path_nodes _ _ _ _ _ Hp).
    unfold removed_nodes. cbn [flat_map]. rewrite in_app_iff. tauto.
Qed.

Lemma remove_paths_success (ps : list (list string)) (de ds : bool) :
  forall g, removal_safe g ps de ds -> exists g', remove_paths g ps de ds = Ok g'.
Proof.
  induction ps as [|p ps IH]; intros g Hsafe; cbn.
  - now exists g.
  - destruct Hsafe as [Hboth|[Hnd Hin]].
    + unfold remove_path. rewrite Hboth. cbn. apply IH. now left.
    + unfold removed_nodes in Hnd, Hin. cbn [flat_map] in Hnd, Hin.
      apply NoDup_app_inv in Hnd as [Hp [Hps Hdisj]].
      unfold remove_path. destruct (de && ds) eqn:Hboth.
      * cbn. apply IH. now left.
      * destruct (remove_nodes_success (removed_part p de ds) g Hp) as [g1 Hg1].
        { intros n Hn. apply Hin. apply in_or_app. now left. }
        rewrite Hg1. cbn. apply IH. right. split; [assumption|].
        intros n Hn. apply (remove_nodes_nodes _ _ _ Hg1). split.
        -- apply Hin. apply in_or_app. now right.
        -- intros Hn'. exact (Hdisj n Hn' Hn).
Qed.

(** The only exception of the removal is the one of [remove_node]. *)
Lemma remove_nodes_raise (ns : list string) :
  forall g e, remove_nodes g ns = Raise e -> e = NetworkXError.
Proof.
  induction ns as [|n ns IH]; intros g e H; cbn in H; [discriminate|].
  unfold remove_node in H. destruct (has_node g n); cbn in H; [eauto|congruence].
Qed.

Lemma remove_paths_raise (ps : list (list string)) (de ds : bool) :
  forall g e, remove_paths g ps de ds = Raise e -> e = NetworkXError.
Proof.
  induction ps as [|p ps IH]; intros g e H; cbn in H; [discriminate|].
  destruct (remove_path g p de ds) as [g1|e1] eqn:Hp; cbn in H; [eauto|].
  injection H as <-. unfold remove_path in Hp.
  destruct (de && ds); [discriminate|]. eapply remove_nodes_raise; eassumption.
Qed.

Lemma remove_nodes_ok_inv (ns : list string) :
  forall g g', remove_nodes g ns = Ok g' ->
               NoDup ns /\ forall n, In n ns -> In n (nodes g).
Proof.
  induction ns as [|n ns IH]; intros g g' H; cbn in H.
  - split; [constructor|intros n []].
  - unfold remove_node, has_node in H. destruct (mem n (nodes g)) eqn:E; [|discriminate].
    cbn in H. apply mem_In in E. destruct (IH _ _ H) as [Hnd Hin]. split.
    + constructor; [|assumption]. intros Hn. apply Hin, In_nodes_delete_node in Hn.
      now destruct Hn.
    + intros m [<-|Hm]; [assumption|]. now apply Hin, In_nodes_delete_node in Hm.
Qed.

Lemma remove_paths_ok_inv (ps : list (list string)) (de ds : bool) :
  de && ds = false ->
  forall g g', remove_paths g ps de ds = Ok g' ->
               NoDup (removed_nodes ps de ds)
               /\ forall n, In n (removed_nodes ps de ds) -> In n (nodes g).
Proof.
  intros Hflags. induction ps as [|p ps IH]; intros g g' H; cbn in H.
  - split; [constructor|intros n []].
  - destruct (remove_path g p de ds) as [g1|] eqn:Hp; [|discriminate]. cbn in H.
    pose proof (remove_path_nodes _ _ _ _ _ Hp) as Hnodes.
    unfold remove_path in Hp. rewrite Hflags in Hp.
    apply remove_nodes_ok_inv in Hp as [Hnd1 Hin1].
    destruct (IH _ _ H) as [Hnd2 Hin2].
    unfold removed_nodes in *. cbn [flat_map]. split.
    + apply NoDup_app; [assumption|assumption|].
      intros a Ha Ha'. apply Hin2, Hnodes in Ha'. tauto.
    + intros n Hn. apply in_app_or in Hn as [Hn|Hn]; [auto|].
      now apply Hin2, Hnodes in Hn.
Qed.

Lemma drop_index_In {A : Type} (l : list A) :
  forall i x, In x (drop_index i l) -> In x l.
Proof.
  induction l as [|y l IH]; intros i x H; [destruct i; exact H|].
  destruct i as [|i]; cbn in H.
  - now right.
  - destruct H as [->|H]; [now left|right; eauto].
Qed.


Lemma removal_safe_drop_index (g : DiGraph) (ps : list (list string)) (de ds : bool) :
  forall i, removal_safe g ps de ds -> removal_safe g (drop_index i ps) de ds.
Proof.
  intros i [Hboth|[Hnd Hin]]; [now left|right].
  unfold removed_nodes in *.
  revert i Hnd Hin. induction ps as [|p ps IH]; intros i Hnd Hin.
  - destruct i; cbn; split; [constructor|tauto|constructor|tauto].
  - cbn [flat_map] in Hnd, Hin.
    apply NoDup_app_inv in Hnd as [Hp [Hps Hdisj]].
    assert (Hin' : forall n, In n (flat_map (fun p => removed_part p de ds) ps) ->
                             In n (nodes g)).
    { intros n Hn. apply Hin. apply in_or_app. now right. }
    destruct i as [|i]; cbn [drop_index].
    + split; assumption.
    + destruct (IH i Hps Hin') as [Hnd' Hsub]. cbn [flat_map]. split.
      * apply NoDup_app; [assumption|assumption|].
        intros a Ha Ha'. apply (Hdisj a Ha).
        apply in_flat_map in Ha' as [q [Hq Haq]].
        apply in_flat_map. exists q. split; [|assumption].
        eapply drop_index_In; eassumption.
      * intros n Hn. apply in_app_or in Hn as [Hn|Hn]; [|auto].
        apply Hin. apply in_or_app. now left.
Qed.

(** *** The choice of the surviving path *)

Lemma all_equal_inject_Z (l : list Z) :
  Stat.all_equal (map inject_Z l) <-> all_equal_Z l.
Proof.
  unfold Stat.all_equal, all_equal_Z. split.
  - intros H x y Hx Hy. apply inject_Z_injective.
    apply H; now apply in_map.
  - intros H x y Hx Hy.
    apply in_map_iff in Hx as [a [<- Ha]]. apply in_map_iff in Hy as [b [<- Hb]].
    now rewrite (H a b Ha Hb).
Qed.



Section Selection.

Context {RT : Runtime}.



End Selection.

Section SelectBestPath.

Context {RT : Runtime}.



(** Every path of [all_simple_paths] ends on a target and visits no node
    twice. *)
Lemma visit_simple (g : DiGraph) (targets : list string) (depth : nat) :
  forall path n p,
    NoDup (path ++ [n]) ->
    In p (visit g targets depth path n) ->
    NoDup p /\ exists q t, p = q ++ [t] /\ In t targets.
Proof.
  induction depth as [|depth IH]; intros path n p Hnd Hin; cbn [visit] in Hin;
    apply in_app_or in Hin as [Hin|Hin].
  - destruct (mem n targets) eqn:Hn; [|destruct Hin].
    destruct Hin as [<-|[]]. split; [assumption|].
    exists path, n. split; [reflexivity|now apply mem_In].
  - destruct Hin.
  - destruct (mem n targets) eqn:Hn; [|destruct Hin].
    destruct Hin as [<-|[]]. split; [assumption|].
    exists path, n. split; [reflexivity|now apply mem_In].
  - destruct (existsb (fun t => negb (mem t (path ++ [n]))) targets); [|destruct Hin].
    apply in_flat_map in Hin as [m [Hm Hp]].
    apply filter_In in Hm as [_ Hm]. apply negb_true_iff, mem_not_In in Hm.
    apply (IH (path ++ [n]) m p); [|assumption].
    apply NoDup_app; [assumption|repeat constructor; intros []|].
    intros a Ha [<-|[]]. contradiction.
Qed.

Lemma all_simple_paths_shape (g : DiGraph) (source target : string)
      (paths : list (list string)) :
  has_node g target = true ->
  all_simple_paths g source target = Ok paths ->
  forall p, In p paths -> exists q, p = q ++ [target] /\ ~ In target q.
Proof.
  intros Ht H p Hp. unfold all_simple_paths in H. rewrite Ht in H.
  destruct (has_node g source); [|discriminate].
  destruct (nodes g) as [|n0 ns]; [injection H as <-; destruct Hp|].
  injection H as <-.
  apply visit_simple in Hp as [Hnd [q [t [-> Ht']]]].
  - destruct Ht' as [<-|[]]. exists q. split; [reflexivity|].
    apply NoDup_app_inv in Hnd as [_ [_ Hdisj]].
    intros Hq. apply (Hdisj _ Hq). now left.
  - cbn. repeat constructor. intros [].
Qed.

Lemma paths_between_shape (g : DiGraph) (node : string) (sources : list string) :
  has_node g node = true ->
  forall paths,
    paths_between g (map (fun s => (s, node)) sources) = Ok paths ->
    forall p, In p paths -> exists q, p = q ++ [node] /\ ~ In node q.
Proof.
  intros Hnode. induction sources as [|s sources IH]; intros paths H p Hp; cbn in H.
  - injection H as <-. destruct Hp.
  - destruct (has_path g s node) as [h|]; [|discriminate]. cbn [bind] in H.
    destruct (if h then all_simple_paths g s node else Ok []) as [ps|] eqn:Hps;
      [|discriminate].
    cbn [bind] in H.
    destruct (paths_between g (map (fun s => (s, node)) sources)) as [qs|] eqn:Hqs;
      [|discriminate].
    cbn [bind] in H. injection H as <-.
    apply in_app_or in Hp as [Hp|Hp].
    + destruct h.
      * eapply all_simple_paths_shape; eassumption.
      * injection Hps as <-. destruct Hp.
    + eapply IH; [reflexivity|assumption].
Qed.

(** The removal of entry tips where it succeeds. When [select_best_path],
    called with [delete_entry_node] set and [delete_sink_node] unset on the
    paths gathered from the starting nodes to the convergence node,
    returns a graph: every node of each losing
    path except its last node is no longer a node of that graph, and the
    convergence node still is. *)
Theorem entry_tip_removal (graph : DiGraph) (starting_nodes : list string)
        (node : string) (path_list : list (list string)) (weight_avg_list : list Q)
        (w : world) (g' : DiGraph) (w' : world) :
  In node (nodes graph) ->
  paths_between graph (map (fun s => (s, node)) starting_nodes) = Ok path_list ->
  select_best_path graph path_list (lengths_of path_list) weight_avg_list
                   true false w = Ok (g', w') ->
  exists i,
    best_path_index (lengths_of path_list) weight_avg_list w = Ok (i, w')
    /\ (forall losing n,
          In losing (drop_index i path_list) ->
          In n (removelast losing) -> ~ In n (nodes g'))
    /\ In node (nodes g').
Proof.
  intros Hnode Hpaths Hsel. unfold select_best_path in Hsel.
  destruct (best_path_index (lengths_of path_list) weight_avg_list w)
    as [[i w1]|] eqn:Hbest; [|discriminate].
  cbn [bind fst snd] in Hsel.
  destruct (remove_paths graph (drop_index i path_list) true false)
    as [g1|] eqn:Hrem; [|discriminate].
  cbn [bind] in Hsel. injection Hsel as <- <-.
  exists i. split; [reflexivity|].
  pose proof (remove_paths_nodes _ _ _ _ _ Hrem) as Hnodes. split.
  - intros losing n Hlosing Hn Hin. apply Hnodes in Hin as [_ Hin].
    apply Hin. unfold removed_nodes. apply in_flat_map.
    exists losing. split; [assumption|exact Hn].
  - apply Hnodes. split; [assumption|].
    unfold removed_nodes. intros Hin.
    apply in_flat_map in Hin as [p [Hp Hin]].
    apply drop_index_In in Hp.
    destruct (paths_between_shape graph node starting_nodes) with (paths := path_list) (p := p)
      as [q [-> Hq]]; try assumption.
    { now apply mem_In. }
    cbn in Hin. rewrite removelast_last in Hin. contradiction.
Qed.

End SelectBestPath.

(** *** Examples of path selection *)





Lemma entry_tip_removal_witness :
  let path_list := [["AC"; "CG"]; ["TC"; "CG"]] in
  let g' := {| nodes := ["AC"; "CG"; "GT"];
               edges := [("AC", "CG", 3); ("CG", "GT", 3)] |} in
  In "CG" (nodes entry_tip_graph)
  /\ paths_between entry_tip_graph (map (fun s => (s, "CG")) ["AC"; "TC"]) = Ok path_list
  /\ @select_best_path lcg_runtime entry_tip_graph path_list (lengths_of path_list)
       [3; 1]%Q true false world0 = Ok (g', world0)
  /\ exists i,
       @best_path_index lcg_runtime (lengths_of path_list) [3; 1]%Q world0
       = Ok (i, world0)
       /\ (forall losing n,
             In losing (drop_index i path_list) ->
             In n (removelast losing) -> ~ In n (nodes g'))
       /\ In "CG" (nodes g').
Proof.
  intros path_list g'.
  assert (H1 : In "CG" (nodes entry_tip_graph)) by (vm_compute; tauto).
  assert (H2 : paths_between entry_tip_graph (map (fun s => (s, "CG")) ["AC"; "TC"])
               = Ok path_list) by (vm_compute; reflexivity).
  assert (H3 : @select_best_path lcg_runtime entry_tip_graph path_list
                 (lengths_of path_list) [3; 1]%Q true false world0 = Ok (g', world0))
    by (vm_compute; reflexivity).
  split; [exact H1|]. split; [exact H2|]. split; [exact H3|].
  exact (@entry_tip_removal lcg_runtime entry_tip_graph ["AC"; "TC"] "CG" path_list
           [3; 1]%Q world0 g' world0 H1 H2 H3).
Defined.

(** *** Entry tips that share a node *)

(** C7. Entry-tip resolution on the reads ACG (three times), ATCG and GTC:
    the paths gathered for CG are AC, CG and the two tips AT, TC, CG and
    GT, TC, CG; the first is kept, for its weight. The node TC of the two
    losing paths is deleted with the first of them, and [remove_node]
    raises when the second is removed: no graph is returned, by
    [solve_entry_tips] or by the pipeline, whatever the generator and the
    depth allowed. *)
Theorem solve_entry_tips_shared_node {RT : Runtime} (depth : nat) (w : world) :
  get_starting_nodes two_tip_graph = ["AC"; "AT"; "GT"]
  /\ scan_entry two_tip_graph (get_starting_nodes two_tip_graph) (nodes two_tip_graph)
     = Ok (Some [["AC"; "CG"]; ["AT"; "TC"; "CG"]; ["GT"; "TC"; "CG"]])
  /\ average_weights two_tip_graph [["AC"; "CG"]; ["AT"; "TC"; "CG"]; ["GT"; "TC"; "CG"]]
     = Ok [3; 1; 1]%Q
  /\ best_path_index [2; 3; 3] [3; 1; 1]%Q w = Ok (O, w)
  /\ solve_entry_tips (S depth) two_tip_graph (get_starting_nodes two_tip_graph) w
     = Raise NetworkXError
  /\ assemble (S depth) two_tip_reads 3 w = Raise NetworkXError.
Proof.
  split; [vm_compute; reflexivity|]. split; [vm_compute; reflexivity|].
  split; [vm_compute; reflexivity|]. split; [reflexivity|].
  split.
  - cbn [solve_entry_tips]. reflexivity.
  - unfold assemble. cbn [simplify_bubbles]. reflexivity.
Qed.

(** *** Well-formed graphs *)

Lemma wf_empty : wf Nx.empty.
Proof. repeat split; try constructor; destruct H. Qed.

Lemma NoDup_add_node (g : DiGraph) (u : string) :
  NoDup (nodes g) -> NoDup (nodes (add_node g u)).
Proof.
  intros H. unfold add_node, has_node. destruct (mem u (nodes g)) eqn:Hu; [assumption|].
  cbn. apply mem_not_In in Hu. apply NoDup_app; [assumption|repeat constructor; intros []|].
  intros a Ha [<-|[]]. contradiction.
Qed.

Lemma In_key_set_edge (es : list edge) (u v : string) (w : Z) (k : string * string) :
  In k (map key (set_edge es u v w)) <-> k = (u, v) \/ In k (map key es).
Proof.
  induction es as [|e es IH]; cbn.
  - unfold key. cbn. intuition auto.
  - destruct (String.eqb (src e) u && String.eqb (dst e) v) eqn:E; cbn.
    + apply andb_true_iff in E as [Hu Hv]. apply String.eqb_eq in Hu, Hv.
      assert (key e = (u, v)).
      { destruct e as [[a b] c]. cbn in *. now subst. }
      unfold key at 1. cbn [fst]. rewrite H. intuition auto.
    + rewrite IH. intuition auto.
Qed.

Lemma NoDup_key_set_edge (es : list edge) (u v : string) (w : Z) :
  NoDup (map key es) -> NoDup (map key (set_edge es u v w)).
Proof.
  induction es as [|e es IH]; cbn; intros H.
  - repeat constructor. intros [].
  - apply NoDup_cons_iff in H as [He H].
    destruct (String.eqb (src e) u && String.eqb (dst e) v) eqn:E; cbn.
    + apply andb_true_iff in E as [Hu Hv]. apply String.eqb_eq in Hu, Hv.
      assert (Hk : key e = (u, v)).
      { destruct e as [[a b] c]. cbn in *. now subst. }
      constructor; [|assumption]. unfold key at 1. cbn [fst]. now rewrite <- Hk.
    + constructor; [|now apply IH].
      rewrite In_key_set_edge. intros [Hk|Hk]; [|contradiction].
      destruct e as [[a b] c]. unfold key in Hk. cbn in Hk, E.
      injection Hk as -> ->. rewrite !String.eqb_refl in E. discriminate.
Qed.

Lemma wf_add_edge (g : DiGraph) (u v : string) (w : Z) :
  wf g -> wf (add_edge g u v w).
Proof.
  intros [Hn [Hk He]]. split; [|split].
  - cbn. now apply NoDup_add_node, NoDup_add_node.
  - cbn. rewrite !edges_add_node. now apply NoDup_key_set_edge.
  - intros e Hin. cbn in Hin. rewrite !edges_add_node in Hin. cbn [add_edge nodes].
    rewrite !In_nodes_add_node.
    apply In_set_edge in Hin as [->|Hin]; cbn.
    + auto.
    + destruct (He e Hin). auto.
Qed.

Lemma wf_build_graph (kmer_dict : dict) : wf (build_graph kmer_dict).
Proof.
  unfold build_graph. generalize wf_empty. generalize Nx.empty.
  induction kmer_dict as [|[kmer c] d IH]; intros g Hg; [exact Hg|].
  cbn [fold_left]. apply IH. unfold add_kmer. now apply wf_add_edge.
Qed.

Lemma filter_keeps_NoDup_map (X Y : Type) (keep : X -> bool) (g : X -> Y) (xs : list X)
      (Hnd : NoDup (map g xs)) :
  NoDup (map g (filter keep xs)).
Proof.
  induction xs as [|x xs IH]; cbn in *; [constructor|].
  apply NoDup_cons_iff in Hnd as [Hx Hnd]. destruct (keep x); cbn; [|auto].
  constructor; [|auto]. intros Hin. apply Hx.
  apply in_map_iff in Hin as [y [Hy Hin]]. apply filter_In in Hin as [Hin _].
  apply in_map_iff. eauto.
Qed.

Lemma wf_delete_node (g : DiGraph) (n : string) : wf g -> wf (delete_node g n).
Proof.
  intros [Hn [Hk He]]. split; [|split]; cbn.
  - now apply NoDup_filter.
  - now apply filter_keeps_NoDup_map.
  - intros e Hin. apply filter_In in Hin as [Hin Hends].
    apply andb_true_iff in Hends as [Hs Hd].
    apply negb_true_iff, String.eqb_neq in Hs, Hd.
    destruct (He e Hin). rewrite !filter_In, !negb_true_iff, !String.eqb_neq. auto.
Qed.

(** *** The average weight of a path *)

Lemma flat_map_nil_fun {A B : Type} (l : list A) :
  flat_map (fun _ : A => @nil B) l = [].
Proof. induction l; cbn; auto. Qed.

Lemma flat_map_app_perm {A B : Type} (f h : A -> list B) (l : list A) :
  Permutation (flat_map (fun x => f x ++ h x) l) (flat_map f l ++ flat_map h l).
Proof.
  induction l as [|x l IH]; cbn; [constructor|].
  rewrite IH. rewrite <- !app_assoc. apply Permutation_app_head.
  rewrite !app_assoc. apply Permutation_app_tail. apply Permutation_app_comm.
Qed.

Lemma flat_map_single (e : edge) (b : bool) (us : list string) :
  NoDup us ->
  flat_map (fun u => if String.eqb (src e) u && b then [e] else []) us
  = if mem (src e) us && b then [e] else [].
Proof.
  induction us as [|u us IH]; intros Hnd; [reflexivity|].
  apply NoDup_cons_iff in Hnd as [Hu Hnd]. cbn [flat_map mem existsb].
  fold (mem (src e) us). rewrite (IH Hnd).
  destruct (String.eqb (src e) u) eqn:E; cbn [andb orb].
  - apply String.eqb_eq in E. subst u. apply mem_not_In in Hu. rewrite Hu.
    cbn. now rewrite app_nil_r.
  - reflexivity.
Qed.

Lemma group_by_source_perm (q : edge -> bool) (us : list string) (es : list edge) :
  NoDup us ->
  Permutation
    (flat_map (fun u => filter (fun e => String.eqb (src e) u && q e) es) us)
    (filter (fun e => mem (src e) us && q e) es).
Proof.
  intros Hnd. induction es as [|e es IH].
  - cbn. now rewrite flat_map_nil_fun.
  - cbn [filter].
    transitivity
      (flat_map (fun u => (if String.eqb (src e) u && q e then [e] else [])
                          ++ filter (fun e0 => String.eqb (src e0) u && q e0) es) us).
    + apply Permutation_refl'. apply flat_map_ext. intros u.
      now destruct (String.eqb (src e) u && q e).
    + rewrite flat_map_app_perm, (flat_map_single e (q e) us Hnd), IH.
      now destruct (mem (src e) us && q e).
Qed.

Lemma mem_filter_mem (x : string) (ns l : list string) :
  mem x (filter (fun u => mem u ns) l) = mem x l && mem x ns.
Proof.
  destruct (mem x l && mem x ns) eqn:E.
  - apply andb_true_iff in E as [Hl Hn]. apply mem_In, filter_In.
    split; [now apply mem_In|assumption].
  - apply mem_not_In. intros H. apply filter_In in H as [Hl Hn].
    apply mem_In in Hl. rewrite Hl, Hn in E. discriminate.
Qed.

(** [G.subgraph(ns).edges] lists the edges between nodes of [ns], each
    once. *)
Lemma subgraph_edges_perm (g : DiGraph) (ns : list string) :
  wf g -> Permutation (subgraph_edges g ns) (induced_edges g ns).
Proof.
  intros [Hn [Hk He]]. unfold subgraph_edges, induced_edges.
  rewrite group_by_source_perm by now apply NoDup_filter.
  apply Permutation_refl'. apply filter_ext_in. intros e Hin.
  rewrite mem_filter_mem. destruct (He e Hin) as [Hs _].
  apply mem_In in Hs. now rewrite Hs.
Qed.

Lemma qsum_inject_Z (ws : list Z) :
  (Stat.qsum (map inject_Z ws) == inject_Z (sum ws))%Q.
Proof.
  induction ws as [|x ws IH]; [reflexivity|].
  cbn [map sum fold_right Stat.qsum]. fold (sum ws). fold (Stat.qsum (map inject_Z ws)).
  rewrite IH, inject_Z_plus. reflexivity.
Qed.

(** [statistics.mean] of integers. *)
Lemma mean_inject_Z (ws : list Z) :
  ws <> [] ->
  exists m, Stat.mean (map inject_Z ws) = Ok m
            /\ (m == inject_Z (sum ws) / inject_Z (Z.of_nat (List.length ws)))%Q.
Proof.
  intros Hne. destruct ws as [|x ws]; [congruence|].
  eexists. split; [reflexivity|].
  rewrite qsum_inject_Z, length_map. reflexivity.
Qed.

Lemma sum_perm (l l' : list Z) : Permutation l l' -> sum l = sum l'.
Proof.
  induction 1; unfold sum in *; cbn in *; lia.
Qed.

Lemma edge_weight_key (g : DiGraph) (e : edge) :
  NoDup (map key (edges g)) -> In e (edges g) -> edge_weight g (key e) = weight e.
Proof.
  unfold edge_weight. induction (edges g) as [|e0 es IH]; intros Hnd Hin; [destruct Hin|].
  cbn in Hnd. apply NoDup_cons_iff in Hnd as [He0 Hnd]. cbn [find].
  destruct (String.eqb (src e0) (fst (key e)) && String.eqb (dst e0) (snd (key e))) eqn:E.
  - destruct Hin as [->|Hin]; [reflexivity|].
    exfalso. apply He0. apply andb_true_iff in E as [Hs Hd].
    apply String.eqb_eq in Hs, Hd.
    assert (key e0 = key e).
    { destruct e0 as [[a b] c], e as [[a' b'] c']. unfold key in *. cbn in *. now subst. }
    rewrite H. now apply in_map.
  - destruct Hin as [->|Hin]; [|now apply IH].
    unfold key, src, dst in E. rewrite !String.eqb_refl in E. discriminate.
Qed.

Lemma steps_In (path : list string) (u v : string) :
  In (u, v) (steps path) -> In u path /\ In v path.
Proof.
  unfold steps. intros H. split.
  - eapply in_combine_l; eassumption.
  - apply in_combine_r in H. destruct path; [destruct H|]. now right.
Qed.

Lemma NoDup_combine {A B : Type} (l : list A) :
  NoDup l -> forall l' : list B, NoDup (combine l l').
Proof.
  induction 1 as [|x l Hx Hnd IH]; intros l'; [constructor|].
  destruct l' as [|y l']; [constructor|]. cbn [combine]. constructor; [|apply IH].
  intros Hin. apply in_combine_l in Hin. contradiction.
Qed.

Lemma NoDup_steps (path : list string) : NoDup path -> NoDup (steps path).
Proof. intros Hnd. now apply NoDup_combine. Qed.

Lemma length_steps (path : list string) :
  Z.of_nat (List.length (steps path)) = Z.max 0 (Z.of_nat (List.length path) - 1).
Proof.
  unfold steps. rewrite length_combine. destruct path as [|x path]; cbn [tl List.length]; lia.
Qed.

(** On a simple path without chords the induced edges are the steps. *)
Lemma induced_edges_steps (g : DiGraph) (path : list string) :
  wf g -> simple_path g path -> chord_free g path ->
  Permutation (map key (induced_edges g path)) (steps path).
Proof.
  intros [Hn [Hk He]] [Hnd Hpath] Hchord.
  apply NoDup_Permutation.
  - now apply filter_keeps_NoDup_map.
  - now apply NoDup_steps.
  - intros k. split.
    + intros Hin. apply in_map_iff in Hin as [e [<- Hin]].
      apply filter_In in Hin as [Hin Hends].
      apply andb_true_iff in Hends as [Hs Hd].
      apply Hchord; [assumption|now apply mem_In|now apply mem_In].
    + intros Hin. pose proof (Hpath k Hin) as Hedge.
      apply in_map_iff in Hedge as [e [<- Hedge]].
      apply in_map, filter_In. split; [assumption|].
      destruct e as [[u v] c]. apply (steps_In path u v) in Hin as [Hu Hv].
      apply andb_true_iff. split; now apply mem_In.
Qed.

Lemma sum_induced_steps (g : DiGraph) (path : list string) :
  wf g -> simple_path g path -> chord_free g path ->
  sum (map weight (induced_edges g path)) = sum (map (edge_weight g) (steps path))
  /\ List.length (induced_edges g path) = List.length (steps path).
Proof.
  intros Hwf Hsimple Hchord.
  pose proof (induced_edges_steps g path Hwf Hsimple Hchord) as Hperm.
  split.
  - rewrite <- (sum_perm _ _ (Permutation_map (edge_weight g) Hperm)).
    rewrite map_map. f_equal. apply map_ext_in. intros e Hin.
    apply filter_In in Hin as [Hin _]. symmetry.
    apply edge_weight_key; [apply Hwf|assumption].
  - rewrite <- (Permutation_length Hperm). now rewrite length_map.
Qed.

Lemma filter_none {A : Type} (p : A -> bool) (l : list A) :
  (forall x, In x l -> p x = false) -> filter p l = [].
Proof.
  induction l as [|x l IH]; intros H; [reflexivity|].
  cbn. rewrite (H x) by now left. apply IH. intros y Hy. apply H. now right.
Qed.

(** [statistics.mean] on integers depends on their sum and their number
    only. *)
Lemma mean_of_ints_same (l l' : list Z) :
  sum l = sum l' -> List.length l = List.length l' ->
  Stat.mean_of_ints l = Stat.mean_of_ints l'.
Proof.
  intros Hsum Hlen. destruct l as [|x l], l' as [|x' l']; try discriminate;
    [reflexivity|].
  unfold Stat.mean_of_ints. now rewrite Hsum, Hlen.
Qed.

(** It is exact when the mean is an integer. *)
Lemma mean_of_ints_exact (l : list Z) (z : Z) :
  l <> [] -> sum l = z * Z.of_nat (List.length l) ->
  Stat.mean_of_ints l = Ok (inject_Z z).
Proof.
  intros Hne Hsum. destruct l as [|x l]; [contradiction|].
  unfold Stat.mean_of_ints. rewrite Hsum.
  assert (Hn : Z.of_nat (List.length (x :: l)) <> 0) by (cbn [List.length]; lia).
  rewrite Z.mod_mul by assumption. cbn [Z.eqb]. now rewrite Z.div_mul by assumption.
Qed.

(** The rounding of [statistics.mean] *)

Lemma round_half_even_close (a b : Z) :
  0 < b -> 2 * Z.abs (Stat.round_half_even a b * b - a) <= b.
Proof.
  intros Hb. unfold Stat.round_half_even.
  pose proof (Z.div_mod a b ltac:(lia)) as Hdiv.
  pose proof (Z.mod_pos_bound a b Hb) as Hmod.
  destruct (Z.compare_spec (2 * (a mod b)) b) as [E|E|E];
    [destruct (Z.even (a / b))| |]; nia.
Qed.

Lemma last_place_spec (n d : Z) :
  0 < d -> d <= n ->
  exists E, Stat.last_place n d = E - 52 /\ 0 <= E /\ d * 2 ^ E <= n < d * 2 ^ (E + 1).
Proof.
  intros Hd Hn. unfold Stat.last_place.
  pose proof (Z.log2_spec n ltac:(lia)) as [Hn1 Hn2].
  pose proof (Z.log2_spec d Hd) as [Hd1 Hd2].
  pose proof (Z.log2_nonneg d) as Hd0.
  assert (Ht : 0 <= Z.log2 n - Z.log2 d) by (pose proof (Z.log2_le_mono d n ltac:(lia)); lia).
  set (t := Z.log2 n - Z.log2 d) in *.
  assert (Hln : Z.log2 n = Z.log2 d + t) by (unfold t; lia).
  rewrite Hln in Hn1, Hn2.
  replace (Z.succ (Z.log2 d + t)) with (Z.log2 d + (t + 1)) in Hn2 by lia.
  rewrite Z.pow_add_r in Hn1, Hn2 by lia.
  replace (Z.succ (Z.log2 d)) with (Z.log2 d + 1) in Hd2 by lia.
  rewrite Z.pow_add_r in Hd2 by lia. change (2 ^ 1) with 2 in Hd2.
  assert (Hp : 0 < 2 ^ t) by (apply Z.pow_pos_nonneg; lia).
  assert (Hp1 : 2 ^ (t + 1) = 2 * 2 ^ t).
  { rewrite Z.pow_add_r by lia. change (2 ^ 1) with 2. lia. }
  unfold Stat.scale. destruct (0 <=? t) eqn:E0; [|lia].
  destruct (d * 2 ^ t <=? n) eqn:E1.
  - apply Z.leb_le in E1. exists t. split; [lia|]. split; [lia|]. split; [lia|].
    rewrite Hp1. nia.
  - apply Z.leb_gt in E1.
    assert (Hpos : 0 < t).
    { destruct (Z.eq_dec t 0) as [->|]; [|lia]. change (2 ^ 0) with 1 in E1. lia. }
    exists (t - 1). split; [lia|]. split; [lia|].
    replace (t - 1 + 1) with t by lia. split; [|lia].
    assert (Hp2 : 2 ^ t = 2 * 2 ^ (t - 1)).
    { replace t with (t - 1 + 1) at 1 by lia. rewrite Z.pow_add_r by lia.
      change (2 ^ 1) with 2. lia. }
    assert (0 < 2 ^ (t - 1)) by (apply Z.pow_pos_nonneg; lia).
    nia.
Qed.

(** The float nearest to a number of a number that is at least 1 is within the
    relative error [2^-53]. *)
Lemma to_float_close (q r : Q) :
  (1 <= q)%Q -> Stat.to_float q = Ok r ->
  ((r - q) * inject_Z (2 ^ 53) <= q)%Q /\ ((q - r) * inject_Z (2 ^ 53) <= q)%Q.
Proof.
  destruct q as [n d]. unfold Qle. cbn [Qnum Qden]. intros Hq.
  assert (Hn : Zpos d <= n) by lia.
  unfold Stat.to_float. cbn [Qnum Qden].
  rewrite Z.abs_eq by lia. rewrite Z.sgn_pos by lia.
  destruct (n =? 0) eqn:E0; [lia|].
  destruct (last_place_spec n (Zpos d) ltac:(lia) Hn) as [E [He [HE [Hlo Hhi]]]].
  rewrite He. set (e := E - 52).
  unfold Stat.scale. destruct (0 <=? e) eqn:Ee.
  - apply Z.leb_le in Ee.
    assert (HEe : 2 ^ E = 2 ^ e * 2 ^ 52).
    { replace E with (e + 52) by (unfold e; lia). now rewrite Z.pow_add_r by lia. }
    pose proof (round_half_even_close n (Zpos d * 2 ^ e)) as Hclose.
    assert (Hpe : 0 < 2 ^ e) by (apply Z.pow_pos_nonneg; lia).
    specialize (Hclose ltac:(nia)).
    set (m := Stat.round_half_even n (Zpos d * 2 ^ e)) in *.
    rewrite Z.mul_1_l.
    destruct (2 ^ 1024 <=? Z.abs m * 2 ^ e); [discriminate|].
    intros H. injection H as <-.
    unfold Qle, Qminus, Qplus, Qmult, Qopp, inject_Z. cbn [Qnum Qden].
    rewrite !Pos.mul_1_r, !Pos.mul_1_l, !Z.mul_1_r.
    change (2 ^ 53) with (2 * 2 ^ 52). rewrite HEe in Hlo. 
    split; nia.
  - apply Z.leb_gt in Ee.
    assert (HEe : 2 ^ E * 2 ^ (- e) = 2 ^ 52).
    { rewrite <- Z.pow_add_r by lia. f_equal. unfold e. lia. }
    assert (Hpe : 0 < 2 ^ (- e)) by (apply Z.pow_pos_nonneg; lia).
    pose proof (round_half_even_close (n * 2 ^ (- e)) (Zpos d) ltac:(lia)) as Hclose.
    set (m := Stat.round_half_even (n * 2 ^ (- e)) (Zpos d)) in *.
    rewrite Z.mul_1_l.
    intros H. injection H as <-.
    unfold Qle, Qminus, Qplus, Qmult, Qopp, inject_Z. cbn [Qnum Qden].
    rewrite ?Pos.mul_1_r, ?Z.mul_1_r.
    rewrite ?Pos2Z.inj_mul. rewrite ?Z2Pos.id by lia.
    change (2 ^ 53) with (2 * 2 ^ 52).
    set (P := 2 ^ (- e)) in *. set (D := Zpos d) in *. set (PE := 2 ^ E) in *.
    set (c := 2 ^ 52) in *.
    assert (Hc : 0 < c) by reflexivity.
    clearbody P D PE c m.
    assert (HloP : D * c <= n * P) by nia.
    split.
    + nia.
    + nia.
Qed.

(** The conversion of a number between 1 and [2^1023] does not overflow. *)
Lemma to_float_returns (q : Q) :
  (1 <= q)%Q -> (q <= inject_Z (2 ^ 1023))%Q -> exists r, Stat.to_float q = Ok r.
Proof.
  destruct q as [n d]. unfold Qle. cbn [Qnum Qden inject_Z]. intros Hq Hmax.
  rewrite Z.mul_1_r in Hmax.
  assert (Hn : Zpos d <= n) by lia.
  unfold Stat.to_float. cbn [Qnum Qden].
  rewrite Z.abs_eq by lia. rewrite Z.sgn_pos by lia.
  destruct (n =? 0) eqn:E0; [lia|].
  destruct (last_place_spec n (Zpos d) ltac:(lia) Hn) as [E [He [HE [Hlo Hhi]]]].
  rewrite He. set (e := E - 52).
  unfold Stat.scale. destruct (0 <=? e) eqn:Ee; [|eexists; reflexivity].
  apply Z.leb_le in Ee.
  assert (HEe : 2 ^ E = 2 ^ e * 2 ^ 52).
  { replace E with (e + 52) by (unfold e; lia). now rewrite Z.pow_add_r by lia. }
  assert (Hpe : 0 < 2 ^ e) by (apply Z.pow_pos_nonneg; lia).
  pose proof (round_half_even_close n (Zpos d * 2 ^ e) ltac:(nia)) as Hclose.
  set (m := Stat.round_half_even n (Zpos d * 2 ^ e)) in *.
  rewrite Z.mul_1_l.
  assert (HE1 : E <= 1023).
  { destruct (Z.le_gt_cases E 1023) as [|Hgt]; [assumption|exfalso].
    assert (2 ^ 1024 <= 2 ^ E) by (apply Z.pow_le_mono_r; lia).
    assert (2 ^ 1024 = 2 * 2 ^ 1023) by reflexivity. nia. }
  assert (Hm : 0 <= m /\ m * 2 ^ e <= 2 * 2 ^ E).
  { assert (HE2 : 2 ^ (E + 1) = 2 * 2 ^ E).
    { rewrite Z.pow_add_r by lia. change (2 ^ 1) with 2. lia. }
    rewrite HE2 in Hhi. rewrite HEe in *. set (c := 2 ^ 52) in *.
    assert (Hc : 0 < c) by reflexivity. clearbody c.
    set (P := 2 ^ e) in *. clearbody P.
    assert (HB : 0 < Zpos d * P) by nia.
    replace (Zpos d * (P * c)) with (Zpos d * P * c) in Hlo by ring.
    replace (Zpos d * (2 * (P * c))) with (2 * (Zpos d * P * c)) in Hhi by ring.
    set (B := Zpos d * P) in *. clearbody B.
    assert (Hm0 : 0 <= m) by nia.
    assert (Hm1 : m <= 2 * c) by nia.
    split; [exact Hm0|]. nia. }
  destruct (2 ^ 1024 <=? Z.abs m * 2 ^ e) eqn:Eo; [|eexists; reflexivity].
  exfalso. apply Z.leb_le in Eo. rewrite Z.abs_eq in Eo by lia.
  destruct (Z.eq_dec E 1023) as [->|Hne].
  - (* the number is [2^1023] itself *)
    assert (Hnd : n = Zpos d * 2 ^ 1023) by lia.
    assert (He52 : e = 971) by (unfold e; lia).
    rewrite He52 in *.
    assert (Hm2 : m = 2 ^ 52).
    { assert (H971 : 2 ^ 1023 = 2 ^ 52 * 2 ^ 971) by reflexivity.
      rewrite Hnd, H971 in Hclose.
      set (c := 2 ^ 52) in *. set (p := 2 ^ 971) in *.
      assert (0 < c) by reflexivity. clearbody c p. nia. }
    rewrite Hm2 in Eo. revert Eo. apply Z.lt_nge. reflexivity.
  - assert (2 * 2 ^ E <= 2 ^ 1023).
    { replace (2 * 2 ^ E) with (2 ^ (E + 1)).
      - apply Z.pow_le_mono_r; lia.
      - rewrite Z.pow_add_r by lia. change (2 ^ 1) with 2. lia. }
    assert (2 ^ 1023 < 2 ^ 1024) by reflexivity. lia.
Qed.

Lemma sum_at_least (l : list Z) :
  (forall x, In x l -> 1 <= x) -> Z.of_nat (List.length l) <= sum l.
Proof.
  induction l as [|x l IH]; intros H; [reflexivity|].
  change (sum (x :: l)) with (x + sum l). cbn [List.length].
  pose proof (H x (or_introl eq_refl)). pose proof (IH (fun y Hy => H y (or_intror Hy))).
  lia.
Qed.

(** [statistics.mean] on integers that are at least 1: it returns, unless
    the sum is beyond [2^1023], and what it returns is within the relative
    error [2^-53] of the arithmetic mean. *)
Lemma mean_of_ints_close (l : list Z) :
  l <> [] -> (forall x, In x l -> 1 <= x) ->
  let q := (inject_Z (sum l) / inject_Z (Z.of_nat (List.length l)))%Q in
  (sum l <= 2 ^ 1023 -> exists r, Stat.mean_of_ints l = Ok r)
  /\ forall r, Stat.mean_of_ints l = Ok r ->
               ((r - q) * inject_Z (2 ^ 53) <= q)%Q
               /\ ((q - r) * inject_Z (2 ^ 53) <= q)%Q.
Proof.
  intros Hne Hpos q. pose proof (sum_at_least l Hpos) as Hsum.
  destruct l as [|x l]; [contradiction|].
  set (n := Z.of_nat (List.length (x :: l))) in *.
  assert (Hn : 0 < n) by (unfold n; cbn [List.length]; lia).
  assert (Hq : (Qmake (sum (x :: l)) (Z.to_pos n) == q)%Q).
  { unfold q. rewrite (Qmake_Qdiv (sum (x :: l)) (Z.to_pos n)).
    rewrite Z2Pos.id by assumption. reflexivity. }
  assert (H1 : (1 <= Qmake (sum (x :: l)) (Z.to_pos n))%Q).
  { unfold Qle. cbn [Qnum Qden]. rewrite Z2Pos.id by assumption. lia. }
  unfold Stat.mean_of_ints. fold n.
  destruct (sum (x :: l) mod n =? 0) eqn:Emod.
  - split; [intros _; eexists; reflexivity|].
    intros r H. injection H as <-. apply Z.eqb_eq in Emod.
    assert (Hr : (inject_Z (sum (x :: l) / n) == q)%Q).
    { rewrite <- Hq. unfold Qeq. cbn [Qnum Qden inject_Z].
      rewrite Z2Pos.id by assumption.
      pose proof (Z.div_mod (sum (x :: l)) n ltac:(lia)). lia. }
    rewrite Hr. setoid_replace (q - q)%Q with 0%Q by ring.
    rewrite Qmult_0_l. rewrite <- Hq.
    split; (apply Qle_trans with 1%Q; [discriminate|exact H1]).
  - split.
    + intros Hmax. apply to_float_returns; [exact H1|].
      unfold Qle. cbn [Qnum Qden inject_Z]. rewrite Z.mul_1_r.
      assert (0 < 2 ^ 1023) by reflexivity. nia.
    + intros r H. apply to_float_close in H; [|exact H1].
      rewrite <- Hq. exact H.
Qed.

(** What [path_average_weight] averages: the edges of the graph between
    nodes of the path, each once. *)
Lemma path_average_weight_induced (graph : DiGraph) (path : list string) :
  wf graph ->
  path_average_weight graph path
  = Stat.mean_of_ints (map weight (induced_edges graph path)).
Proof.
  intros Hwf. pose proof (subgraph_edges_perm graph path Hwf) as Hperm.
  unfold path_average_weight. apply mean_of_ints_same.
  - apply sum_perm. now apply Permutation_map.
  - rewrite !length_map. now apply Permutation_length.
Qed.

(** C2 (amended). For every graph and every path without a repeated node
    whose consecutive steps are edges of the graph and whose nodes are
    joined by no other edge of the graph: [path_average_weight] returns
    what [statistics.mean] gives for the weights of the edges on the
    consecutive steps. For a path of at least 2 nodes this is their
    arithmetic mean when the mean is an integer; when the weights are at
    least 1, as the counts of k-mers are, and their sum is not beyond
    [2^1023], a value is returned and it is within the relative error
    [2^-53] of the arithmetic mean, the rounding of a float. For a path
    with fewer than 2 nodes an error is signalled. *)
Theorem path_average_weight_steps (graph : DiGraph) (path : list string) :
  wf graph -> simple_path graph path -> chord_free graph path ->
  let weights := map (edge_weight graph) (steps path) in
  let mean := (inject_Z (sum weights) / inject_Z (Z.of_nat (List.length path) - 1))%Q in
  path_average_weight graph path = Stat.mean_of_ints weights
  /\ ((2 <= List.length path)%nat ->
      forall z, sum weights = z * (Z.of_nat (List.length path) - 1) ->
                path_average_weight graph path = Ok (inject_Z z))
  /\ ((2 <= List.length path)%nat ->
      (forall x, In x weights -> 1 <= x) ->
      (sum weights <= 2 ^ 1023 -> exists r, path_average_weight graph path = Ok r)
      /\ forall r, path_average_weight graph path = Ok r ->
                   ((r - mean) * inject_Z (2 ^ 53) <= mean)%Q
                   /\ ((mean - r) * inject_Z (2 ^ 53) <= mean)%Q)
  /\ ((List.length path < 2)%nat ->
      path_average_weight graph path = Raise StatisticsError).
Proof.
  intros Hwf Hsimple Hchord weights mean.
  destruct (sum_induced_steps graph path Hwf Hsimple Hchord) as [Hsum Hcount].
  assert (Hsteps : path_average_weight graph path = Stat.mean_of_ints weights).
  { rewrite path_average_weight_induced by assumption. apply mean_of_ints_same.
    - exact Hsum.
    - unfold weights. now rewrite !length_map. }
  pose proof (length_steps path) as Hlen.
  assert (Hweights : List.length weights = (List.length path - 1)%nat)
    by (unfold weights; rewrite length_map; lia).
  assert (Hne : (2 <= List.length path)%nat -> weights <> []).
  { intros Hn E. rewrite E in Hweights. cbn in Hweights. lia. }
  split; [exact Hsteps|]. split; [|split].
  - intros Hn z Hz. rewrite Hsteps. apply mean_of_ints_exact.
    + exact (Hne Hn).
    + rewrite Hweights, Hz. f_equal. lia.
  - intros Hn Hpos. rewrite Hsteps.
    pose proof (mean_of_ints_close weights (Hne Hn) Hpos) as Hclose.
    cbv zeta in Hclose. rewrite Hweights in Hclose.
    replace (Z.of_nat (List.length path - 1)) with (Z.of_nat (List.length path) - 1)
      in Hclose by lia.
    exact Hclose.
  - intros Hn. rewrite Hsteps. unfold weights.
    destruct (steps path) as [|s l]; [reflexivity|]. cbn [List.length] in Hlen. lia.
Qed.

Lemma path_average_weight_steps_witness :
  let path := ["TA"; "AC"; "CG"; "GT"] in
  wf three_branch_graph
  /\ simple_path three_branch_graph path
  /\ chord_free three_branch_graph path
  /\ (2 <= List.length path)%nat
  /\ sum (map (edge_weight three_branch_graph) (steps path))
     = 5 * (Z.of_nat (List.length path) - 1)
  /\ path_average_weight three_branch_graph path = Ok (inject_Z 5).
Proof.
  intros path.
  assert (H1 : wf three_branch_graph) by apply wf_build_graph.
  assert (H2 : (2 <= List.length path)%nat) by (cbn; lia).
  assert (H3 : simple_path three_branch_graph path).
  { split.
    - repeat constructor; cbn; intuition discriminate.
    - intros s Hs. vm_compute in Hs. vm_compute.
      intuition (subst; auto). }
  assert (H4 : chord_free three_branch_graph path).
  { intros e Hin Hs Hd. vm_compute in Hin.
    repeat (destruct Hin as [<-|Hin]; [vm_compute in Hs, Hd |- *; intuition discriminate|]).
    destruct Hin. }
  assert (H5 : sum (map (edge_weight three_branch_graph) (steps path))
               = 5 * (Z.of_nat (List.length path) - 1)) by reflexivity.
  split; [exact H1|]. split; [exact H3|]. split; [exact H4|]. split; [exact H2|].
  split; [exact H5|].
  exact (proj1 (proj2 (path_average_weight_steps three_branch_graph path H1 H3 H4))
               H2 5 H5).
Defined.

(** The claim C2 as it was stated fails on the value: the weights 1, 1
    and 2 of the path AC, CG, GT, TA have the mean 4/3, and what comes
    back is the float nearest to it, 6004799503160661 / 2^52, which is
    written 1.3333333333333333. *)
Lemma path_average_weight_rounded :
  let path := ["AC"; "CG"; "GT"; "TA"] in
  (2 <= List.length path)%nat
  /\ simple_path thirds_graph path
  /\ chord_free thirds_graph path
  /\ map (edge_weight thirds_graph) (steps path) = [1; 1; 2]
  /\ path_average_weight thirds_graph path
     = Ok (6004799503160661 # 4503599627370496)
  /\ ~ (6004799503160661 # 4503599627370496 == inject_Z (1 + 1 + 2) / inject_Z 3)%Q.
Proof.
  intros path. split; [cbn; lia|]. split; [|split; [|split; [|split]]].
  - split.
    + repeat constructor; cbn; intuition discriminate.
    + intros s Hs. vm_compute in Hs. vm_compute. intuition (subst; auto).
  - intros e Hin Hs Hd. vm_compute in Hin.
    repeat (destruct Hin as [<-|Hin]; [vm_compute in Hs, Hd |- *; intuition discriminate|]).
    destruct Hin.
  - reflexivity.
  - vm_compute. reflexivity.
  - intros H. vm_compute in H. discriminate.
Qed.

(** The edges that are averaged are those between nodes of the path, on
    its steps or not: on the path TA, AA, AC the chord from TA to AC counts,
    and a path of the one node AA gets the weight of the loop on AA. *)
Lemma path_average_weight_chord :
  let path := ["TA"; "AA"; "AC"] in
  let step_weights := [1; 1] in
  (2 <= List.length path)%nat
  /\ simple_path chord_graph path
  /\ map (edge_weight chord_graph) (steps path) = step_weights
  /\ (exists m, path_average_weight chord_graph path = Ok m
                /\ (m == 2)%Q
                /\ ~ (m == inject_Z (sum step_weights) / inject_Z 2)%Q)
  /\ (List.length ["AA"] < 2)%nat
  /\ (exists m, path_average_weight loop_graph ["AA"] = Ok m /\ (m == 2)%Q).
Proof.
  intros path step_weights. split; [cbn; lia|]. split; [|split; [|split; [|split]]].
  - split.
    + repeat constructor; cbn; intuition discriminate.
    + intros s Hs. vm_compute in Hs. vm_compute. intuition (subst; auto).
  - reflexivity.
  - eexists. split; [reflexivity|]. split; [reflexivity|].
    intros H. vm_compute in H. discriminate.
  - cbn. lia.
  - eexists. split; [reflexivity|]. reflexivity.
Qed.

(** *** Reachability *)

Lemma add_new_In (xs seen : list string) (y : string) :
  In y (add_new seen xs) <-> In y seen \/ In y xs.
Proof.
  unfold add_new. revert seen. induction xs as [|x xs IH]; intros seen; cbn [fold_left].
  - cbn. tauto.
  - rewrite IH. destruct (mem x seen) eqn:E.
    + apply mem_In in E. cbn. intuition (subst; auto).
    + rewrite in_app_iff. cbn. intuition auto.
Qed.

Lemma add_new_NoDup (xs seen : list string) :
  NoDup seen -> NoDup (add_new seen xs).
Proof.
  unfold add_new. revert seen. induction xs as [|x xs IH]; intros seen Hnd; cbn [fold_left].
  - assumption.
  - apply IH. destruct (mem x seen) eqn:E; [assumption|].
    apply mem_not_In in E. apply NoDup_app; [assumption|repeat constructor; intros []|].
    intros a Ha [<-|[]]. contradiction.
Qed.

Lemma add_new_extends (xs seen : list string) :
  exists extra, add_new seen xs = seen ++ extra.
Proof.
  unfold add_new. revert seen. induction xs as [|x xs IH]; intros seen; cbn [fold_left].
  - exists []. now rewrite app_nil_r.
  - destruct (mem x seen).
    + apply IH.
    + destruct (IH (seen ++ [x])) as [extra H]. exists (x :: extra).
      rewrite H, <- app_assoc. reflexivity.
Qed.

Lemma add_new_same_length (xs seen : list string) :
  List.length (add_new seen xs) = List.length seen -> add_new seen xs = seen.
Proof.
  destruct (add_new_extends xs seen) as [extra H]. rewrite H, length_app.
  intros Hlen. destruct extra; [now rewrite app_nil_r|]. cbn in Hlen. lia.
Qed.

Lemma add_new_length (xs seen : list string) :
  (List.length seen <= List.length (add_new seen xs))%nat.
Proof.
  destruct (add_new_extends xs seen) as [extra H]. rewrite H, length_app. lia.
Qed.

Lemma reach_sound (step : string -> list string) (fuel : nat) :
  forall seen x, In x (reach step fuel seen) ->
                 exists y, In y seen /\ chain step y x.
Proof.
  induction fuel as [|fuel IH]; intros seen x Hin; cbn [reach] in Hin.
  - exists x. split; [assumption|constructor].
  - destruct (Nat.eqb _ _).
    + exists x. split; [assumption|constructor].
    + apply IH in Hin as [y [Hy Hchain]].
      apply add_new_In in Hy as [Hy|Hy]; [eauto|].
      apply in_flat_map in Hy as [z [Hz Hy]].
      exists z. split; [assumption|].
      clear - Hchain Hy. induction Hchain.
      * eapply chain_step; [constructor|eassumption].
      * eapply chain_step; eauto.
Qed.

Lemma reach_closed (step : string -> list string) (universe : list string) (fuel : nat) :
  (forall y z, In y universe -> In z (step y) -> In z universe) ->
  forall seen,
    NoDup seen -> incl seen universe ->
    (List.length universe < List.length seen + fuel)%nat ->
    let r := reach step fuel seen in
    incl seen r /\ (forall y z, In y r -> In z (step y) -> In z r).
Proof.
  intros Hclosed. induction fuel as [|fuel IH]; intros seen Hnd Hincl Hfuel r.
  - pose proof (NoDup_incl_length Hnd Hincl). lia.
  - subst r. cbn [reach].
    destruct (Nat.eqb _ _) eqn:E.
    + apply Nat.eqb_eq, add_new_same_length in E. split; [apply incl_refl|].
      intros y z Hy Hz. rewrite <- E. apply add_new_In. right.
      apply in_flat_map. eauto.
    + apply Nat.eqb_neq in E.
      pose proof (add_new_length (flat_map step seen) seen) as Hle.
      destruct (IH (add_new seen (flat_map step seen))) as [Hsub Hcl].
      * now apply add_new_NoDup.
      * intros y Hy. apply add_new_In in Hy as [Hy|Hy]; [auto|].
        apply in_flat_map in Hy as [z [Hz Hy]]. eapply Hclosed; eauto.
      * lia.
      * split; [|exact Hcl].
        intros y Hy. apply Hsub. apply add_new_In. now left.
Qed.

Lemma reach_complete (step : string -> list string) (universe : list string) (fuel : nat)
      (seen : list string) :
  (forall y z, In y universe -> In z (step y) -> In z universe) ->
  NoDup seen -> incl seen universe ->
  (List.length universe < List.length seen + fuel)%nat ->
  forall y x, In y seen -> chain step y x -> In x (reach step fuel seen).
Proof.
  intros Hclosed Hnd Hincl Hfuel y x Hy Hchain.
  destruct (reach_closed step universe fuel Hclosed seen Hnd Hincl Hfuel) as [Hsub Hcl].
  induction Hchain.
  - now apply Hsub.
  - eapply Hcl; eauto.
Qed.

Lemma In_successors (g : DiGraph) (u v : string) :
  In v (successors g u) <-> exists w, In (u, v, w) (edges g).
Proof.
  unfold successors. rewrite in_map_iff. split.
  - intros [[[a b] w] [<- Hin]]. apply filter_In in Hin as [Hin Hsrc].
    apply String.eqb_eq in Hsrc. cbn in Hsrc. subst a. now exists w.
  - intros [w Hin]. exists (u, v, w). split; [reflexivity|].
    apply filter_In. split; [assumption|apply String.eqb_refl].
Qed.

Lemma In_predecessors (g : DiGraph) (u v : string) :
  In u (predecessors g v) <-> exists w, In (u, v, w) (edges g).
Proof.
  unfold predecessors. rewrite in_map_iff. split.
  - intros [[[a b] w] [<- Hin]]. apply filter_In in Hin as [Hin Hdst].
    apply String.eqb_eq in Hdst. cbn in Hdst. subst b. now exists w.
  - intros [w Hin]. exists (u, v, w). split; [reflexivity|].
    apply filter_In. split; [assumption|apply String.eqb_refl].
Qed.

Lemma has_edge_predecessors (g : DiGraph) (u v : string) :
  has_edge g u v <-> In u (predecessors g v).
Proof. unfold has_edge. now rewrite In_successors, In_predecessors. Qed.

Lemma has_edge_nodes (g : DiGraph) (u v : string) :
  wf g -> has_edge g u v -> In u (nodes g) /\ In v (nodes g).
Proof.
  intros [_ [_ He]] H. apply In_successors in H as [w H]. exact (He _ H).
Qed.

Lemma reaches_trans (g : DiGraph) (u v w : string) :
  reaches g u v -> reaches g v w -> reaches g u w.
Proof.
  induction 1; [auto|]. intros. eapply reaches_edge; eauto.
Qed.

Lemma reaches_right (g : DiGraph) (u v w : string) :
  reaches g u v -> has_edge g v w -> reaches g u w.
Proof.
  intros Huv Hvw. eapply reaches_trans; [eassumption|].
  eapply reaches_edge; [eassumption|constructor].
Qed.

Lemma chain_trans (step : string -> list string) (x y z : string) :
  chain step x y -> chain step y z -> chain step x z.
Proof.
  intros Hxy Hyz. induction Hyz; [assumption|]. eapply chain_step; eauto.
Qed.

Lemma chain_first (step : string -> list string) (x z : string) :
  chain step x z -> x = z \/ exists y, In y (step x) /\ chain step y z.
Proof.
  induction 1 as [|y z Hxy IH Hz]; [now left|]. right.
  destruct IH as [->|[y' [Hy' Hchain]]].
  - exists z. split; [assumption|constructor].
  - exists y'. split; [assumption|]. eapply chain_step; eauto.
Qed.

Lemma chain_successors (g : DiGraph) (u w : string) :
  chain (successors g) u w <-> reaches g u w.
Proof.
  split.
  - induction 1; [constructor|]. eapply reaches_right; eauto.
  - induction 1 as [|u v w Huv Hvw IH]; [constructor|].
    eapply chain_trans; [|exact IH]. eapply chain_step; [constructor|exact Huv].
Qed.

Lemma chain_predecessors (g : DiGraph) (u w : string) :
  chain (predecessors g) w u <-> reaches g u w.
Proof.
  split.
  - induction 1 as [|y z Hwy IH Hz]; [constructor|].
    eapply reaches_edge; [|exact IH]. now apply has_edge_predecessors.
  - induction 1 as [|u v w Huv Hvw IH]; [constructor|].
    eapply chain_step; [exact IH|]. now apply has_edge_predecessors.
Qed.

(** [reach_from] finds what is reached by one step or more, when the steps
    stay among the nodes of the graph. *)
Lemma reach_from_spec (g : DiGraph) (step : string -> list string) (n x : string) :
  (forall y z, In z (step y) -> In z (nodes g)) ->
  In x (reach_from g step n) <-> exists y, In y (step n) /\ chain step y x.
Proof.
  intros Hstep. unfold reach_from. split.
  - intros H. apply reach_sound in H as [y [Hy Hchain]].
    apply add_new_In in Hy as [[]|Hy]. eauto.
  - intros [y [Hy Hchain]].
    apply (reach_complete step (nodes g)) with (y := y).
    + intros a b _ Hb. eapply Hstep; eassumption.
    + apply add_new_NoDup. constructor.
    + intros a Ha. apply add_new_In in Ha as [[]|Ha]. eapply Hstep; eassumption.
    + lia.
    + apply add_new_In. now right.
    + assumption.
Qed.

Lemma successors_nodes (g : DiGraph) (y z : string) :
  wf g -> In z (successors g y) -> In z (nodes g).
Proof. intros Hwf H. now apply (has_edge_nodes g y z Hwf). Qed.

Lemma predecessors_nodes (g : DiGraph) (y z : string) :
  wf g -> In z (predecessors g y) -> In z (nodes g).
Proof.
  intros Hwf H. apply has_edge_predecessors in H. now apply (has_edge_nodes g z y Hwf).
Qed.

(** [networkx.ancestors(G, v)] with [v] added: the nodes that reach [v]. *)
Lemma ancestors_spec (g : DiGraph) (a v : string) :
  wf g -> In a (ancestors g v ++ [v]) <-> reaches g a v.
Proof.
  intros Hwf. unfold ancestors. rewrite in_app_iff, filter_In, negb_true_iff, String.eqb_neq.
  rewrite reach_from_spec by (intros y z; now apply predecessors_nodes).
  split.
  - intros [[[y [Hy Hchain]] _]|[<-|[]]]; [|constructor].
    apply chain_predecessors in Hchain. eapply reaches_right; [eassumption|].
    now apply has_edge_predecessors.
  - intros H. destruct (string_dec a v) as [->|Hne]; [right; now left|].
    left. split; [|assumption].
    apply chain_predecessors, chain_first in H as [H|H]; [congruence|exact H].
Qed.

(** [networkx.descendants(G, v)] with [v] added: the nodes [v] reaches. *)
Lemma descendants_spec (g : DiGraph) (v d : string) :
  wf g -> In d (descendants g v ++ [v]) <-> reaches g v d.
Proof.
  intros Hwf. unfold descendants.
  rewrite in_app_iff, filter_In, negb_true_iff, String.eqb_neq.
  rewrite reach_from_spec by (intros y z; now apply successors_nodes).
  split.
  - intros [[[y [Hy Hchain]] _]|[<-|[]]]; [|constructor].
    apply chain_successors in Hchain. eapply reaches_edge; eassumption.
  - intros H. destruct (string_dec d v) as [->|Hne]; [right; now left|].
    left. split; [|assumption].
    apply chain_successors, chain_first in H as [H|H]; [congruence|exact H].
Qed.

(** [networkx.is_directed_acyclic_graph] answers [True] on the graphs
    without a cycle. *)
Lemma is_directed_acyclic_graph_spec (g : DiGraph) :
  wf g -> is_directed_acyclic_graph g = true <-> acyclic g.
Proof.
  intros Hwf. unfold is_directed_acyclic_graph, acyclic. rewrite forallb_forall. split.
  - intros H n [v [Hnv Hvn]].
    assert (Hn : In n (nodes g)) by now apply (has_edge_nodes g n v Hwf).
    specialize (H n Hn). apply negb_true_iff, mem_not_In in H. apply H.
    apply reach_from_spec; [intros y z; now apply successors_nodes|].
    exists v. split; [exact Hnv|now apply chain_successors].
  - intros H n _. apply negb_true_iff, mem_not_In. intros Hin.
    apply reach_from_spec in Hin as [v [Hnv Hchain]];
      [|intros y z; now apply successors_nodes].
    apply (H n). exists v. split; [exact Hnv|now apply chain_successors].
Qed.

(** [networkx.has_path] *)
Lemma has_path_spec (g : DiGraph) (source target : string) :
  wf g -> In source (nodes g) -> In target (nodes g) ->
  exists b, has_path g source target = Ok b /\ (b = true <-> reaches g source target).
Proof.
  intros Hwf Hs Ht. unfold has_path, has_node.
  apply mem_In in Hs, Ht. rewrite Hs, Ht. cbn [andb].
  eexists. split; [reflexivity|].
  rewrite orb_true_iff, String.eqb_eq, mem_In.
  rewrite reach_from_spec by (intros y z; now apply successors_nodes).
  split.
  - intros [->|[v [Hv Hchain]]]; [constructor|].
    apply chain_successors in Hchain. eapply reaches_edge; eassumption.
  - intros H. apply chain_successors, chain_first in H as [H|H]; auto.
Qed.

(** *** The scan for bubbles *)

Lemma NoDup_map_src (n : string) (l : list edge) :
  NoDup (map key l) -> (forall e, In e l -> dst e = n) -> NoDup (map src l).
Proof.
  induction l as [|e l IH]; cbn; intros Hnd Hdst; [constructor|].
  apply NoDup_cons_iff in Hnd as [He Hnd]. constructor.
  - intros Hin. apply He. apply in_map_iff in Hin as [e' [Hsrc Hin]].
    apply in_map_iff. exists e'. split; [|assumption].
    assert (dst e' = dst e) by (rewrite (Hdst e'), (Hdst e); auto).
    destruct e as [[a b] c], e' as [[a' b'] c']. unfold key. cbn in *. now subst.
  - apply IH; auto.
Qed.

Lemma NoDup_predecessors (g : DiGraph) (n : string) :
  wf g -> NoDup (predecessors g n).
Proof.
  intros [_ [Hk _]]. unfold predecessors. apply (NoDup_map_src n).
  - now apply filter_keeps_NoDup_map.
  - intros e He. apply filter_In in He as [_ He]. now apply String.eqb_eq in He.
Qed.

Lemma descend_In (g : DiGraph) (common : list string) (fuel : nat) :
  forall a, In a common -> In (descend g common fuel a) common.
Proof.
  induction fuel as [|fuel IH]; intros a Ha; cbn [descend]; [assumption|].
  destruct (find (fun x => mem x common) (successors g a)) as [s|] eqn:E; [|assumption].
  apply IH. apply find_some in E as [_ E]. now apply mem_In.
Qed.

Section Bubbles.

Context {RT : Runtime}.

(** On a cyclic graph [lowest_common_ancestor] raises. *)
Lemma lowest_common_ancestor_cyclic (g : DiGraph) (p q : string) :
  is_directed_acyclic_graph g = false ->
  lowest_common_ancestor g p q = Raise NetworkXError.
Proof. intros H. unfold lowest_common_ancestor. now rewrite H. Qed.

(** On an acyclic graph it returns a common ancestor of the two nodes, and
    [None] exactly when they have none. *)
Lemma lowest_common_ancestor_spec (g : DiGraph) (p q : string) :
  wf g -> acyclic g -> In p (nodes g) -> In q (nodes g) ->
  exists r,
    lowest_common_ancestor g p q = Ok r
    /\ (r = None <-> forall a, ~ common_ancestor g a p q)
    /\ (forall a, r = Some a -> common_ancestor g a p q).
Proof.
  intros Hwf Hdag Hp Hq.
  apply (is_directed_acyclic_graph_spec g Hwf) in Hdag.
  assert (Hcommon : forall a,
             In a (filter (fun x => mem x (ancestors g q ++ [q])) (ancestors g p ++ [p]))
             <-> common_ancestor g a p q).
  { intros a. unfold common_ancestor.
    rewrite filter_In, mem_In, !ancestors_spec by assumption. reflexivity. }
  unfold lowest_common_ancestor. rewrite Hdag. cbn [negb].
  unfold has_node. apply mem_In in Hp, Hq. rewrite Hp, Hq. cbn [andb].
  destruct (nodes g) as [|n0 ns] eqn:Hnodes; [discriminate Hp|].
  destruct (filter (fun x => mem x (ancestors g q ++ [q])) (ancestors g p ++ [p]))
    as [|x r] eqn:Hfilter.
  - exists None. split; [reflexivity|]. split.
    + split; [|reflexivity]. intros _ a Ha. now apply Hcommon in Ha.
    + discriminate.
  - eexists. split; [reflexivity|]. split.
    + split; [discriminate|]. intros H. exfalso. apply (H x).
      apply Hcommon. now left.
    + intros a Ha.
      assert (Ea : a = descend g (x :: r) (List.length (n0 :: ns)) (set_first x r))
        by congruence.
      rewrite Ea. apply Hcommon.
      exact (descend_In g (x :: r) _ _ (set_first_in x r)).
Qed.

Lemma scan_j_none (g : DiGraph) (p : string) (pjs : list string) :
  (forall q, In q pjs -> lowest_common_ancestor g p q = Ok None) ->
  forall b anc, exists anc', scan_j g p pjs (b, anc) = Ok (b, anc').
Proof.
  induction pjs as [|q pjs IH]; intros H b anc; cbn [scan_j].
  - now exists anc.
  - rewrite (H q) by now left. cbn [bind fst]. apply IH.
    intros q' Hq'. apply H. now right.
Qed.

Lemma scan_i_none (g : DiGraph) (preds : list string) :
  NoDup preds ->
  (forall p q, In p preds -> In q preds -> p <> q ->
               lowest_common_ancestor g p q = Ok None) ->
  forall anc, exists anc', scan_i g preds (false, anc) = Ok (false, anc').
Proof.
  induction preds as [|p preds IH]; intros Hnd H anc; cbn [scan_i].
  - now exists anc.
  - apply NoDup_cons_iff in Hnd as [Hp Hnd].
    destruct (scan_j_none g p preds) with (b := false) (anc := anc) as [anc1 H1].
    { intros q Hq. apply H; [now left|now right|]. intros ->. contradiction. }
    rewrite H1. cbn [bind]. apply IH; [assumption|].
    intros p' q' Hp' Hq'. apply H; now right.
Qed.

Lemma scan_node_none (g : DiGraph) (n : string) :
  wf g -> acyclic g -> no_bubble_at g n ->
  forall anc, exists anc',
    (if (1 <? List.length (predecessors g n))%nat
     then scan_i g (predecessors g n) (false, anc)
     else Ok (false, anc)) = Ok (false, anc').
Proof.
  intros Hwf Hdag Hno anc.
  destruct (1 <? List.length (predecessors g n))%nat; [|now exists anc].
  apply scan_i_none; [now apply NoDup_predecessors|].
  intros p q Hp Hq Hne.
  destruct (lowest_common_ancestor_spec g p q Hwf Hdag) as [r [Hr [Hnone _]]].
  - eapply predecessors_nodes; eassumption.
  - eapply predecessors_nodes; eassumption.
  - rewrite Hr. f_equal. apply Hnone. now apply Hno.
Qed.

(** The scan passes over the nodes without a bubble. *)
Lemma scan_nodes_skip (g : DiGraph) (before rest : list string) :
  wf g -> acyclic g ->
  (forall m, In m before -> no_bubble_at g m) ->
  forall anc, exists anc',
    scan_nodes g (before ++ rest) anc = scan_nodes g rest anc'.
Proof.
  intros Hwf Hdag. induction before as [|m before IH]; intros Hno anc.
  - now exists anc.
  - cbn [app scan_nodes].
    destruct (scan_node_none g m Hwf Hdag (Hno m (or_introl eq_refl)) anc)
      as [anc1 H1].
    rewrite H1. cbn [bind fst snd]. apply IH.
    intros m' Hm'. apply Hno. now right.
Qed.

(** C4 (amended). For every acyclic graph: a round of [simplify_bubbles]
    passes over the nodes, in node order, none of whose predecessors have
    a common ancestor; when the first node after them has exactly two
    predecessors, and these have a common ancestor, the round resolves the
    pair made of their lowest common ancestor and that node, sending all
    the simple paths from the ancestor to the node to [select_best_path]
    with both deletion flags false, and the scan starts again from scratch
    on the graph that comes back. And every acyclic graph in which no node
    has two predecessors with a common ancestor is returned unchanged. *)
Theorem simplify_bubbles_round (graph : DiGraph) (depth : nat) (w : world) :
  wf graph -> acyclic graph ->
  (forall before node after p q,
      nodes graph = before ++ node :: after ->
      (forall m, In m before -> no_bubble_at graph m) ->
      predecessors graph node = [p; q] ->
      (exists a, common_ancestor graph a p q) ->
      exists ancestor_node,
        lowest_common_ancestor graph p q = Ok (Some ancestor_node)
        /\ common_ancestor graph ancestor_node p q
        /\ solve_bubble graph (Some ancestor_node) node w
           = (path_list <- all_simple_paths graph ancestor_node node ;;
              weight_avg_list <- average_weights graph path_list ;;
              select_best_path graph path_list (lengths_of path_list)
                               weight_avg_list false false w)
        /\ simplify_bubbles (S depth) graph w
           = (r <- solve_bubble graph (Some ancestor_node) node w ;;
              simplify_bubbles depth (fst r) (snd r)))
  /\ ((forall n, In n (nodes graph) -> no_bubble_at graph n) ->
      simplify_bubbles (S depth) graph w = Ok (graph, w)).
Proof.
  intros Hwf Hdag. split.
  - intros before node after p q Hnodes Hbefore Hpreds [a0 Ha0].
    assert (Hp : In p (nodes graph)).
    { apply (predecessors_nodes graph node p Hwf). rewrite Hpreds. now left. }
    assert (Hq : In q (nodes graph)).
    { apply (predecessors_nodes graph node q Hwf). rewrite Hpreds. right. now left. }
    destruct (lowest_common_ancestor_spec graph p q Hwf Hdag Hp Hq)
      as [r [Hr [Hnone Hsome]]].
    destruct r as [a|].
    2:{ exfalso. apply (proj1 Hnone eq_refl a0). exact Ha0. }
    exists a. split; [exact Hr|]. split; [now apply Hsome|]. split; [reflexivity|].
    cbn [simplify_bubbles]. rewrite Hnodes.
    destruct (scan_nodes_skip graph before (node :: after) Hwf Hdag Hbefore None)
      as [anc' Hskip].
    rewrite Hskip. cbn [scan_nodes]. rewrite Hpreds.
    cbn [List.length Nat.ltb Nat.leb scan_i scan_j]. rewrite Hr.
    reflexivity.
  - intros Hno. cbn [simplify_bubbles].
    destruct (scan_nodes_skip graph (nodes graph) [] Hwf Hdag Hno None) as [anc' Hskip].
    rewrite app_nil_r in Hskip. rewrite Hskip. reflexivity.
Qed.

(** When [simplify_bubbles] returns a graph, the scan of that graph finds
    nothing. *)
Lemma simplify_bubbles_settled (depth : nat) :
  forall graph w g' w',
    simplify_bubbles depth graph w = Ok (g', w') ->
    scan_nodes g' (nodes g') None = Ok None.
Proof.
  induction depth as [|depth IH]; intros graph w g' w' H; cbn [simplify_bubbles] in H;
    [discriminate|].
  destruct (scan_nodes graph (nodes graph) None) as [[[a n]|]|] eqn:Hscan;
    cbn [bind] in H; [| |discriminate].
  - destruct (solve_bubble graph a n w) as [r|]; cbn [bind] in H; [|discriminate].
    eapply IH; eassumption.
  - injection H as <- <-. assumption.
Qed.

(** C5. For every graph on which [simplify_bubbles] returns, running it
    again on the graph it returned gives that very graph back: same nodes,
    same edges, same weights (and the generator is left as it was). *)
Theorem simplify_bubbles_idempotent (depth depth' : nat) (graph : DiGraph) (w : world)
        (g1 : DiGraph) (w1 : world) :
  simplify_bubbles depth graph w = Ok (g1, w1) ->
  simplify_bubbles (S depth') g1 w1 = Ok (g1, w1).
Proof.
  intros H. apply simplify_bubbles_settled in H.
  cbn [simplify_bubbles]. rewrite H. reflexivity.
Qed.

(** A tie is broken by the generator: the index is the value it gives in
    its current state, the state moves on and the value is recorded. *)
Lemma best_path_index_tie (path_length : list Z) (weight_avg_list : list Q) (w : world) :
  (2 <= List.length weight_avg_list)%nat ->
  List.length path_length = List.length weight_avg_list ->
  Stat.all_equal weight_avg_list -> all_equal_Z path_length ->
  best_path_index path_length weight_avg_list w
  = (let (i, s) := randint 0 (Z.of_nat (List.length path_length) - 1) (gen w) in
     Ok (Z.to_nat i, {| gen := s; drawn := i :: drawn w |})).
Proof.
  intros Hlen Hlen' Hw Hl. unfold best_path_index.
  destruct (StatFacts.stdev_positive_long weight_avg_list Hlen) as [bw [Hbw Hiw]].
  rewrite Hbw. cbn [bind].
  destruct bw; [exfalso; now apply (proj1 Hiw eq_refl)|].
  destruct (StatFacts.stdev_positive_long (map inject_Z path_length)) as [bl [Hbl Hil]].
  { rewrite length_map. lia. }
  rewrite Hbl. cbn [bind].
  destruct bl; [exfalso; apply (proj1 Hil eq_refl); now apply all_equal_inject_Z|].
  unfold random_randint.
  destruct (Z.of_nat (List.length path_length) - 1 <? 0) eqn:E; [lia|].
  destruct (randint 0 (Z.of_nat (List.length path_length) - 1) (gen w)) as [i s].
  reflexivity.
Qed.


End Bubbles.

(** *** Examples of bubble simplification *)

Lemma simplify_bubbles_round_witness :
  wf two_branch_graph
  /\ acyclic two_branch_graph
  /\ exists ancestor_node,
       @lowest_common_ancestor lcg_runtime two_branch_graph "CA" "GA"
       = Ok (Some ancestor_node)
       /\ common_ancestor two_branch_graph ancestor_node "CA" "GA"
       /\ @solve_bubble lcg_runtime two_branch_graph (Some ancestor_node) "AC" world0
          = (path_list <- all_simple_paths two_branch_graph ancestor_node "AC" ;;
             weight_avg_list <- average_weights two_branch_graph path_list ;;
             @select_best_path lcg_runtime two_branch_graph path_list
               (lengths_of path_list) weight_avg_list false false world0)
       /\ @simplify_bubbles lcg_runtime 2 two_branch_graph world0
          = (r <- @solve_bubble lcg_runtime two_branch_graph (Some ancestor_node) "AC"
                    world0 ;;
             @simplify_bubbles lcg_runtime 1 (fst r) (snd r)).
Proof.
  assert (H1 : wf two_branch_graph) by apply wf_build_graph.
  assert (H2 : acyclic two_branch_graph).
  { apply (proj1 (is_directed_acyclic_graph_spec _ H1)). vm_compute. reflexivity. }
  split; [exact H1|]. split; [exact H2|].
  apply (proj1 (@simplify_bubbles_round lcg_runtime two_branch_graph 1 world0 H1 H2)
               ["TC"; "CA"] "AC" ["CG"; "GA"] "CA" "GA").
  - vm_compute. reflexivity.
  - intros m Hm p q Hp Hq Hne.
    destruct Hm as [<-|[<-|[]]]; vm_compute in Hp, Hq;
      exfalso; intuition congruence.
  - vm_compute. reflexivity.
  - exists "TC". split; apply (proj1 (ancestors_spec _ _ _ H1)); vm_compute; tauto.
Defined.

(** The claim C4 as it was stated fails in two ways. On a graph with a
    cycle and a node of two predecessors, here without any common ancestor,
    the graph is not returned: [lowest_common_ancestor] refuses cyclic
    graphs. On a node with three predecessors CA, GA, TA the loop over [i]
    goes on after the first pair (CA, GA), whose ancestor is TC, and leaves
    in [ancestor_node] the result [None] of the last pair (GA, TA): the
    bubble from TC to AC is not collapsed, although [solve_bubble] would do
    it, and [all_simple_paths] raises on the source [None]. *)
Lemma simplify_bubbles_counterexample :
  (wf cyclic_graph
   /\ (forall n, In n (nodes cyclic_graph) -> no_bubble_at cyclic_graph n)
   /\ @simplify_bubbles lcg_runtime 1000 cyclic_graph world0 = Raise NetworkXError)
  /\ (predecessors three_pred_graph "AC" = ["CA"; "GA"; "TA"]
      /\ @lowest_common_ancestor lcg_runtime three_pred_graph "CA" "GA" = Ok (Some "TC")
      /\ @scan_nodes lcg_runtime three_pred_graph (nodes three_pred_graph) None
         = Ok (Some (None, "AC"))
      /\ (exists r, @solve_bubble lcg_runtime three_pred_graph (Some "TC") "AC" world0
                    = Ok r)
      /\ @simplify_bubbles lcg_runtime 1000 three_pred_graph world0
         = Raise NodeNotFound).
Proof.
  assert (Hwf : wf cyclic_graph) by apply wf_build_graph.
  split; [split; [exact Hwf|split]|].
  - intros n Hn p q Hp Hq Hne a [Hap Haq].
    vm_compute in Hn. destruct Hn as [<-|[<-|[<-|[<-|[]]]]]; vm_compute in Hp, Hq;
      repeat (match goal with
              | H : _ \/ _ |- _ => destruct H
              | H : False |- _ => destruct H
              end); subst; try congruence;
      apply (proj2 (ancestors_spec _ _ _ Hwf)) in Hap;
      apply (proj2 (ancestors_spec _ _ _ Hwf)) in Haq;
      vm_compute in Hap, Haq; intuition congruence.
  - vm_compute. reflexivity.
  - split; [reflexivity|]. split; [vm_compute; reflexivity|].
    split; [vm_compute; reflexivity|]. split.
    + eexists. vm_compute. reflexivity.
    + vm_compute. reflexivity.
Qed.

Lemma simplify_bubbles_idempotent_witness :
  let g1 := {| nodes := ["TA"; "AC"; "CG"; "GT"];
               edges := [("TA", "AC", 5); ("AC", "CG", 5); ("CG", "GT", 5)] |} in
  @simplify_bubbles lcg_runtime 10 three_branch_graph world0 = Ok (g1, world0)
  /\ @simplify_bubbles lcg_runtime 10 g1 world0 = Ok (g1, world0).
Proof.
  intros g1.
  assert (H : @simplify_bubbles lcg_runtime 10 three_branch_graph world0
              = Ok (g1, world0)) by (vm_compute; reflexivity).
  split; [exact H|].
  exact (@simplify_bubbles_idempotent lcg_runtime 10 9 three_branch_graph world0
           g1 world0 H).
Defined.

(** *** Two runs of the pipeline *)

Section SetOrder.

Context {RT : Runtime}.
Variable first : string -> list string -> string.
Variable first_in : forall x l, In (first x l) (x :: l).
Hypothesis first_same : forall x l, first x l = set_first x l.







End SetOrder.

Section SeededRun.

Context {RT : Runtime}.
Variable a : Z.







End SeededRun.






(** *** K-mers, their counts and their edges *)

Lemma slice_window (s : string) (i k : Z) :
  0 <= i -> 0 <= k -> i + k <= len s ->
  slice s (Some i) (Some (i + k)) = substring (Z.to_nat i) (Z.to_nat k) s.
Proof.
  intros Hi Hk Hlen. unfold slice, slice_bound.
  destruct (i <? 0) eqn:E1; [lia|]. destruct (i + k <? 0) eqn:E2; [lia|].
  f_equal; lia.
Qed.

Lemma In_range (n i : Z) : In i (range n) <-> 0 <= i < n.
Proof.
  unfold range. rewrite in_map_iff. split.
  - intros [j [<- Hj]]. apply in_seq in Hj. lia.
  - intros H. exists (Z.to_nat i). split; [lia|]. apply in_seq. lia.
Qed.

Lemma cut_kmer_substrings (read : string) (kmer_size : Z) :
  0 < kmer_size ->
  cut_kmer read kmer_size
  = map (fun i => substring i (Z.to_nat kmer_size) read)
        (seq 0 (Z.to_nat (len read - kmer_size + 1))).
Proof.
  intros Hk. unfold cut_kmer, range. rewrite map_map. apply map_ext_in. intros i Hi.
  apply in_seq in Hi. rewrite slice_window by lia. now rewrite Nat2Z.id.
Qed.

Lemma len_cut_kmer (read : string) (kmer_size : Z) (kmer : string) :
  0 < kmer_size -> In kmer (cut_kmer read kmer_size) -> len kmer = kmer_size.
Proof.
  intros Hk Hin. rewrite cut_kmer_substrings in Hin by assumption.
  apply in_map_iff in Hin as [i [<- Hi]].
  apply in_seq in Hi. unfold len. rewrite length_substring; unfold len in *; lia.
Qed.

(** X1. For a positive k, the k-mers of a read are its windows of k
    characters, one for every start from 0 to [len(read) - k], in this
    order; each has exactly k characters, the slices near the end of the
    read are never cut short. *)
Theorem cut_kmer_windows (read : string) (kmer_size : Z) :
  0 < kmer_size ->
  cut_kmer read kmer_size
  = map (fun i => substring i (Z.to_nat kmer_size) read)
        (seq 0 (Z.to_nat (len read - kmer_size + 1)))
  /\ (forall kmer, In kmer (cut_kmer read kmer_size) -> len kmer = kmer_size).
Proof.
  intros Hk. split; [now apply cut_kmer_substrings|].
  intros kmer. now apply len_cut_kmer.
Qed.

Lemma cut_kmer_windows_witness :
  0 < 3
  /\ cut_kmer "ACGTA" 3 = ["ACG"; "CGT"; "GTA"]
  /\ (forall kmer, In kmer (cut_kmer "ACGTA" 3) -> len kmer = 3).
Proof.
  split; [lia|]. destruct (cut_kmer_windows "ACGTA" 3) as [Heq Hlen]; [lia|].
  split; [rewrite Heq; reflexivity|exact Hlen].
Defined.

Lemma build_kmer_dict_fold (reads : list string) (kmer_size : Z) (d : dict) :
  fold_left (fun kmer_dict read =>
               fold_left count_kmer (cut_kmer read kmer_size) kmer_dict) reads d
  = fold_left count_kmer (all_kmers reads kmer_size) d.
Proof.
  revert d. induction reads as [|read reads IH]; intros d; [reflexivity|].
  unfold all_kmers. cbn [fold_left flat_map]. rewrite fold_left_app. apply IH.
Qed.

Lemma dict_get_set (d : dict) (k x : string) (v df : Z) :
  dict_get (dict_set d k v) x df = if String.eqb x k then v else dict_get d x df.
Proof.
  induction d as [|[k' v'] d IH]; cbn.
  - destruct (String.eqb x k); reflexivity.
  - destruct (String.eqb k k') eqn:E1; cbn.
    + apply String.eqb_eq in E1. subst k'. destruct (String.eqb x k); reflexivity.
    + rewrite IH. destruct (String.eqb x k') eqn:E2; [|reflexivity].
      apply String.eqb_eq in E2. subst k'. now rewrite String.eqb_sym, E1.
Qed.

Lemma dict_keys_set (d : dict) (k : string) (v : Z) :
  dict_keys (dict_set d k v)
  = if mem k (dict_keys d) then dict_keys d else dict_keys d ++ [k].
Proof.
  unfold dict_keys. induction d as [|[k' v'] d IH]; cbn; [reflexivity|].
  destruct (String.eqb k k') eqn:E; cbn; [reflexivity|].
  rewrite IH. unfold mem. now destruct (existsb (String.eqb k) (map fst d)).
Qed.

Lemma count_kmers_spec (kmers : list string) :
  forall d,
    NoDup (dict_keys d) ->
    let d' := fold_left count_kmer kmers d in
    NoDup (dict_keys d')
    /\ (forall x, dict_get d' x 0
                  = dict_get d x 0 + Z.of_nat (count_occ string_dec kmers x))
    /\ (forall x, In x (dict_keys d') <-> In x (dict_keys d) \/ In x kmers).
Proof.
  induction kmers as [|kmer kmers IH]; intros d Hnd d'.
  - subst d'. cbn. split; [assumption|]. split; [intros; lia|tauto].
  - subst d'. cbn [fold_left].
    assert (Hnd1 : NoDup (dict_keys (count_kmer d kmer))).
    { unfold count_kmer. rewrite dict_keys_set.
      destruct (mem kmer (dict_keys d)) eqn:E; [assumption|].
      apply mem_not_In in E. apply NoDup_app; [assumption|repeat constructor; intros []|].
      intros a Ha [<-|[]]. contradiction. }
    destruct (IH _ Hnd1) as [H1 [H2 H3]]. split; [exact H1|]. split.
    + intros x. rewrite H2. unfold count_kmer at 1. rewrite dict_get_set.
      cbn [count_occ]. destruct (string_dec kmer x) as [->|Hne].
      * rewrite String.eqb_refl. lia.
      * destruct (String.eqb x kmer) eqn:E; [|lia].
        apply String.eqb_eq in E. congruence.
    + intros x. rewrite H3. unfold count_kmer. rewrite dict_keys_set.
      destruct (mem kmer (dict_keys d)) eqn:E.
      * apply mem_In in E. cbn. intuition (subst; auto).
      * rewrite in_app_iff. cbn. intuition auto.
Qed.

Lemma dict_get_In (d : dict) (k : string) (c : Z) :
  NoDup (dict_keys d) -> In (k, c) d -> dict_get d k 0 = c.
Proof.
  unfold dict_keys. induction d as [|[k' v'] d IH]; intros Hnd Hin; [destruct Hin|].
  cbn in Hnd. apply NoDup_cons_iff in Hnd as [Hk Hnd]. cbn.
  destruct Hin as [E|Hin].
  - injection E as -> ->. now rewrite String.eqb_refl.
  - destruct (String.eqb k k') eqn:E; [|now apply IH].
    apply String.eqb_eq in E. subst k'. exfalso. apply Hk.
    apply in_map_iff. now exists (k, c).
Qed.

Lemma In_dict_get (d : dict) (k : string) :
  In k (dict_keys d) -> In (k, dict_get d k 0) d.
Proof.
  unfold dict_keys. induction d as [|[k' v'] d IH]; intros Hin; [destruct Hin|].
  cbn. destruct (String.eqb k k') eqn:E.
  - apply String.eqb_eq in E. subst k'. now left.
  - right. apply IH. destruct Hin as [E'|Hin]; [|assumption].
    cbn in E'. subst k'. rewrite String.eqb_refl in E. discriminate.
Qed.

Lemma build_kmer_dict_spec (reads : list string) (kmer_size : Z) :
  NoDup (dict_keys (build_kmer_dict reads kmer_size))
  /\ (forall kmer,
        dict_get (build_kmer_dict reads kmer_size) kmer 0
        = Z.of_nat (count_occ string_dec (all_kmers reads kmer_size) kmer))
  /\ (forall kmer c,
        In (kmer, c) (build_kmer_dict reads kmer_size) <->
        In kmer (all_kmers reads kmer_size)
        /\ c = Z.of_nat (count_occ string_dec (all_kmers reads kmer_size) kmer)).
Proof.
  destruct (count_kmers_spec (all_kmers reads kmer_size) []) as [Hnd [Hget Hkeys]];
    [constructor|].
  cbv zeta in Hnd, Hget, Hkeys.
  assert (E : build_kmer_dict reads kmer_size
              = fold_left count_kmer (all_kmers reads kmer_size) []).
  { unfold build_kmer_dict. apply build_kmer_dict_fold. }
  rewrite E. split; [exact Hnd|]. split.
  - intros kmer. rewrite Hget. cbn. reflexivity.
  - intros kmer c. split.
    + intros Hin. split.
      * assert (Hk : In kmer (dict_keys (fold_left count_kmer
                                           (all_kmers reads kmer_size) []))).
        { unfold dict_keys. apply in_map_iff. now exists (kmer, c). }
        apply Hkeys in Hk as [[]|Hk]. exact Hk.
      * rewrite <- (dict_get_In _ _ _ Hnd Hin). rewrite Hget. cbn. reflexivity.
    + intros [Hin ->].
      assert (Hk : In kmer (dict_keys (fold_left count_kmer
                                         (all_kmers reads kmer_size) []))).
      { apply Hkeys. now right. }
      apply In_dict_get in Hk. rewrite Hget in Hk. exact Hk.
Qed.

(** X2. The mapping of [build_kmer_dict] holds every k-mer of the reads
    once, with the number of its occurrences in all the reads: a k-mer
    that is in no read is not a key (its count by [get] is 0), and no
    count is lost when a k-mer comes back in the same read or in another
    one. *)
Theorem build_kmer_dict_counts (reads : list string) (kmer_size : Z) :
  let kmer_dict := build_kmer_dict reads kmer_size in
  let occurrences kmer :=
    Z.of_nat (count_occ string_dec (all_kmers reads kmer_size) kmer) in
  NoDup (dict_keys kmer_dict)
  /\ (forall kmer, dict_get kmer_dict kmer 0 = occurrences kmer)
  /\ (forall kmer c, In (kmer, c) kmer_dict <->
                     In kmer (all_kmers reads kmer_size) /\ c = occurrences kmer)
  /\ (forall kmer c, In (kmer, c) kmer_dict -> 1 <= c).
Proof.
  intros kmer_dict occurrences.
  destruct (build_kmer_dict_spec reads kmer_size) as [Hnd [Hget Hin]].
  split; [exact Hnd|]. split; [exact Hget|]. split; [exact Hin|].
  intros kmer c H. apply Hin in H as [H ->].
  apply (count_occ_In string_dec) in H. lia.
Qed.

Lemma substring_full (s : string) : substring 0 (String.length s) s = s.
Proof. induction s as [|c s IH]; cbn; [reflexivity|now rewrite IH]. Qed.

(** A k-mer of two characters or more is known by its two ends. *)
Lemma kmer_ends_injective (a b : string) :
  (2 <= String.length a)%nat -> String.length a = String.length b ->
  slice a None (Some (-1)) = slice b None (Some (-1)) ->
  slice a (Some 1) None = slice b (Some 1) None ->
  a = b.
Proof.
  intros Ha Hab. rewrite !slice_prefix, !slice_suffix.
  destruct a as [|ca ra]; [cbn in Ha; lia|]. destruct b as [|cb rb]; [discriminate|].
  cbn [String.length] in *. replace (S (String.length ra) - 1)%nat with (String.length ra) by lia.
  replace (S (String.length rb) - 1)%nat with (String.length rb) by lia.
  cbn [substring]. rewrite !substring_full.
  destruct (String.length ra) as [|n] eqn:Ea; [lia|].
  destruct (String.length rb) as [|m] eqn:Eb; [lia|].
  intros Hp Hs. injection Hp as Hc _. now subst.
Qed.

Lemma set_edge_append (es : list edge) (u v : string) (w : Z) :
  ~ In (u, v) (map key es) -> set_edge es u v w = es ++ [(u, v, w)].
Proof.
  induction es as [|e es IH]; cbn; intros Hnew; [reflexivity|].
  destruct (String.eqb (src e) u && String.eqb (dst e) v) eqn:E.
  - exfalso. apply Hnew. left. apply andb_true_iff in E as [Hu Hv].
    apply String.eqb_eq in Hu, Hv. destruct e as [[a b] c]. unfold key. cbn in *.
    now subst.
  - f_equal. apply IH. intros Hin. apply Hnew. now right.
Qed.

Lemma edges_add_kmers (kmer_dict : dict) :
  forall g,
    NoDup (map key (edges g) ++ map (fun item => key (kmer_edge item)) kmer_dict) ->
    edges (fold_left add_kmer kmer_dict g) = edges g ++ map kmer_edge kmer_dict.
Proof.
  induction kmer_dict as [|[kmer c] d IH]; intros g Hnd; cbn [fold_left map].
  - now rewrite app_nil_r.
  - assert (Hedges : edges (add_kmer g (kmer, c)) = edges g ++ [kmer_edge (kmer, c)]).
    { unfold add_kmer. cbn [add_edge edges]. rewrite !edges_add_node.
      apply set_edge_append. apply NoDup_remove_2 in Hnd.
      intros Hin. apply Hnd. apply in_or_app. now left. }
    rewrite IH.
    + rewrite Hedges, <- app_assoc. reflexivity.
    + rewrite Hedges, map_app, <- app_assoc. exact Hnd.
Qed.

Lemma edges_build_graph (kmer_dict : dict) (k : Z) :
  2 <= k ->
  NoDup (dict_keys kmer_dict) ->
  (forall kmer c, In (kmer, c) kmer_dict -> len kmer = k) ->
  edges (build_graph kmer_dict) = map kmer_edge kmer_dict.
Proof.
  intros Hk Hnd Hlen. unfold build_graph.
  rewrite edges_add_kmers; [reflexivity|]. cbn [Nx.empty edges map app].
  unfold dict_keys in Hnd.
  induction kmer_dict as [|[kmer c] d IH]; cbn [map]; [constructor|].
  cbn in Hnd. apply NoDup_cons_iff in Hnd as [Hkmer Hnd]. constructor.
  - intros Hin. apply Hkmer. apply in_map_iff in Hin as [[kmer' c'] [Hkey Hin]].
    apply in_map_iff. exists (kmer', c'). split; [|assumption].
    unfold kmer_edge, key in Hkey. cbn in Hkey. injection Hkey as Hp Hs. cbn.
    pose proof (Hlen kmer c (or_introl eq_refl)) as H1.
    pose proof (Hlen kmer' c' (or_intror Hin)) as H2.
    unfold len in H1, H2. apply kmer_ends_injective; try lia; assumption.
  - apply IH; [assumption|]. intros kmer' c' Hin. apply (Hlen kmer' c'). now right.
Qed.

(** X3. For a mapping whose keys are distinct k-mers of one length
    k >= 2, the graph of [build_graph] has exactly one edge per k-mer, in
    the order of the mapping, from [kmer[:-1]] to [kmer[1:]] and weighted by
    the count of the k-mer: two k-mers never share an edge, so that no
    weight is overwritten. *)
Theorem build_graph_edges (kmer_dict : dict) (k : Z) :
  2 <= k ->
  NoDup (dict_keys kmer_dict) ->
  (forall kmer c, In (kmer, c) kmer_dict -> len kmer = k) ->
  edges (build_graph kmer_dict) = map kmer_edge kmer_dict
  /\ (forall A B weight,
        In (A, B, weight) (edges (build_graph kmer_dict)) <->
        exists kmer, In (kmer, weight) kmer_dict
                     /\ A = slice kmer None (Some (-1))
                     /\ B = slice kmer (Some 1) None).
Proof.
  intros Hk Hnd Hlen. rewrite (edges_build_graph kmer_dict k Hk Hnd Hlen).
  split; [reflexivity|]. intros A B weight. rewrite in_map_iff. split.
  - intros [[kmer c] [E Hin]]. unfold kmer_edge in E. cbn in E.
    injection E as <- <- <-. now exists kmer.
  - intros [kmer [Hin [-> ->]]]. now exists (kmer, weight).
Qed.

Lemma build_graph_edges_witness :
  let d := [("ACG", 1); ("CGT", 2); ("GTA", 1)] in
  2 <= 3
  /\ NoDup (dict_keys d)
  /\ (forall kmer c, In (kmer, c) d -> len kmer = 3)
  /\ edges (build_graph d) = [("AC", "CG", 1); ("CG", "GT", 2); ("GT", "TA", 1)].
Proof.
  intros d.
  assert (H1 : 2 <= 3) by lia.
  assert (H2 : NoDup (dict_keys d)).
  { repeat constructor; cbn; intuition discriminate. }
  assert (H3 : forall kmer c, In (kmer, c) d -> len kmer = 3).
  { intros kmer c Hin. cbn in Hin.
    destruct Hin as [H|[H|[H|[]]]]; inversion H; subst; reflexivity. }
  split; [exact H1|]. split; [exact H2|]. split; [exact H3|].
  exact (proj1 (build_graph_edges d 3 H1 H2 H3)).
Defined.

(** X4. For k >= 2, every k-mer of every read is an edge of the graph
    built from the reads, from its first k - 1 characters to its last
    k - 1, and the weight of the edge is the number of occurrences of the
    k-mer in the reads, which is one at least. *)
Theorem read_kmers_are_edges (reads : list string) (kmer_size : Z) (read kmer : string) :
  2 <= kmer_size ->
  In read reads -> In kmer (cut_kmer read kmer_size) ->
  In (slice kmer None (Some (-1)), slice kmer (Some 1) None,
      Z.of_nat (count_occ string_dec (all_kmers reads kmer_size) kmer))
     (edges (build_graph (build_kmer_dict reads kmer_size)))
  /\ (1 <= count_occ string_dec (all_kmers reads kmer_size) kmer)%nat.
Proof.
  intros Hk Hread Hkmer.
  assert (Hall : In kmer (all_kmers reads kmer_size)).
  { unfold all_kmers. apply in_flat_map. now exists read. }
  destruct (build_kmer_dict_spec reads kmer_size) as [Hnd [_ Hin]].
  split.
  - rewrite (edges_build_graph _ kmer_size Hk Hnd).
    + apply in_map_iff.
      exists (kmer, Z.of_nat (count_occ string_dec (all_kmers reads kmer_size) kmer)).
      split; [reflexivity|]. apply Hin. split; [assumption|reflexivity].
    + intros kmer' c' Hin'. apply Hin in Hin' as [Hin' _].
      unfold all_kmers in Hin'. apply in_flat_map in Hin' as [read' [_ Hin']].
      apply (len_cut_kmer read' kmer_size); [lia|exact Hin'].
  - apply (count_occ_In string_dec) in Hall. lia.
Qed.

(** *** The walk of a read and its contig *)

Lemma get_Some (s : string) : forall a, (a < String.length s)%nat -> exists c, get a s = Some c.
Proof.
  induction s as [|c s IH]; intros a Ha; cbn in Ha; [lia|].
  destruct a as [|a]; cbn; [eauto|]. apply IH. lia.
Qed.

Lemma substring_snoc (s : string) :
  forall a c, get a s = Some c ->
              (substring 0 a s ++ String c EmptyString)%string = substring 0 (S a) s.
Proof.
  induction s as [|c0 s IH]; intros a c Hget; [destruct a; discriminate|].
  destruct a as [|a]; cbn in Hget.
  - injection Hget as <-. cbn. now destruct s.
  - cbn [substring append]. f_equal. now apply IH.
Qed.

Lemma last_char_cons (c : ascii) (s : string) :
  s <> EmptyString -> last_char (String c s) = last_char s.
Proof. destruct s; [congruence|reflexivity]. Qed.

Lemma last_char_substring (s : string) :
  forall i m, (i + S m <= String.length s)%nat ->
              last_char (substring i (S m) s) = get (i + m) s.
Proof.
  induction s as [|c s IH]; intros i m H; cbn in H; [lia|].
  destruct i as [|i].
  - cbn [substring Nat.add]. destruct m as [|m].
    + cbn. now destruct s.
    + rewrite last_char_cons.
      * rewrite (IH O m) by lia. reflexivity.
      * destruct s; [cbn in H; lia|discriminate].
  - cbn [substring Nat.add get]. apply IH. lia.
Qed.

Lemma extend_contig_windows (read : string) (m : nat) :
  forall n j,
    (S m + j + n = String.length read)%nat ->
    extend_contig (substring 0 (S m + j) read)
                  (map (fun i => substring i (S m) read) (seq (S j) n))
    = Ok (substring 0 (S m + j + n) read).
Proof.
  induction n as [|n IH]; intros j Hlen; cbn [seq map extend_contig].
  - now rewrite Nat.add_0_r.
  - rewrite last_char_substring by lia.
    destruct (get_Some read (S j + m)) as [c Hc]; [lia|].
    rewrite Hc.
    replace (S j + m)%nat with (S m + j)%nat in Hc by lia.
    rewrite (substring_snoc read _ c Hc).
    replace (S (S m + j)) with (S m + S j)%nat by lia.
    rewrite IH by lia. f_equal. f_equal. lia.
Qed.

Lemma steps_map_seq {A : Type} (f : nat -> A) (n start : nat) :
  combine (map f (seq start (S n))) (tl (map f (seq start (S n))))
  = map (fun i => (f i, f (S i))) (seq start n).
Proof.
  revert start. induction n as [|n IH]; intros start; [reflexivity|].
  specialize (IH (S start)). cbn [seq map tl combine] in *. f_equal. exact IH.
Qed.

Lemma steps_cut_kmer (read : string) (k : Z) :
  2 <= k ->
  steps (cut_kmer read (k - 1))
  = map (fun kmer => (slice kmer None (Some (-1)), slice kmer (Some 1) None))
        (cut_kmer read k).
Proof.
  intros Hk. rewrite !cut_kmer_substrings by lia. unfold len in *.
  set (n := String.length read) in *.
  destruct (Z.to_nat (Z.of_nat n - (k - 1) + 1)) as [|w] eqn:Ew.
  - replace (Z.to_nat (Z.of_nat n - k + 1)) with O by lia. reflexivity.
  - replace (Z.to_nat (Z.of_nat n - k + 1)) with w by lia.
    unfold steps. rewrite steps_map_seq, map_map. apply map_ext_in.
    intros i Hi. apply in_seq in Hi.
    rewrite slice_prefix, slice_suffix.
    rewrite length_substring by (fold n; lia).
    rewrite !substring_substring by lia.
    replace (Z.to_nat k - 1)%nat with (Z.to_nat (k - 1)) by lia.
    f_equal; f_equal; lia.
Qed.

Lemma contig_of_cut_kmer (read : string) (k : Z) :
  2 <= k -> k - 1 <= len read ->
  contig_of_path (cut_kmer read (k - 1)) = Ok (read, len read).
Proof.
  intros Hk Hlen. rewrite cut_kmer_substrings by lia. unfold len in *.
  set (n := String.length read) in *.
  replace (Z.to_nat (Z.of_nat n - (k - 1) + 1)) with (S (n - Z.to_nat (k - 1))) by lia.
  destruct (Z.to_nat (k - 1)) as [|m] eqn:Em; [lia|].
  cbn [seq map contig_of_path].
  pose proof (extend_contig_windows read m (n - S m) O) as H.
  rewrite Nat.add_0_r in H. rewrite H by (fold n; lia). cbn [bind].
  replace (S m + (n - S m))%nat with n by lia.
  unfold n. rewrite substring_full. reflexivity.
Qed.

(** X5. For k >= 2, the (k-1)-mers of a read are a walk of the graph: the
    steps between consecutive (k-1)-mers are the edges of the k-mers of
    the read, in order. And the contig spelled along this walk, as
    [get_contigs] spells a path, is the read itself, with its length. *)
Theorem read_walk_contig (read : string) (k : Z) :
  2 <= k ->
  steps (cut_kmer read (k - 1))
  = map (fun kmer => (slice kmer None (Some (-1)), slice kmer (Some 1) None))
        (cut_kmer read k)
  /\ (k - 1 <= len read -> contig_of_path (cut_kmer read (k - 1)) = Ok (read, len read)).
Proof.
  intros Hk. split; [now apply steps_cut_kmer|]. intros Hlen.
  now apply contig_of_cut_kmer.
Qed.

(** *** What the removal of nodes leaves *)

Lemma filter_filter {A : Type} (p q : A -> bool) (l : list A) :
  filter q (filter p l) = filter (fun x => p x && q x) l.
Proof.
  induction l as [|x l IH]; cbn; [reflexivity|].
  destruct (p x); cbn; [destruct (q x); now rewrite IH|exact IH].
Qed.

Lemma mem_app (x : string) (l1 l2 : list string) :
  mem x (l1 ++ l2) = mem x l1 || mem x l2.
Proof. unfold mem. apply existsb_app. Qed.

Lemma without_nil (g : DiGraph) : without g [] = g.
Proof.
  destruct g as [ns es]. unfold without. cbn. f_equal.
  - induction ns as [|n ns IH]; cbn; [reflexivity|now rewrite IH].
  - induction es as [|e es IH]; cbn; [reflexivity|now rewrite IH].
Qed.

Lemma without_without (g : DiGraph) (r1 r2 : list string) :
  without (without g r1) r2 = without g (r1 ++ r2).
Proof.
  unfold without. cbn. rewrite !filter_filter. f_equal.
  - apply filter_ext. intros n. rewrite mem_app. now destruct (mem n r1), (mem n r2).
  - apply filter_ext. intros e. rewrite !mem_app.
    destruct (mem (src e) r1), (mem (src e) r2), (mem (dst e) r1), (mem (dst e) r2);
      reflexivity.
Qed.

Lemma delete_node_without (g : DiGraph) (n : string) : delete_node g n = without g [n].
Proof.
  unfold delete_node, without. f_equal.
  - apply filter_ext. intros x. cbn. now rewrite orb_false_r.
  - apply filter_ext. intros e. cbn. now rewrite !orb_false_r.
Qed.

Lemma wf_without (g : DiGraph) (removed : list string) : wf g -> wf (without g removed).
Proof.
  intros [Hn [Hk He]]. split; [|split]; cbn.
  - now apply NoDup_filter.
  - now apply filter_keeps_NoDup_map.
  - intros e Hin. apply filter_In in Hin as [Hin Hends].
    apply andb_true_iff in Hends as [Hs Hd]. destruct (He e Hin).
    rewrite !filter_In. auto.
Qed.

(** Taking away a node that is not in the graph changes nothing. *)
Lemma without_absent (g : DiGraph) (n : string) :
  wf g -> ~ In n (nodes g) -> without g [n] = g.
Proof.
  intros [_ [_ He]] Hn. destruct g as [ns es]. unfold without. cbn in *. f_equal.
  - rewrite <- (filter_ext_in (fun _ => true)).
    + clear. induction ns as [|x ns IH]; cbn; [reflexivity|now rewrite IH].
    + intros x Hx. rewrite orb_false_r. symmetry. apply negb_true_iff, String.eqb_neq.
      intros ->. contradiction.
  - rewrite <- (filter_ext_in (fun _ => true)).
    + clear. induction es as [|x es IH]; cbn; [reflexivity|now rewrite IH].
    + intros e Hin. destruct (He e Hin) as [Hs Hd]. rewrite !orb_false_r.
      symmetry. apply andb_true_iff.
      split; apply negb_true_iff, String.eqb_neq; intros E; rewrite E in *; contradiction.
Qed.

Lemma remove_nodes_without (ns : list string) :
  forall g g', remove_nodes g ns = Ok g' -> g' = without g ns.
Proof.
  induction ns as [|n ns IH]; intros g g' H; cbn in H.
  - injection H as <-. symmetry. apply without_nil.
  - unfold remove_node in H. destruct (has_node g n); [|discriminate]. cbn in H.
    apply IH in H. rewrite H, delete_node_without, without_without. reflexivity.
Qed.

Lemma remove_nodes_from_without (ns : list string) :
  forall g, wf g -> remove_nodes_from g ns = without g ns.
Proof.
  unfold remove_nodes_from.
  induction ns as [|n ns IH]; intros g Hwf; cbn [fold_left].
  - symmetry. apply without_nil.
  - change (n :: ns) with ([n] ++ ns). rewrite <- without_without.
    unfold has_node. destruct (mem n (nodes g)) eqn:E.
    + rewrite delete_node_without. apply IH. now apply wf_without.
    + apply mem_not_In in E. rewrite (without_absent g n Hwf E). now apply IH.
Qed.

Lemma remove_paths_without (ps : list (list string)) (de ds : bool) :
  forall g g', wf g -> remove_paths g ps de ds = Ok g' ->
               g' = without g (removed_nodes ps de ds).
Proof.
  induction ps as [|p ps IH]; intros g g' Hwf H; cbn in H.
  - injection H as <-. symmetry. apply without_nil.
  - destruct (remove_path g p de ds) as [g1|] eqn:Hp; [|discriminate]. cbn in H.
    assert (Hg1 : g1 = without g (removed_part p de ds)).
    { unfold remove_path, removed_part in *. destruct (de && ds).
      - injection Hp as <-. now apply remove_nodes_from_without.
      - now apply remove_nodes_without. }
    apply IH in H; [|rewrite Hg1; now apply wf_without].
    rewrite H, Hg1, without_without. reflexivity.
Qed.

(** What a user reads off [without]: the nodes and edges that are left
    were there before, with the same weights, and every edge between two
    nodes that are left is left. *)
Lemma without_frame (g : DiGraph) (removed : list string) :
  wf g ->
  let g' := without g removed in
  (forall n, In n (nodes g') <-> In n (nodes g) /\ ~ In n removed)
  /\ (forall e, In e (edges g') <->
                In e (edges g) /\ In (src e) (nodes g') /\ In (dst e) (nodes g')).
Proof.
  intros [_ [_ He]] g'. subst g'. cbn. split.
  - intros n. now rewrite filter_In, negb_true_iff, mem_not_In.
  - intros e. rewrite !filter_In, andb_true_iff, !negb_true_iff, !mem_not_In.
    split; [|tauto]. intros [Hin [Hs Hd]]. destruct (He e Hin). tauto.
Qed.

(** X6. [remove_paths] returns a graph exactly when both flags are set or
    the nodes to delete, taken over all the paths, are distinct nodes of
    the graph; the only exception it raises is [NetworkXError], from
    [remove_node] on a node that is no longer there. The graph it returns
    is the graph without the nodes to delete: the other nodes and all the
    edges between them are kept, in their order. *)
Theorem remove_paths_errors (graph : DiGraph) (path_list : list (list string))
        (delete_entry_node delete_sink_node : bool) :
  ((exists g, remove_paths graph path_list delete_entry_node delete_sink_node = Ok g)
   <-> removal_safe graph path_list delete_entry_node delete_sink_node)
  /\ (forall e, remove_paths graph path_list delete_entry_node delete_sink_node = Raise e ->
                e = NetworkXError)
  /\ (forall g, wf graph ->
                remove_paths graph path_list delete_entry_node delete_sink_node = Ok g ->
                wf g
                /\ g = without graph
                         (removed_nodes path_list delete_entry_node delete_sink_node)).
Proof.
  split; [|split].
  - split.
    + intros [g Hg]. destruct (delete_entry_node && delete_sink_node) eqn:E.
      * left. exact E.
      * right. eapply remove_paths_ok_inv; eassumption.
    + apply remove_paths_success.
  - intros e. apply remove_paths_raise.
  - intros g Hwf Hg. apply remove_paths_without in Hg; [|assumption].
    subst g. split; [now apply wf_without|reflexivity].
Qed.

Section Frames.

Context {RT : Runtime}.

Lemma select_best_path_without (graph : DiGraph) (path_list : list (list string))
      (path_length : list Z) (weight_avg_list : list Q) (de ds : bool)
      (w : world) (g' : DiGraph) (w' : world) :
  wf graph ->
  select_best_path graph path_list path_length weight_avg_list de ds w = Ok (g', w') ->
  exists i,
    best_path_index path_length weight_avg_list w = Ok (i, w')
    /\ g' = without graph (removed_nodes (drop_index i path_list) de ds).
Proof.
  intros Hwf H. unfold select_best_path in H.
  destruct (best_path_index path_length weight_avg_list w) as [[i w1]|]; [|discriminate].
  cbn [bind fst snd] in H.
  destruct (remove_paths graph (drop_index i path_list) de ds) as [g1|] eqn:Hrem;
    [|discriminate].
  cbn [bind] in H. injection H as <- <-. exists i. split; [reflexivity|].
  now apply remove_paths_without.
Qed.

Lemma pruned_refl (g : DiGraph) : pruned g g.
Proof. exists []. symmetry. apply without_nil. Qed.

Lemma pruned_trans (g1 g2 g3 : DiGraph) : pruned g1 g2 -> pruned g2 g3 -> pruned g1 g3.
Proof.
  intros [r1 ->] [r2 ->]. exists (r1 ++ r2). apply without_without.
Qed.

Lemma wf_pruned (g g' : DiGraph) : wf g -> pruned g g' -> wf g'.
Proof. intros Hwf [r ->]. now apply wf_without. Qed.

Lemma select_best_path_pruned (graph : DiGraph) (path_list : list (list string))
      (path_length : list Z) (weight_avg_list : list Q) (de ds : bool)
      (w : world) (r : DiGraph * world) :
  wf graph ->
  select_best_path graph path_list path_length weight_avg_list de ds w = Ok r ->
  pruned graph (fst r).
Proof.
  intros Hwf H. destruct r as [g' w'].
  destruct (select_best_path_without _ _ _ _ _ _ _ _ _ Hwf H) as [i [_ ->]].
  now eexists.
Qed.

Lemma simplify_bubbles_pruned (depth : nat) :
  forall graph w g' w',
    wf graph -> simplify_bubbles depth graph w = Ok (g', w') -> pruned graph g'.
Proof.
  induction depth as [|depth IH]; intros graph w g' w' Hwf H; cbn [simplify_bubbles] in H;
    [discriminate|].
  destruct (scan_nodes graph (nodes graph) None) as [[[a n]|]|]; cbn [bind] in H;
    [| |discriminate].
  - destruct (solve_bubble graph a n w) as [r|] eqn:Hsolve; cbn [bind] in H; [|discriminate].
    assert (Hr : pruned graph (fst r)).
    { unfold solve_bubble in Hsolve. destruct a as [a|]; [|discriminate].
      destruct (all_simple_paths graph a n) as [path_list|]; [|discriminate].
      cbn [bind] in Hsolve.
      destruct (average_weights graph path_list) as [ws|]; [|discriminate].
      cbn [bind] in Hsolve. eapply select_best_path_pruned; eassumption. }
    eapply pruned_trans; [exact Hr|]. eapply IH; [|exact H].
    eapply wf_pruned; eassumption.
  - injection H as <- <-. apply pruned_refl.
Qed.

Lemma solve_entry_tips_pruned (depth : nat) :
  forall graph starting_nodes w g' w',
    wf graph -> solve_entry_tips depth graph starting_nodes w = Ok (g', w') ->
    pruned graph g'.
Proof.
  induction depth as [|depth IH]; intros graph starts w g' w' Hwf H;
    cbn [solve_entry_tips] in H; [discriminate|].
  destruct (scan_entry graph starts (nodes graph)) as [[path_list|]|]; cbn [bind] in H;
    [| |discriminate].
  - destruct (1 <? List.length path_list)%nat.
    + destruct (average_weights graph path_list) as [ws|]; [|discriminate].
      cbn [bind] in H.
      destruct (select_best_path graph path_list (lengths_of path_list) ws true false w)
        as [r|] eqn:Hsel; [|discriminate].
      cbn [bind] in H.
      pose proof (select_best_path_pruned _ _ _ _ _ _ _ _ Hwf Hsel) as Hr.
      eapply pruned_trans; [exact Hr|]. eapply IH; [|exact H].
      eapply wf_pruned; eassumption.
    + injection H as <- <-. apply pruned_refl.
  - injection H as <- <-. apply pruned_refl.
Qed.

Lemma solve_out_tips_pruned (depth : nat) :
  forall graph ending_nodes w g' w',
    wf graph -> solve_out_tips depth graph ending_nodes w = Ok (g', w') ->
    pruned graph g'.
Proof.
  induction depth as [|depth IH]; intros graph ends w g' w' Hwf H;
    cbn [solve_out_tips] in H; [discriminate|].
  destruct (scan_out graph ends (nodes graph)) as [[path_list|]|]; cbn [bind] in H;
    [| |discriminate].
  - destruct (1 <? List.length path_list)%nat.
    + destruct (average_weights graph path_list) as [ws|]; [|discriminate].
      cbn [bind] in H.
      destruct (select_best_path graph path_list (lengths_of path_list) ws false true w)
        as [r|] eqn:Hsel; [|discriminate].
      cbn [bind] in H.
      pose proof (select_best_path_pruned _ _ _ _ _ _ _ _ Hwf Hsel) as Hr.
      eapply pruned_trans; [exact Hr|]. eapply IH; [|exact H].
      eapply wf_pruned; eassumption.
    + injection H as <- <-. apply pruned_refl.
  - injection H as <- <-. apply pruned_refl.
Qed.

End Frames.

(** *** The rounds of the tip trimmers *)

Lemma filter_length_lt {A : Type} (f : A -> bool) (l : list A) (x : A) :
  In x l -> f x = false -> (List.length (filter f l) < List.length l)%nat.
Proof.
  induction l as [|y l IH]; intros Hin Hx; [destruct Hin|].
  pose proof (filter_length_le f l). cbn.
  destruct Hin as [->|Hin].
  - rewrite Hx. lia.
  - specialize (IH Hin Hx). destruct (f y); cbn; lia.
Qed.

Lemma remove_nodes_length (ns : list string) :
  forall g g', remove_nodes g ns = Ok g' ->
               (List.length (nodes g') + List.length ns <= List.length (nodes g))%nat.
Proof.
  induction ns as [|n ns IH]; intros g g' H; cbn in H.
  - injection H as <-. cbn. lia.
  - unfold remove_node, has_node in H. destruct (mem n (nodes g)) eqn:E; [|discriminate].
    cbn in H. apply IH in H. apply mem_In in E.
    assert (List.length (nodes (delete_node g n)) < List.length (nodes g))%nat.
    { cbn. apply (filter_length_lt _ _ n E). now rewrite String.eqb_refl. }
    cbn [List.length]. lia.
Qed.

Lemma remove_paths_length (ps : list (list string)) (de ds : bool) :
  de && ds = false ->
  forall g g', remove_paths g ps de ds = Ok g' ->
               (List.length (nodes g') + List.length (removed_nodes ps de ds)
                <= List.length (nodes g))%nat.
Proof.
  intros Hflags. induction ps as [|p ps IH]; intros g g' H; cbn in H.
  - injection H as <-. cbn. lia.
  - destruct (remove_path g p de ds) as [g1|] eqn:Hp; [|discriminate]. cbn in H.
    unfold remove_path in Hp. rewrite Hflags in Hp.
    apply remove_nodes_length in Hp. apply IH in H.
    unfold removed_nodes in *. cbn [flat_map]. rewrite length_app. lia.
Qed.

Lemma length_drop_index {A : Type} (l : list A) :
  forall i, (List.length l <= S (List.length (drop_index i l)))%nat.
Proof.
  induction l as [|x l IH]; intros i; [destruct i; cbn; lia|].
  destruct i as [|i]; cbn; [lia|]. specialize (IH i). lia.
Qed.

Lemma visit_prefix (g : DiGraph) (targets : list string) (depth : nat) :
  forall path n p, In p (visit g targets depth path n) ->
                   exists rest, p = path ++ n :: rest.
Proof.
  induction depth as [|depth IH]; intros path n p Hin; cbn [visit] in Hin;
    apply in_app_or in Hin as [Hin|Hin].
  - destruct (mem n targets); [|destruct Hin]. destruct Hin as [<-|[]]. now exists [].
  - destruct Hin.
  - destruct (mem n targets); [|destruct Hin]. destruct Hin as [<-|[]]. now exists [].
  - destruct (existsb _ targets); [|destruct Hin].
    apply in_flat_map in Hin as [m [_ Hp]].
    apply IH in Hp as [rest ->]. exists (m :: rest). now rewrite <- app_assoc.
Qed.

Lemma all_simple_paths_head (g : DiGraph) (source target : string)
      (paths : list (list string)) :
  all_simple_paths g source target = Ok paths ->
  forall p, In p paths -> exists rest, p = source :: rest.
Proof.
  intros H p Hp. unfold all_simple_paths in H.
  destruct (has_node g source); [|discriminate].
  destruct (nodes g) as [|n0 ns]; [injection H as <-; destruct Hp|].
  destruct (if has_node g target then [target] else chars target) as [|t ts];
    [injection H as <-; destruct Hp|].
  injection H as <-. apply visit_prefix in Hp as [rest ->]. now exists rest.
Qed.

(** The paths gathered between pairs of nodes: each goes from the first
    node of a pair to the second, without passing twice by a node. *)
Lemma paths_between_ends (g : DiGraph) (pairs : list (string * string)) :
  forall paths,
    paths_between g pairs = Ok paths ->
    forall p, In p paths ->
              exists s t rest q,
                In (s, t) pairs /\ p = s :: rest /\ p = q ++ [t] /\ ~ In t q.
Proof.
  induction pairs as [|[s t] pairs IH]; intros paths H p Hp; cbn in H.
  - injection H as <-. destruct Hp.
  - destruct (has_path g s t) as [h|] eqn:Hh; [|discriminate]. cbn [bind] in H.
    destruct (if h then all_simple_paths g s t else Ok []) as [ps|] eqn:Hps;
      [|discriminate].
    cbn [bind] in H.
    destruct (paths_between g pairs) as [qs|] eqn:Hqs; [|discriminate].
    cbn [bind] in H. injection H as <-.
    apply in_app_or in Hp as [Hp|Hp].
    + destruct h; [|injection Hps as <-; destruct Hp].
      assert (Ht : has_node g t = true).
      { unfold has_path in Hh. destruct (has_node g s && has_node g t) eqn:E;
          [|discriminate]. now apply andb_true_iff in E. }
      destruct (all_simple_paths_head _ _ _ _ Hps p Hp) as [rest Hrest].
      destruct (all_simple_paths_shape _ _ _ _ Ht Hps p Hp) as [q [Hq Hnot]].
      exists s, t, rest, q. repeat split; auto. now left.
    + destruct (IH _ eq_refl p Hp) as [s' [t' [rest [q [Hin Hrest]]]]].
      exists s', t', rest, q. split; [now right|exact Hrest].
Qed.

Lemma scan_entry_found (g : DiGraph) (starting_nodes ns : list string)
      (path_list : list (list string)) :
  scan_entry g starting_nodes ns = Ok (Some path_list) ->
  exists node,
    ~ In node starting_nodes
    /\ paths_between g (map (fun s => (s, node)) starting_nodes) = Ok path_list.
Proof.
  induction ns as [|node ns IH]; cbn [scan_entry]; [discriminate|].
  destruct (negb (mem node starting_nodes)
            && (1 <? List.length (predecessors g node))%nat) eqn:E; [|exact IH].
  intros H. apply andb_true_iff in E as [E _].
  apply negb_true_iff, mem_not_In in E. exists node. split; [assumption|].
  destruct (paths_between g (map (fun s => (s, node)) starting_nodes)); [|discriminate].
  cbn in H. congruence.
Qed.

Lemma scan_out_found (g : DiGraph) (ending_nodes ns : list string)
      (path_list : list (list string)) :
  scan_out g ending_nodes ns = Ok (Some path_list) ->
  exists node,
    ~ In node ending_nodes
    /\ paths_between g (map (fun e => (node, e)) ending_nodes) = Ok path_list.
Proof.
  induction ns as [|node ns IH]; cbn [scan_out]; [discriminate|].
  destruct (negb (mem node ending_nodes)
            && (1 <? List.length (successors g node))%nat) eqn:E; [|exact IH].
  intros H. apply andb_true_iff in E as [E _].
  apply negb_true_iff, mem_not_In in E. exists node. split; [assumption|].
  destruct (paths_between g (map (fun e => (node, e)) ending_nodes)); [|discriminate].
  cbn in H. congruence.
Qed.

Lemma within_depth_bind {A B : Type} (c : result A) (k : A -> result B) :
  within_depth c -> (forall a, c = Ok a -> within_depth (k a)) ->
  within_depth (bind c k).
Proof.
  unfold within_depth. intros Hc Hk. destruct c as [a|e]; cbn.
  - now apply Hk.
  - intros E. apply Hc. congruence.
Qed.

Lemma within_depth_Ok {A : Type} (a : A) : within_depth (Ok a).
Proof. discriminate. Qed.

Lemma has_path_within (g : DiGraph) (s t : string) : within_depth (has_path g s t).
Proof. unfold has_path. destruct (has_node g s && has_node g t); discriminate. Qed.

Lemma all_simple_paths_within (g : DiGraph) (s t : string) :
  within_depth (all_simple_paths g s t).
Proof.
  unfold all_simple_paths. destruct (has_node g s); [|discriminate].
  destruct (nodes g); [discriminate|].
  destruct (if has_node g t then [t] else chars t); discriminate.
Qed.

Lemma paths_between_within (g : DiGraph) (pairs : list (string * string)) :
  within_depth (paths_between g pairs).
Proof.
  induction pairs as [|[s t] pairs IH]; cbn [paths_between]; [discriminate|].
  apply within_depth_bind; [apply has_path_within|]. intros h _.
  apply within_depth_bind.
  { destruct h; [apply all_simple_paths_within|discriminate]. }
  intros ps _. apply within_depth_bind; [exact IH|]. intros; discriminate.
Qed.

Lemma scan_entry_within (g : DiGraph) (starting_nodes ns : list string) :
  within_depth (scan_entry g starting_nodes ns).
Proof.
  induction ns as [|node ns IH]; cbn [scan_entry]; [discriminate|].
  destruct (negb (mem node starting_nodes)
            && (1 <? List.length (predecessors g node))%nat); [|exact IH].
  apply within_depth_bind; [apply paths_between_within|]. intros; discriminate.
Qed.

Lemma scan_out_within (g : DiGraph) (ending_nodes ns : list string) :
  within_depth (scan_out g ending_nodes ns).
Proof.
  induction ns as [|node ns IH]; cbn [scan_out]; [discriminate|].
  destruct (negb (mem node ending_nodes)
            && (1 <? List.length (successors g node))%nat); [|exact IH].
  apply within_depth_bind; [apply paths_between_within|]. intros; discriminate.
Qed.

Lemma mean_within (data : list Q) : within_depth (Stat.mean data).
Proof. destruct data; discriminate. Qed.

Lemma mean_of_ints_within (data : list Z) : within_depth (Stat.mean_of_ints data).
Proof.
  unfold Stat.mean_of_ints. destruct data as [|x data]; [discriminate|].
  destruct (_ =? 0); [discriminate|]. unfold Stat.to_float.
  destruct (_ =? 0); [discriminate|]. destruct (Stat.scale _ _ _) as [a b].
  destruct (0 <=? _); [|discriminate]. destruct (_ <=? _); discriminate.
Qed.

Lemma stdev_positive_within (data : list Q) : within_depth (Stat.stdev_positive data).
Proof.
  unfold Stat.stdev_positive, Stat.variance.
  destruct data as [|x [|y data]]; try discriminate.
Qed.

Lemma index_of_max_within (l : list Q) : within_depth (Stat.index_of_max l).
Proof.
  unfold Stat.index_of_max. destruct (Stat.max l) as [m|]; [|discriminate].
  destruct (Stat.index m l); discriminate.
Qed.

Lemma average_weights_within (g : DiGraph) (path_list : list (list string)) :
  within_depth (average_weights g path_list).
Proof.
  induction path_list as [|p ps IH]; cbn [average_weights]; [discriminate|].
  apply within_depth_bind; [apply mean_of_ints_within|]. intros a _.
  apply within_depth_bind; [exact IH|]. intros; discriminate.
Qed.

Lemma remove_paths_within (g : DiGraph) (ps : list (list string)) (de ds : bool) :
  within_depth (remove_paths g ps de ds).
Proof.
  intros H. apply remove_paths_raise in H. discriminate.
Qed.

Section Rounds.

Context {RT : Runtime}.

Lemma best_path_index_within (path_length : list Z) (weight_avg_list : list Q) (w : world) :
  within_depth (best_path_index path_length weight_avg_list w).
Proof.
  unfold best_path_index.
  apply within_depth_bind; [apply stdev_positive_within|]. intros sw _.
  destruct sw.
  - apply within_depth_bind; [apply index_of_max_within|]. intros; discriminate.
  - apply within_depth_bind; [apply stdev_positive_within|]. intros sl _.
    destruct sl.
    + apply within_depth_bind; [apply index_of_max_within|]. intros; discriminate.
    + apply within_depth_bind; [|intros; discriminate].
      unfold random_randint. destruct (_ <? 0); [discriminate|].
      destruct (randint _ _ _). discriminate.
Qed.

Lemma select_best_path_within (g : DiGraph) (path_list : list (list string))
      (path_length : list Z) (weight_avg_list : list Q) (de ds : bool) (w : world) :
  within_depth (select_best_path g path_list path_length weight_avg_list de ds w).
Proof.
  unfold select_best_path.
  apply within_depth_bind; [apply best_path_index_within|]. intros b _.
  apply within_depth_bind; [apply remove_paths_within|]. intros; discriminate.
Qed.

(** A round of a tip trimmer that returns has deleted a node. *)
Lemma tip_round_shrinks (g : DiGraph) (path_list : list (list string))
      (weight_avg_list : list Q) (de ds : bool) (w : world) (r : DiGraph * world) :
  de && ds = false ->
  (2 <= List.length path_list)%nat ->
  (forall p, In p path_list -> removed_part p de ds <> []) ->
  select_best_path g path_list (lengths_of path_list) weight_avg_list de ds w = Ok r ->
  (List.length (nodes (fst r)) < List.length (nodes g))%nat.
Proof.
  intros Hflags Hlen Hparts H. unfold select_best_path in H.
  destruct (best_path_index (lengths_of path_list) weight_avg_list w) as [[i w1]|];
    [|discriminate].
  cbn [bind fst snd] in H.
  destruct (remove_paths g (drop_index i path_list) de ds) as [g1|] eqn:Hrem;
    [|discriminate].
  cbn [bind] in H. injection H as <-. cbn [fst].
  apply (remove_paths_length _ _ _ Hflags) in Hrem.
  pose proof (length_drop_index path_list i) as Hdrop.
  destruct (drop_index i path_list) as [|p ps] eqn:E; [cbn in Hdrop; lia|].
  assert (Hp : In p path_list).
  { apply (drop_index_In path_list i). rewrite E. now left. }
  specialize (Hparts p Hp). unfold removed_nodes in Hrem. cbn [flat_map] in Hrem.
  rewrite length_app in Hrem. destruct (removed_part p de ds); [congruence|].
  cbn [List.length] in Hrem. lia.
Qed.

Lemma solve_entry_tips_depth (depth : nat) :
  forall graph starting_nodes w,
    (List.length (nodes graph) < depth)%nat ->
    within_depth (solve_entry_tips depth graph starting_nodes w).
Proof.
  induction depth as [|depth IH]; intros graph starts w Hdepth; [lia|].
  cbn [solve_entry_tips].
  apply within_depth_bind; [apply scan_entry_within|]. intros found Hscan.
  destruct found as [path_list|]; [|discriminate].
  destruct (1 <? List.length path_list)%nat eqn:Hlen; [|discriminate].
  apply Nat.ltb_lt in Hlen.
  apply within_depth_bind; [apply average_weights_within|]. intros ws _.
  apply within_depth_bind; [apply select_best_path_within|]. intros r Hsel.
  apply IH.
  assert (List.length (nodes (fst r)) < List.length (nodes graph))%nat; [|lia].
  apply (tip_round_shrinks graph path_list ws true false w r);
    [reflexivity|lia| |exact Hsel].
  intros p Hp. apply scan_entry_found in Hscan as [node [Hnode Hpaths]].
  destruct (paths_between_ends _ _ _ Hpaths p Hp)
    as [s [t [rest [q [Hpair [Hrest [Hq _]]]]]]].
  apply in_map_iff in Hpair as [s' [E Hs']]. injection E as -> ->.
  cbn. rewrite Hq, removelast_last. intros ->. cbn in Hq.
  rewrite Hrest in Hq. injection Hq as -> _. contradiction.
Qed.

Lemma solve_out_tips_depth (depth : nat) :
  forall graph ending_nodes w,
    (List.length (nodes graph) < depth)%nat ->
    within_depth (solve_out_tips depth graph ending_nodes w).
Proof.
  induction depth as [|depth IH]; intros graph ends w Hdepth; [lia|].
  cbn [solve_out_tips].
  apply within_depth_bind; [apply scan_out_within|]. intros found Hscan.
  destruct found as [path_list|]; [|discriminate].
  destruct (1 <? List.length path_list)%nat eqn:Hlen; [|discriminate].
  apply Nat.ltb_lt in Hlen.
  apply within_depth_bind; [apply average_weights_within|]. intros ws _.
  apply within_depth_bind; [apply select_best_path_within|]. intros r Hsel.
  apply IH.
  assert (List.length (nodes (fst r)) < List.length (nodes graph))%nat; [|lia].
  apply (tip_round_shrinks graph path_list ws false true w r);
    [reflexivity|lia| |exact Hsel].
  intros p Hp. apply scan_out_found in Hscan as [node [Hnode Hpaths]].
  destruct (paths_between_ends _ _ _ Hpaths p Hp)
    as [s [t [rest [q [Hpair [Hrest [Hq _]]]]]]].
  apply in_map_iff in Hpair as [e' [E He']]. injection E as -> ->.
  rewrite Hrest in Hq. rewrite Hrest. cbn. intros ->.
  destruct q as [|x q]; cbn in Hq.
  - injection Hq as ->. contradiction.
  - injection Hq as _ Hq. destruct q; discriminate.
Qed.

End Rounds.

(** *** The paths that are enumerated *)

Lemma visit_walk (g : DiGraph) (targets : list string) (depth : nat) :
  forall path n p, In p (visit g targets depth path n) ->
                   exists rest, p = path ++ n :: rest /\ walk g n rest.
Proof.
  induction depth as [|depth IH]; intros path n p Hin; cbn [visit] in Hin;
    apply in_app_or in Hin as [Hin|Hin].
  - destruct (mem n targets); [|destruct Hin]. destruct Hin as [<-|[]].
    exists []. split; [reflexivity|exact I].
  - destruct Hin.
  - destruct (mem n targets); [|destruct Hin]. destruct Hin as [<-|[]].
    exists []. split; [reflexivity|exact I].
  - destruct (existsb _ targets); [|destruct Hin].
    apply in_flat_map in Hin as [m [Hm Hp]]. apply filter_In in Hm as [Hm _].
    apply IH in Hp as [rest [-> Hwalk]]. exists (m :: rest).
    split; [now rewrite <- app_assoc|]. split; assumption.
Qed.

Lemma last_cons_In {A : Type} (x : A) (l : list A) (d : A) :
  l <> [] -> In (last (x :: l) d) l.
Proof.
  revert x. induction l as [|y l IH]; intros x Hne; [congruence|].
  destruct l as [|z l]; [now left|]. right. apply (IH y). discriminate.
Qed.

Lemma last_default {A : Type} (x : A) (l : list A) (d d' : A) :
  last (x :: l) d = last (x :: l) d'.
Proof.
  revert x. induction l as [|y l IH]; intros x; [reflexivity|].
  change (last (y :: l) d = last (y :: l) d'). apply IH.
Qed.

Lemma visit_complete (g : DiGraph) (t : string) :
  forall rest path n depth,
    NoDup (path ++ n :: rest) -> walk g n rest -> last (n :: rest) n = t ->
    (List.length rest <= depth)%nat ->
    In (path ++ n :: rest) (visit g [t] depth path n).
Proof.
  induction rest as [|m rest IH]; intros path n depth Hnd Hwalk Hlast Hdepth.
  - cbn in Hlast. subst t. destruct depth; cbn [visit]; apply in_or_app; left;
      unfold mem; cbn; rewrite String.eqb_refl; now left.
  - destruct depth as [|depth]; [cbn in Hdepth; lia|].
    destruct Hwalk as [Hm Hwalk]. cbn [visit]. apply in_or_app. right.
    assert (Hnd' : NoDup ((path ++ [n]) ++ m :: rest)) by now rewrite <- app_assoc.
    apply NoDup_app_inv in Hnd' as [_ [_ Hdisj]].
    assert (Ht : ~ In t (path ++ [n])).
    { intros Hin. apply (Hdisj t Hin). rewrite <- Hlast.
      change (last (n :: m :: rest) n) with (last (m :: rest) n).
      destruct rest as [|x rest]; [now left|].
      right. apply (last_cons_In m (x :: rest) n). discriminate. }
    apply mem_not_In in Ht. cbn [existsb]. rewrite Ht. cbn [negb orb].
    apply in_flat_map. exists m. split.
    + apply filter_In. split; [assumption|].
      apply negb_true_iff, mem_not_In. intros Hin. apply (Hdisj m Hin). now left.
    + replace (path ++ n :: m :: rest) with ((path ++ [n]) ++ m :: rest)
        by now rewrite <- app_assoc.
      apply IH.
      * now rewrite <- app_assoc.
      * assumption.
      * rewrite <- Hlast. change (last (n :: m :: rest) n) with (last (m :: rest) n).
        apply last_default.
      * cbn in Hdepth. lia.
Qed.

Lemma walk_nodes (g : DiGraph) :
  wf g -> forall rest n, walk g n rest -> forall x, In x rest -> In x (nodes g).
Proof.
  intros Hwf. induction rest as [|m rest IH]; intros n Hwalk x Hx; [destruct Hx|].
  destruct Hwalk as [Hm Hwalk]. destruct Hx as [<-|Hx].
  - eapply successors_nodes; eassumption.
  - eapply IH; eassumption.
Qed.

Lemma walk_reaches (g : DiGraph) :
  forall rest n, walk g n rest -> reaches g n (last (n :: rest) n).
Proof.
  induction rest as [|m rest IH]; intros n Hwalk; [constructor|].
  destruct Hwalk as [Hm Hwalk]. eapply reaches_edge; [exact Hm|].
  specialize (IH m Hwalk).
  change (last (n :: m :: rest) n) with (last (m :: rest) n).
  now rewrite (last_default m rest n m).
Qed.

(** [all_simple_paths] lists the simple paths from the source to the
    target, and nothing else. *)
Lemma all_simple_paths_exact (g : DiGraph) (s t : string) :
  wf g -> In s (nodes g) -> In t (nodes g) ->
  exists paths,
    all_simple_paths g s t = Ok paths
    /\ forall p, In p paths <-> simple_path_between g s t p.
Proof.
  intros Hwf Hs Ht. unfold all_simple_paths, has_node.
  pose proof Hs as Hs'. pose proof Ht as Ht'.
  apply mem_In in Hs', Ht'. rewrite Hs', Ht'.
  destruct (nodes g) as [|n0 ns] eqn:Hnodes; [destruct Hs|].
  eexists. split; [reflexivity|]. intros p. split.
  - intros Hp.
    destruct (visit_walk _ _ _ _ _ _ Hp) as [rest [-> Hwalk]].
    apply visit_simple in Hp as [Hnd [q [t' [Hq Ht'']]]];
      [|repeat constructor; intros []].
    destruct Ht'' as [<-|[]]. exists rest. cbn [app] in *.
    repeat split; try assumption. rewrite Hq. apply last_last.
  - intros [rest [-> [Hlast [Hnd Hwalk]]]].
    apply (visit_complete g t rest [] s); try assumption.
    assert (Hincl : incl (s :: rest) (n0 :: ns)).
    { intros x [<-|Hx]; [assumption|]. rewrite <- Hnodes.
      eapply walk_nodes; eassumption. }
    pose proof (NoDup_incl_length Hnd Hincl) as Hlen. cbn in Hlen. lia.
Qed.

Lemma contigs_of_paths_In (paths : list (list string)) :
  forall contigs,
    contigs_of_paths paths = Ok contigs ->
    forall c, In c contigs <-> exists p, In p paths /\ contig_of_path p = Ok c.
Proof.
  induction paths as [|p paths IH]; intros contigs H c; cbn in H.
  - injection H as <-. split; [intros []|intros [p [[] _]]].
  - destruct (contig_of_path p) as [c0|] eqn:Hc0; [|discriminate]. cbn [bind] in H.
    destruct (contigs_of_paths paths) as [cs|]; [|discriminate]. cbn [bind] in H.
    injection H as <-. cbn. rewrite (IH cs eq_refl). split.
    + intros [<-|[q [Hq Hc]]]; [exists p; auto|exists q; auto].
    + intros [q [[<-|Hq] Hc]]; [left; congruence|right; eauto].
Qed.

Lemma contig_of_path_length (p : list string) (c : string * Z) :
  contig_of_path p = Ok c -> snd c = len (fst c).
Proof.
  unfold contig_of_path. destruct p as [|first rest]; [discriminate|].
  destruct (extend_contig first rest); [|discriminate]. cbn.
  intros H. injection H as <-. reflexivity.
Qed.

Lemma contigs_between_In (g : DiGraph) (pairs : list (string * string)) :
  wf g ->
  (forall s e, In (s, e) pairs -> In s (nodes g) /\ In e (nodes g)) ->
  forall contigs,
    contigs_between g pairs = Ok contigs ->
    forall c, In c contigs <->
              exists s e p, In (s, e) pairs /\ simple_path_between g s e p
                            /\ contig_of_path p = Ok c.
Proof.
  intros Hwf. induction pairs as [|[s e] pairs IH]; intros Hpairs contigs H c; cbn in H.
  - injection H as <-. split; [intros []|intros [s [e [p [[] _]]]]].
  - destruct (Hpairs s e (or_introl eq_refl)) as [Hs He].
    destruct (has_path_spec g s e Hwf Hs He) as [h [Hh Hreach]].
    rewrite Hh in H. cbn [bind] in H.
    destruct (all_simple_paths_exact g s e Hwf Hs He) as [paths [Hpaths Hexact]].
    destruct (if h then all_simple_paths g s e else Ok []) as [ps|] eqn:Hps;
      [|discriminate].
    cbn [bind] in H.
    destruct (contigs_of_paths ps) as [cs|] eqn:Hcs; [|discriminate]. cbn [bind] in H.
    destruct (contigs_between g pairs) as [ds|] eqn:Hds; [|discriminate].
    cbn [bind] in H. injection H as <-.
    assert (Hps' : forall p, In p ps <-> simple_path_between g s e p).
    { intros p. destruct h.
      - rewrite Hpaths in Hps. injection Hps as <-. apply Hexact.
      - injection Hps as <-. split; [intros []|].
        intros [rest [-> [Hlast [_ Hwalk]]]]. exfalso.
        apply walk_reaches in Hwalk. rewrite Hlast in Hwalk.
        apply Hreach in Hwalk. discriminate. }
    rewrite in_app_iff, (contigs_of_paths_In ps cs Hcs).
    rewrite (IH (fun s' e' Hin => Hpairs s' e' (or_intror Hin)) ds eq_refl).
    split.
    + intros [[p [Hp Hc]]|[s' [e' [p [Hin Hrest]]]]].
      * exists s, e, p. split; [now left|]. split; [now apply Hps'|assumption].
      * exists s', e', p. split; [now right|assumption].
    + intros [s' [e' [p [[E|Hin] [Hp Hc]]]]].
      * injection E as <- <-. left. exists p. split; [now apply Hps'|assumption].
      * right. exists s', e', p. auto.
Qed.

(** *** The contigs *)

Lemma extend_contig_ok (ns : list string) :
  (forall n, In n ns -> n <> EmptyString) ->
  forall contig, exists contig', extend_contig contig ns = Ok contig'.
Proof.
  induction ns as [|n ns IH]; intros Hne contig; cbn [extend_contig]; [eauto|].
  destruct (last_char n) as [c|] eqn:E.
  - apply IH. intros m Hm. apply Hne. now right.
  - exfalso. apply (Hne n (or_introl eq_refl)).
    destruct n as [|a n]; [reflexivity|]. exfalso. clear -E.
    revert a E. induction n as [|b n IH]; intros a E; cbn in E; [discriminate|].
    exact (IH b E).
Qed.

Lemma contigs_of_paths_ok (paths : list (list string)) :
  (forall p, In p paths -> p <> [] /\ forall n, In n (tl p) -> n <> EmptyString) ->
  exists contigs, contigs_of_paths paths = Ok contigs.
Proof.
  induction paths as [|p paths IH]; intros Hp; cbn [contigs_of_paths]; [eauto|].
  destruct (Hp p (or_introl eq_refl)) as [Hne Htl].
  destruct p as [|first rest]; [congruence|]. cbn [contig_of_path].
  destruct (extend_contig_ok rest Htl first) as [contig ->]. cbn [bind].
  destruct IH as [contigs ->]; [intros q Hq; apply Hp; now right|]. cbn [bind]. eauto.
Qed.

Lemma contigs_between_ok (g : DiGraph) (pairs : list (string * string)) :
  wf g ->
  (forall s e, In (s, e) pairs -> In s (nodes g) /\ In e (nodes g)) ->
  (forall n, In n (nodes g) -> n <> EmptyString) ->
  exists contigs, contigs_between g pairs = Ok contigs.
Proof.
  intros Hwf Hpairs Hne. induction pairs as [|[s e] pairs IH]; cbn [contigs_between];
    [eauto|].
  destruct (Hpairs s e (or_introl eq_refl)) as [Hs He].
  destruct (has_path_spec g s e Hwf Hs He) as [b [-> _]]. cbn [bind].
  destruct (all_simple_paths_exact g s e Hwf Hs He) as [paths [Hpaths Hin]].
  assert (Hps : exists ps, (if b then all_simple_paths g s e else Ok []) = Ok ps
                           /\ forall p, In p ps -> simple_path_between g s e p).
  { destruct b; [exists paths; split; [assumption|apply Hin]|].
    exists []. split; [reflexivity|intros p []]. }
  destruct Hps as [ps [-> Hps]]. cbn [bind].
  destruct (contigs_of_paths_ok ps) as [cs ->].
  { intros p Hp. destruct (Hps p Hp) as [rest [-> [_ [_ Hwalk]]]].
    split; [discriminate|]. cbn [tl]. intros n Hn. apply Hne.
    eapply walk_nodes; eassumption. }
  cbn [bind]. destruct IH as [ds ->]; [intros s' e' H; apply Hpairs; now right|].
  cbn [bind]. eauto.
Qed.

Lemma In_start_end_pairs (starting_nodes ending_nodes : list string) (s e : string) :
  In (s, e) (flat_map (fun s => map (fun e => (s, e)) ending_nodes) starting_nodes)
  <-> In s starting_nodes /\ In e ending_nodes.
Proof.
  rewrite in_flat_map. split.
  - intros [s' [Hs He]]. apply in_map_iff in He as [e' [E He]].
    injection E as -> ->. now split.
  - intros [Hs He]. exists s. split; [assumption|]. apply in_map_iff. now exists e.
Qed.

(** X7. On a graph whose nodes are not empty strings, with starting and
    ending nodes taken among its nodes, [get_contigs] returns, and a pair
    is in its list when, and only when, it is the sequence spelled by a
    path without a repeated node from a starting node to an ending node,
    with its length. *)
Theorem get_contigs_simple_paths (graph : DiGraph) (starting_nodes ending_nodes : list string) :
  wf graph ->
  (forall n, In n starting_nodes \/ In n ending_nodes -> In n (nodes graph)) ->
  (forall n, In n (nodes graph) -> n <> EmptyString) ->
  exists contigs,
    get_contigs graph starting_nodes ending_nodes = Ok contigs
    /\ (forall contig length,
          In (contig, length) contigs <->
          length = len contig
          /\ exists node_start node_end a_path,
               In node_start starting_nodes /\ In node_end ending_nodes
               /\ simple_path_between graph node_start node_end a_path
               /\ contig_of_path a_path = Ok (contig, length)).
Proof.
  intros Hwf Hnodes Hne. unfold get_contigs.
  set (pairs := flat_map (fun s => map (fun e => (s, e)) ending_nodes) starting_nodes).
  assert (Hpairs : forall s e, In (s, e) pairs -> In s (nodes graph) /\ In e (nodes graph)).
  { intros s e H. apply In_start_end_pairs in H as [Hs He]. split; apply Hnodes; auto. }
  destruct (contigs_between_ok graph pairs Hwf Hpairs Hne) as [contigs Hc].
  exists contigs. split; [exact Hc|].
  pose proof (contigs_between_In graph pairs Hwf Hpairs contigs Hc) as Hin.
  intros contig length. rewrite Hin. split.
  - intros [s [e [p [Hse [Hp Hcp]]]]]. apply In_start_end_pairs in Hse as [Hs He].
    split; [exact (contig_of_path_length p _ Hcp)|]. exists s, e, p. auto.
  - intros [_ [s [e [p [Hs [He [Hp Hcp]]]]]]]. exists s, e, p.
    split; [apply In_start_end_pairs; now split|]. now split.
Qed.

(** *** What the simplification passes leave of the graph *)

Lemma pruned_frame (g g' : DiGraph) :
  wf g -> pruned g g' ->
  wf g'
  /\ (forall n, In n (nodes g') -> In n (nodes g))
  /\ (forall e, In e (edges g') <->
                In e (edges g) /\ In (src e) (nodes g') /\ In (dst e) (nodes g')).
Proof.
  intros Hwf [removed ->]. destruct (without_frame g removed Hwf) as [Hn He].
  split; [now apply wf_without|]. split; [|exact He].
  intros n Hin. now apply Hn in Hin.
Qed.

Section Passes.

Context {RT : Runtime}.

(** X8. The graph that [simplify_bubbles] returns is the graph it was
    given without some of its nodes: the nodes that are left are in the
    same order, and the edges are all the edges of the graph between two
    of them, with their weights. *)
Theorem simplify_bubbles_prunes (depth : nat) (graph : DiGraph) (w : world)
        (g' : DiGraph) (w' : world) :
  wf graph ->
  simplify_bubbles depth graph w = Ok (g', w') ->
  pruned graph g'
  /\ wf g'
  /\ (forall n, In n (nodes g') -> In n (nodes graph))
  /\ (forall e, In e (edges g') <->
                In e (edges graph) /\ In (src e) (nodes g') /\ In (dst e) (nodes g')).
Proof.
  intros Hwf H. pose proof (simplify_bubbles_pruned depth graph w g' w' Hwf H) as Hp.
  split; [assumption|]. now apply pruned_frame.
Qed.

(** X9. The graph that [solve_entry_tips] returns is the graph it was
    given without some of its nodes, whatever the list of starting nodes
    it is called with. *)
Theorem solve_entry_tips_prunes (depth : nat) (graph : DiGraph)
        (starting_nodes : list string) (w : world) (g' : DiGraph) (w' : world) :
  wf graph ->
  solve_entry_tips depth graph starting_nodes w = Ok (g', w') ->
  pruned graph g'
  /\ wf g'
  /\ (forall n, In n (nodes g') -> In n (nodes graph))
  /\ (forall e, In e (edges g') <->
                In e (edges graph) /\ In (src e) (nodes g') /\ In (dst e) (nodes g')).
Proof.
  intros Hwf H.
  pose proof (solve_entry_tips_pruned depth graph starting_nodes w g' w' Hwf H) as Hp.
  split; [assumption|]. now apply pruned_frame.
Qed.

(** X10. The graph that [solve_out_tips] returns is the graph it was given
    without some of its nodes, whatever the list of ending nodes it is
    called with. *)
Theorem solve_out_tips_prunes (depth : nat) (graph : DiGraph)
        (ending_nodes : list string) (w : world) (g' : DiGraph) (w' : world) :
  wf graph ->
  solve_out_tips depth graph ending_nodes w = Ok (g', w') ->
  pruned graph g'
  /\ wf g'
  /\ (forall n, In n (nodes g') -> In n (nodes graph))
  /\ (forall e, In e (edges g') <->
                In e (edges graph) /\ In (src e) (nodes g') /\ In (dst e) (nodes g')).
Proof.
  intros Hwf H.
  pose proof (solve_out_tips_pruned depth graph ending_nodes w g' w' Hwf H) as Hp.
  split; [assumption|]. now apply pruned_frame.
Qed.

(** X11. [solve_entry_tips] does not exhaust the recursion allowance when
    this is larger than the number of nodes of the graph: every round that
    calls itself again has removed a node. *)
Theorem solve_entry_tips_recursion (depth : nat) (graph : DiGraph)
        (starting_nodes : list string) (w : world) :
  (List.length (nodes graph) < depth)%nat ->
  solve_entry_tips depth graph starting_nodes w <> Raise RecursionError.
Proof. intros H. now apply solve_entry_tips_depth. Qed.

(** X12. [solve_out_tips] does not exhaust the recursion allowance when
    this is larger than the number of nodes of the graph. *)
Theorem solve_out_tips_recursion (depth : nat) (graph : DiGraph)
        (ending_nodes : list string) (w : world) :
  (List.length (nodes graph) < depth)%nat ->
  solve_out_tips depth graph ending_nodes w <> Raise RecursionError.
Proof. intros H. now apply solve_out_tips_depth. Qed.

(** X13. When the scan of [simplify_bubbles] stops at a bubble and
    [solve_bubble] gives back the graph it was given, whatever the state
    of the generator, the next round meets the same bubble: the recursion
    goes on until the allowance is used up, however large. The reads TAAC
    and TAC do this for k = 3: the path to remove is the edge from TA to
    AC, which has no node between its ends. *)
Theorem simplify_bubbles_unending (graph : DiGraph) (ancestor_node : option string)
        (node : string) :
  scan_nodes graph (nodes graph) None = Ok (Some (ancestor_node, node)) ->
  (forall w, exists w', solve_bubble graph ancestor_node node w = Ok (graph, w')) ->
  forall depth w, simplify_bubbles depth graph w = Raise RecursionError.
Proof.
  intros Hscan Hsolve depth. induction depth as [|depth IH]; intros w; [reflexivity|].
  cbn [simplify_bubbles]. rewrite Hscan. cbn [bind].
  destruct (Hsolve w) as [w' ->]. cbn [bind fst snd]. apply IH.
Qed.

End Passes.

Lemma simplify_bubbles_prunes_witness :
  let g1 := {| nodes := ["TA"; "AC"; "CG"; "GT"];
               edges := [("TA", "AC", 5); ("AC", "CG", 5); ("CG", "GT", 5)] |} in
  wf three_branch_graph
  /\ @simplify_bubbles lcg_runtime 10 three_branch_graph world0 = Ok (g1, world0)
  /\ pruned three_branch_graph g1
  /\ wf g1.
Proof.
  intros g1.
  assert (H1 : wf three_branch_graph) by apply wf_build_graph.
  assert (H2 : @simplify_bubbles lcg_runtime 10 three_branch_graph world0
               = Ok (g1, world0)) by (vm_compute; reflexivity).
  destruct (@simplify_bubbles_prunes lcg_runtime 10 three_branch_graph world0
              g1 world0 H1 H2) as [H3 [H4 _]].
  split; [exact H1|]. split; [exact H2|]. split; [exact H3|exact H4].
Defined.

Lemma solve_entry_tips_prunes_witness :
  let g1 := {| nodes := ["AC"; "CG"; "GT"];
               edges := [("AC", "CG", 3); ("CG", "GT", 3)] |} in
  wf entry_tip_graph
  /\ @solve_entry_tips lcg_runtime 10 entry_tip_graph ["AC"; "TC"] world0
     = Ok (g1, world0)
  /\ pruned entry_tip_graph g1
  /\ wf g1.
Proof.
  intros g1.
  assert (H1 : wf entry_tip_graph) by apply wf_build_graph.
  assert (H2 : @solve_entry_tips lcg_runtime 10 entry_tip_graph ["AC"; "TC"] world0
               = Ok (g1, world0)) by (vm_compute; reflexivity).
  destruct (@solve_entry_tips_prunes lcg_runtime 10 entry_tip_graph ["AC"; "TC"] world0
              g1 world0 H1 H2) as [H3 [H4 _]].
  split; [exact H1|]. split; [exact H2|]. split; [exact H3|exact H4].
Defined.

Lemma solve_out_tips_prunes_witness :
  let g1 := {| nodes := ["AC"; "CG"; "GT"];
               edges := [("AC", "CG", 3); ("CG", "GT", 3)] |} in
  wf out_tip_graph
  /\ @solve_out_tips lcg_runtime 10 out_tip_graph ["GT"; "GA"] world0
     = Ok (g1, world0)
  /\ pruned out_tip_graph g1
  /\ wf g1.
Proof.
  intros g1.
  assert (H1 : wf out_tip_graph) by apply wf_build_graph.
  assert (H2 : @solve_out_tips lcg_runtime 10 out_tip_graph ["GT"; "GA"] world0
               = Ok (g1, world0)) by (vm_compute; reflexivity).
  destruct (@solve_out_tips_prunes lcg_runtime 10 out_tip_graph ["GT"; "GA"] world0
              g1 world0 H1 H2) as [H3 [H4 _]].
  split; [exact H1|]. split; [exact H2|]. split; [exact H3|exact H4].
Defined.

Lemma solve_entry_tips_recursion_witness :
  (List.length (nodes entry_tip_graph) < 5)%nat
  /\ @solve_entry_tips lcg_runtime 5 entry_tip_graph ["AC"; "TC"] world0
     <> Raise RecursionError.
Proof.
  assert (H : (List.length (nodes entry_tip_graph) < 5)%nat) by (vm_compute; lia).
  split; [exact H|].
  exact (@solve_entry_tips_recursion lcg_runtime 5 entry_tip_graph ["AC"; "TC"] world0 H).
Defined.

Lemma solve_out_tips_recursion_witness :
  (List.length (nodes out_tip_graph) < 5)%nat
  /\ @solve_out_tips lcg_runtime 5 out_tip_graph ["GT"; "GA"] world0
     <> Raise RecursionError.
Proof.
  assert (H : (List.length (nodes out_tip_graph) < 5)%nat) by (vm_compute; lia).
  split; [exact H|].
  exact (@solve_out_tips_recursion lcg_runtime 5 out_tip_graph ["GT"; "GA"] world0 H).
Defined.

Lemma simplify_bubbles_unending_witness :
  @scan_nodes lcg_runtime short_cut_graph (nodes short_cut_graph) None
  = Ok (Some (Some "TA", "AC"))
  /\ (forall w : @world lcg_runtime,
        exists w', @solve_bubble lcg_runtime short_cut_graph (Some "TA") "AC" w
                   = Ok (short_cut_graph, w'))
  /\ @simplify_bubbles lcg_runtime 1000 short_cut_graph world0 = Raise RecursionError.
Proof.
  assert (H1 : @scan_nodes lcg_runtime short_cut_graph (nodes short_cut_graph) None
               = Ok (Some (Some "TA", "AC"))) by (vm_compute; reflexivity).
  assert (H2 : forall w : @world lcg_runtime,
             exists w', @solve_bubble lcg_runtime short_cut_graph (Some "TA") "AC" w
                        = Ok (short_cut_graph, w')).
  { intros w. exists w. vm_compute. reflexivity. }
  split; [exact H1|]. split; [exact H2|].
  exact (@simplify_bubbles_unending lcg_runtime short_cut_graph (Some "TA") "AC"
           H1 H2 1000%nat world0).
Defined.

(** *** From the contigs back to the reads *)

Lemma walk_steps (g : DiGraph) :
  forall rest n u v, walk g n rest -> In (u, v) (steps (n :: rest)) ->
                     In v (successors g u).
Proof.
  unfold steps. induction rest as [|m rest IH]; intros n u v Hwalk Hin; [destruct Hin|].
  destruct Hwalk as [Hm Hwalk]. cbn in Hin. destruct Hin as [E|Hin].
  - injection E as <- <-. exact Hm.
  - apply (IH m); assumption.
Qed.

Lemma extend_contig_prefix (a : ascii) (ns : list string) :
  forall s, extend_contig (String a s) ns
            = (c <- extend_contig s ns ;; Ok (String a c)).
Proof.
  induction ns as [|n ns IH]; intros s; cbn [extend_contig]; [reflexivity|].
  destruct (last_char n) as [c|]; [|reflexivity]. apply (IH (s ++ String c EmptyString)%string).
Qed.

Lemma last_char_split (s : string) :
  forall m, String.length s = S m ->
            exists c, last_char s = Some c
                      /\ s = (substring 0 m s ++ String c EmptyString)%string.
Proof.
  induction s as [|a s IH]; intros m Hlen; [discriminate|].
  cbn in Hlen. injection Hlen as Hlen. destruct m as [|m].
  - destruct s; [|discriminate]. exists a. split; reflexivity.
  - destruct (IH m Hlen) as [c [Hc Hs]]. exists c. split.
    + rewrite last_char_cons; [assumption|]. intros ->. discriminate.
    + cbn. now rewrite <- Hs.
Qed.

Lemma cut_kmer_cons (a : ascii) (s : string) (m : nat) :
  (S m <= String.length s)%nat ->
  cut_kmer (String a s) (Z.of_nat (S m))
  = substring 0 (S m) (String a s) :: cut_kmer s (Z.of_nat (S m)).
Proof.
  intros Hlen. rewrite !cut_kmer_substrings by lia. unfold len. cbn [String.length].
  rewrite Nat2Z.id.
  replace (Z.to_nat (Z.of_nat (S (String.length s)) - Z.of_nat (S m) + 1))
    with (S (Z.to_nat (Z.of_nat (String.length s) - Z.of_nat (S m) + 1))) by lia.
  cbn [seq map]. f_equal. rewrite <- seq_shift, map_map. reflexivity.
Qed.

Lemma cut_kmer_whole (s : string) (m : nat) :
  String.length s = S m -> cut_kmer s (Z.of_nat (S m)) = [s].
Proof.
  intros Hlen. rewrite cut_kmer_substrings by lia. unfold len. rewrite Hlen, Nat2Z.id.
  replace (Z.to_nat (Z.of_nat (S m) - Z.of_nat (S m) + 1)) with 1%nat by lia.
  cbn [seq map]. now rewrite <- Hlen, substring_full.
Qed.

(** A path whose nodes have [S m] characters and overlap, each with the
    next, on [m] characters is spelled by a contig whose windows of [S m]
    characters are the nodes of the path. *)
Lemma path_contig_windows (m : nat) :
  forall rest A,
    String.length A = S m ->
    (forall n, In n rest -> String.length n = S m) ->
    (forall u v, In (u, v) (steps (A :: rest)) -> substring 1 m u = substring 0 m v) ->
    exists c, extend_contig A rest = Ok c
              /\ cut_kmer c (Z.of_nat (S m)) = A :: rest
              /\ String.length c = (S m + List.length rest)%nat.
Proof.
  induction rest as [|B rest IH]; intros A HA Hrest Hov.
  - exists A. split; [reflexivity|]. split; [now apply cut_kmer_whole|].
    cbn [List.length]. lia.
  - assert (HB : String.length B = S m) by (apply Hrest; now left).
    destruct (IH B HB) as [c' [Hc' [Hcut Hlen]]].
    { intros n Hn. apply Hrest. now right. }
    { intros u v Hin. apply Hov. unfold steps in *. cbn. now right. }
    destruct (last_char_split B m HB) as [b [Hb HBsplit]].
    destruct A as [|a A']; [discriminate|]. cbn in HA. injection HA as HA.
    assert (Hoverlap : A' = substring 0 m B).
    { rewrite <- (Hov (String a A') B) by (unfold steps; cbn; now left).
      cbn. now rewrite <- HA, substring_full. }
    assert (E : (String a A' ++ String b EmptyString)%string = String a B).
    { cbn. f_equal. rewrite Hoverlap. symmetry. exact HBsplit. }
    cbn [extend_contig]. rewrite Hb, E, extend_contig_prefix, Hc'. cbn [bind].
    exists (String a c'). split; [reflexivity|]. split.
    + rewrite cut_kmer_cons by lia. rewrite Hcut. f_equal.
      assert (Hfirst : substring 0 (S m) c' = B).
      { rewrite cut_kmer_substrings in Hcut by lia. unfold len in Hcut.
        rewrite Nat2Z.id in Hcut.
        replace (Z.to_nat (Z.of_nat (String.length c') - Z.of_nat (S m) + 1))
          with (S (List.length rest)) in Hcut by lia.
        cbn [seq map] in Hcut. now injection Hcut. }
      cbn [substring]. f_equal.
      rewrite Hoverlap, <- Hfirst. rewrite substring_substring by lia. reflexivity.
    + cbn [String.length List.length]. lia.
Qed.

(** The graphs on (k-1)-mers: every edge joins two nodes of [k - 1]
    characters that overlap, and every node has [k - 1] characters. *)
Lemma pruned_kmer_graph (k : Z) (g g' : DiGraph) :
  wf g -> debruijn_ok k g -> pruned g g' ->
  wf g'
  /\ (forall e, In e (edges g') -> In e (edges g) /\ edge_ok k e)
  /\ (forall n, In n (nodes g') -> len n = k - 1).
Proof.
  intros Hwf [Hedges Hnodes] Hp.
  destruct (pruned_frame g g' Hwf Hp) as [Hwf' [Hn He]].
  split; [assumption|]. split.
  - intros e Hin. apply He in Hin as [Hin _]. split; [assumption|now apply Hedges].
  - intros n Hin. apply Hn in Hin. destruct (Hnodes n Hin) as [e [Hin' Hends]].
    destruct (Hedges e Hin') as [_ [Hs [Hd _]]]. destruct Hends as [<-|<-]; assumption.
Qed.

Lemma path_contig_kmers (k : Z) (g : DiGraph) (s e : string) (p : list string)
      (c : string * Z) :
  2 <= k ->
  (forall x, In x (edges g) -> edge_ok k x) ->
  (forall n, In n (nodes g) -> len n = k - 1) ->
  wf g -> In s (nodes g) ->
  simple_path_between g s e p ->
  contig_of_path p = Ok c ->
  cut_kmer (fst c) (k - 1) = p
  /\ len (fst c) = k - 1 + Z.of_nat (List.length p) - 1
  /\ forall kmer, In kmer (cut_kmer (fst c) k) ->
                  exists weight,
                    In (slice kmer None (Some (-1)), slice kmer (Some 1) None, weight)
                       (edges g).
Proof.
  intros Hk Hedges Hnodes Hwf Hs [rest [-> [_ [_ Hwalk]]]] Hc.
  destruct (Z.to_nat (k - 1)) as [|m] eqn:Em; [lia|].
  assert (Hk1 : k - 1 = Z.of_nat (S m)) by lia.
  assert (Hlen : forall n, In n (s :: rest) -> String.length n = S m).
  { intros n [<-|Hn].
    - specialize (Hnodes _ Hs). unfold len in Hnodes. lia.
    - specialize (Hnodes n (walk_nodes g Hwf rest s Hwalk n Hn)).
      unfold len in Hnodes. lia. }
  assert (Hstep : forall u v, In (u, v) (steps (s :: rest)) ->
                              exists weight, In (u, v, weight) (edges g)).
  { intros u v Hin. apply In_successors. eapply walk_steps; eassumption. }
  destruct (path_contig_windows m rest s) as [contig [Hext [Hcut Hclen]]].
  { apply Hlen. now left. }
  { intros n Hn. apply Hlen. now right. }
  { intros u v Hin. destruct (Hstep u v Hin) as [weight He].
    destruct (Hedges _ He) as [Hov [Hu [Hv _]]]. cbn [src dst fst snd] in *.
    rewrite slice_suffix, slice_prefix in Hov. unfold len in Hu, Hv.
    replace (String.length u - 1)%nat with m in Hov by lia.
    replace (String.length v - 1)%nat with m in Hov by lia. exact Hov. }
  cbn [contig_of_path] in Hc. rewrite Hext in Hc. cbn [bind] in Hc.
  injection Hc as <-. cbn [fst]. rewrite Hk1. split; [exact Hcut|]. split.
  - unfold len. cbn [List.length]. lia.
  - intros kmer Hin.
    pose proof (steps_cut_kmer contig k Hk) as Hsteps.
    rewrite Hk1, Hcut in Hsteps. apply Hstep. rewrite Hsteps.
    apply in_map_iff. now exists kmer.
Qed.

Lemma get_starting_nodes_nodes (graph : DiGraph) (n : string) :
  In n (get_starting_nodes graph) -> In n (nodes graph).
Proof. unfold get_starting_nodes. intros H. now apply filter_In in H. Qed.

Lemma get_sink_nodes_nodes (graph : DiGraph) (n : string) :
  In n (get_sink_nodes graph) -> In n (nodes graph).
Proof. unfold get_sink_nodes. intros H. now apply filter_In in H. Qed.

(** X14. In a graph on (k-1)-mers, where every edge joins two nodes of
    k - 1 characters of which the first without its first character is the
    second without its last, every contig of [get_contigs] spells a path
    from a starting node to an ending node: its windows of k - 1
    characters are the nodes of the path, in order and without
    repetition, its windows of k characters are edges of the graph, and
    the length recorded with it is its length, k - 1 or more. *)
Theorem get_contigs_spell_paths (k : Z) (graph : DiGraph)
        (starting_nodes ending_nodes : list string) (contigs : list (string * Z))
        (contig : string) (length : Z) :
  2 <= k ->
  wf graph ->
  (forall e, In e (edges graph) -> edge_ok k e) ->
  (forall n, In n (nodes graph) -> len n = k - 1) ->
  (forall n, In n starting_nodes \/ In n ending_nodes -> In n (nodes graph)) ->
  get_contigs graph starting_nodes ending_nodes = Ok contigs ->
  In (contig, length) contigs ->
  length = len contig
  /\ k - 1 <= length
  /\ (exists node_start node_end,
        In node_start starting_nodes /\ In node_end ending_nodes
        /\ simple_path_between graph node_start node_end (cut_kmer contig (k - 1)))
  /\ (forall kmer, In kmer (cut_kmer contig k) ->
                   exists weight,
                     In (slice kmer None (Some (-1)), slice kmer (Some 1) None, weight)
                        (edges graph)).
Proof.
  intros Hk Hwf Hedges Hlen Hnodes Hget Hin. unfold get_contigs in Hget.
  assert (Hpairs : forall s e,
             In (s, e) (flat_map (fun s => map (fun e => (s, e)) ending_nodes)
                                 starting_nodes) ->
             In s (nodes graph) /\ In e (nodes graph)).
  { intros s e H. apply In_start_end_pairs in H as [Hs He]. split; apply Hnodes; auto. }
  apply (proj1 (contigs_between_In graph _ Hwf Hpairs contigs Hget (contig, length)))
    in Hin.
  destruct Hin as [s [e [p [Hse [Hp Hc]]]]].
  apply In_start_end_pairs in Hse as [Hs He].
  destruct (path_contig_kmers k graph s e p (contig, length) Hk Hedges Hlen Hwf
              (Hnodes s (or_introl Hs)) Hp Hc) as [Hcut [Hclen Hkmers]].
  cbn [fst] in *. pose proof (contig_of_path_length p _ Hc) as Hl. cbn [fst snd] in Hl.
  split; [exact Hl|]. split.
  - destruct Hp as [rest [-> _]]. cbn [List.length] in Hclen. lia.
  - split; [|exact Hkmers]. exists s, e. rewrite Hcut. auto.
Qed.

Section Soundness.

Context {RT : Runtime}.

Lemma assemble_graph (depth : nat) (reads : list string) (kmer_size : Z) (w0 : world)
      (contigs : list (string * Z)) (w : world) :
  assemble depth reads kmer_size w0 = Ok (contigs, w) ->
  exists graph,
    pruned (build_graph (build_kmer_dict reads kmer_size)) graph
    /\ get_contigs graph (get_starting_nodes graph) (get_sink_nodes graph) = Ok contigs.
Proof.
  unfold assemble. cbv zeta. intros H.
  remember (build_graph (build_kmer_dict reads kmer_size)) as graph eqn:Hgraph.
  assert (Hwf : wf graph) by (subst graph; apply wf_build_graph).
  destruct (simplify_bubbles depth graph (random_seed 9001 w0)) as [[g1 w1]|] eqn:H1;
    [|discriminate].
  cbn [bind fst snd] in H.
  destruct (solve_entry_tips depth g1 (get_starting_nodes g1) w1) as [[g2 w2]|] eqn:H2;
    [|discriminate].
  cbn [bind fst snd] in H.
  destruct (solve_out_tips depth g2 (get_sink_nodes g2) w2) as [[g3 w3]|] eqn:H3;
    [|discriminate].
  cbn [bind fst snd] in H.
  destruct (get_contigs g3 (get_starting_nodes g3) (get_sink_nodes g3)) as [cs|] eqn:H4;
    [|discriminate].
  cbn [bind] in H. injection H as <- <-.
  pose proof (simplify_bubbles_pruned _ _ _ _ _ Hwf H1) as P1.
  pose proof (wf_pruned _ _ Hwf P1) as Hwf1.
  pose proof (solve_entry_tips_pruned _ _ _ _ _ _ Hwf1 H2) as P2.
  pose proof (wf_pruned _ _ Hwf1 P2) as Hwf2.
  pose proof (solve_out_tips_pruned _ _ _ _ _ _ Hwf2 H3) as P3.
  exists g3. split; [|exact H4].
  eapply pruned_trans; [|exact P3]. eapply pruned_trans; eassumption.
Qed.

(** X15. For k >= 2, every contig that the pipeline of [main] assembles is
    made of k-mers of the reads: each of its windows of k characters is a
    k-mer of some read. The length written with the contig is its length,
    and it is k - 1 at least. *)
Theorem assemble_sound (depth : nat) (reads : list string) (kmer_size : Z) (w0 : world)
        (contigs : list (string * Z)) (w : world) (contig : string) (length : Z) :
  2 <= kmer_size ->
  assemble depth reads kmer_size w0 = Ok (contigs, w) ->
  In (contig, length) contigs ->
  length = len contig
  /\ kmer_size - 1 <= length
  /\ (forall kmer, In kmer (cut_kmer contig kmer_size) ->
                   exists read, In read reads /\ In kmer (cut_kmer read kmer_size)).
Proof.
  intros Hk Hrun Hin.
  destruct (assemble_graph _ _ _ _ _ _ Hrun) as [graph [Hp Hget]].
  destruct (build_kmer_dict_spec reads kmer_size) as [Hnd [_ Hdict]].
  assert (Hkmers : forall kmer c,
             In (kmer, c) (build_kmer_dict reads kmer_size) ->
             len kmer = kmer_size /\ 1 <= c).
  { intros kmer c H. apply Hdict in H as [H ->]. split.
    - unfold all_kmers in H. apply in_flat_map in H as [read [_ H]].
      apply (len_cut_kmer read); [lia|exact H].
    - apply (count_occ_In string_dec) in H. lia. }
  assert (Hok : debruijn_ok kmer_size (build_graph (build_kmer_dict reads kmer_size))).
  { apply build_graph_from_ok; [assumption|assumption|].
    split; [intros e []|intros n []]. }
  destruct (pruned_kmer_graph kmer_size _ graph (wf_build_graph _) Hok Hp)
    as [Hwf [Hedges Hnodes]].
  assert (Hpairs : forall s e,
             In (s, e) (flat_map (fun s => map (fun e => (s, e)) (get_sink_nodes graph))
                                 (get_starting_nodes graph)) ->
             In s (nodes graph) /\ In e (nodes graph)).
  { intros s e H. apply In_start_end_pairs in H as [Hs He].
    split; [now apply get_starting_nodes_nodes|now apply get_sink_nodes_nodes]. }
  apply (proj1 (contigs_between_In graph _ Hwf Hpairs contigs Hget (contig, length)))
    in Hin.
  destruct Hin as [s [e [p [Hse [Hpath Hc]]]]].
  apply In_start_end_pairs in Hse as [Hs He].
  destruct (path_contig_kmers kmer_size graph s e p (contig, length) Hk
              (fun x H => proj2 (Hedges x H)) Hnodes Hwf
              (get_starting_nodes_nodes _ _ Hs) Hpath Hc) as [Hcut [Hclen Hwin]].
  cbn [fst] in *. pose proof (contig_of_path_length p _ Hc) as Hl. cbn [fst snd] in Hl.
  split; [exact Hl|]. split.
  - destruct Hpath as [rest [-> _]]. cbn [List.length] in Hclen. lia.
  - intros kmer Hkmer. destruct (Hwin kmer Hkmer) as [weight He'].
    apply Hedges in He' as [He' _].
    rewrite (edges_build_graph _ kmer_size Hk Hnd) in He'
      by (intros kmer' c' H; now apply (Hkmers kmer' c')).
    apply in_map_iff in He' as [[kmer' c'] [E Hin']].
    unfold kmer_edge in E. cbn [fst snd] in E. injection E as Hpre Hsuf _.
    assert (Hsame : kmer' = kmer).
    { pose proof (proj1 (Hkmers kmer' c' Hin')) as L1.
      pose proof (len_cut_kmer contig kmer_size kmer ltac:(lia) Hkmer) as L2.
      unfold len in L1, L2. apply kmer_ends_injective; try lia; assumption. }
    subst kmer'. apply Hdict in Hin' as [Hall _].
    unfold all_kmers in Hall. apply in_flat_map in Hall as [read [Hread Hcut']].
    now exists read.
Qed.

End Soundness.

(** *** The assembly of one read *)

Lemma steps_cons (a b : string) (p : list string) :
  steps (a :: b :: p) = (a, b) :: steps (b :: p).
Proof. reflexivity. Qed.

Lemma steps_snoc (p : list string) :
  forall a b, steps ((a :: p) ++ [b]) = steps (a :: p) ++ [(last (a :: p) a, b)].
Proof.
  induction p as [|c p IH]; intros a b; [reflexivity|].
  change ((a :: c :: p) ++ [b]) with (a :: ((c :: p) ++ [b])).
  change ((c :: p) ++ [b]) with (c :: (p ++ [b])) at 1.
  rewrite steps_cons. change (c :: (p ++ [b])) with ((c :: p) ++ [b]).
  rewrite IH, steps_cons. cbn [app]. do 2 f_equal.
  change (last (a :: c :: p) a) with (last (c :: p) a).
  now rewrite (last_default c p c a).
Qed.

Lemma In_steps (p : list string) :
  forall u v, In (u, v) (steps p) -> In u (removelast p) /\ In v (tl p).
Proof.
  induction p as [|a p IH]; intros u v Hin; [destruct Hin|].
  destruct p as [|b p]; [destruct Hin|]. rewrite steps_cons in Hin.
  change (removelast (a :: b :: p)) with (a :: removelast (b :: p)). cbn [tl].
  destruct Hin as [E|Hin].
  - injection E as <- <-. split; now left.
  - destruct (IH u v Hin) as [Hu Hv]. cbn [tl] in Hv. split; now right.
Qed.

Lemma In_removelast {A : Type} (l : list A) (x : A) : In x (removelast l) -> In x l.
Proof.
  induction l as [|a l IH]; [intros []|]. destruct l as [|b l]; [intros []|].
  change (removelast (a :: b :: l)) with (a :: removelast (b :: l)).
  intros [->|H]; [now left|right; now apply IH].
Qed.

(** The graph that [build_graph] grows along a path without a repeated
    node. *)
Lemma add_steps_path_graph (rest : list string) :
  forall a b,
    NoDup (a :: b :: rest) ->
    fold_left (fun g s => add_edge g (fst s) (snd s) 1) (steps (a :: b :: rest)) Nx.empty
    = path_graph (a :: b :: rest).
Proof.
  induction rest as [|c rest IH] using rev_ind; intros a b Hnd.
  - cbn. unfold add_edge, add_node, has_node. cbn.
    assert (E : (b =? a)%string = false).
    { apply String.eqb_neq. intros ->. apply NoDup_cons_iff in Hnd as [H _].
      apply H. now left. }
    rewrite E. reflexivity.
  - change (a :: b :: rest ++ [c]) with ((a :: b :: rest) ++ [c]) in *.
    rewrite steps_snoc, fold_left_app, IH.
    2:{ apply NoDup_app_inv in Hnd. tauto. }
    cbn [fold_left fst snd].
    set (l := last (a :: b :: rest) a).
    assert (Hl : In l (a :: b :: rest)).
    { subst l. change (last (a :: b :: rest) a) with (last (b :: rest) a).
      right. destruct rest as [|x rest']; [now left|].
      right. apply (last_cons_In b (x :: rest') a). discriminate. }
    assert (Hc : ~ In c (a :: b :: rest)).
    { intros Hin. apply NoDup_app_inv in Hnd as [_ [_ Hdis]].
      apply (Hdis c); [assumption|now left]. }
    unfold add_edge, add_node, has_node, path_graph. cbn [nodes edges].
    rewrite (proj2 (mem_In l (a :: b :: rest)) Hl). cbn [nodes edges].
    rewrite (proj2 (mem_not_In c (a :: b :: rest)) Hc). cbn [nodes edges].
    subst l. f_equal. rewrite steps_snoc, map_app. cbn [map fst snd].
    apply set_edge_append.
    rewrite map_map. intros Hin. apply in_map_iff in Hin as [[u v] [E Hin]].
    unfold key in E. cbn in E. injection E as -> ->.
    apply In_steps in Hin as [_ Hin]. apply Hc. cbn [tl] in Hin. now right.
Qed.

Lemma successors_path_graph (p : list string) (n : string) :
  successors (path_graph p) n
  = map snd (filter (fun s => String.eqb (fst s) n) (steps p)).
Proof.
  unfold successors, path_graph. cbn [edges].
  induction (steps p) as [|[u v] l IH]; [reflexivity|].
  cbn [map filter fst snd]. unfold src at 1. cbn [fst snd].
  destruct (String.eqb u n); cbn [map]; [unfold dst at 1; cbn [fst snd]|];
    now rewrite IH.
Qed.

Lemma predecessors_path_graph (p : list string) (n : string) :
  predecessors (path_graph p) n
  = map fst (filter (fun s => String.eqb (snd s) n) (steps p)).
Proof.
  unfold predecessors, path_graph. cbn [edges].
  induction (steps p) as [|[u v] l IH]; [reflexivity|].
  cbn [map filter fst snd]. unfold dst at 1. cbn [fst snd].
  destruct (String.eqb v n); cbn [map]; [unfold src at 1; cbn [fst snd]|];
    now rewrite IH.
Qed.

Lemma steps_from (p : list string) (n : string) :
  ~ In n (removelast p) -> filter (fun s => String.eqb (fst s) n) (steps p) = [].
Proof.
  intros Hn. apply filter_none. intros [u v] Hin. cbn [fst].
  apply String.eqb_neq. intros ->. apply Hn. now apply In_steps in Hin.
Qed.

Lemma steps_to (p : list string) (n : string) :
  ~ In n (tl p) -> filter (fun s => String.eqb (snd s) n) (steps p) = [].
Proof.
  intros Hn. apply filter_none. intros [u v] Hin. cbn [snd].
  apply String.eqb_neq. intros ->. apply Hn. now apply In_steps in Hin.
Qed.

Lemma successors_on_path (pre : list string) :
  forall n m post,
    NoDup (pre ++ n :: m :: post) ->
    successors (path_graph (pre ++ n :: m :: post)) n = [m].
Proof.
  intros n m post Hnd. rewrite successors_path_graph.
  induction pre as [|a pre IH].
  - cbn [app]. rewrite steps_cons. cbn [filter fst]. rewrite String.eqb_refl.
    rewrite steps_from; [reflexivity|]. intros Hin. apply In_removelast in Hin.
    now apply NoDup_cons_iff in Hnd as [Hnd _].
  - cbn [app] in *. apply NoDup_cons_iff in Hnd as [Ha Hnd].
    assert (E : String.eqb a n = false).
    { apply String.eqb_neq. intros ->. apply Ha. apply in_or_app. right. now left. }
    destruct pre as [|b pre]; cbn [app] in *; rewrite steps_cons; cbn [filter fst];
      rewrite E; now apply IH.
Qed.

Lemma successors_path_end (pre : list string) (n : string) :
  NoDup (pre ++ [n]) -> successors (path_graph (pre ++ [n])) n = [].
Proof.
  intros Hnd. rewrite successors_path_graph, steps_from; [reflexivity|].
  rewrite removelast_last. apply NoDup_app_inv in Hnd as [_ [_ Hdis]].
  intros Hin. apply (Hdis n Hin). now left.
Qed.

Lemma predecessors_on_path (pre : list string) :
  forall a n post,
    NoDup (pre ++ a :: n :: post) ->
    predecessors (path_graph (pre ++ a :: n :: post)) n = [a].
Proof.
  intros a n post Hnd. rewrite predecessors_path_graph.
  induction pre as [|b pre IH].
  - cbn [app]. rewrite steps_cons. cbn [filter snd]. rewrite String.eqb_refl.
    rewrite steps_to; [reflexivity|]. cbn [tl]. intros Hin.
    apply NoDup_cons_iff in Hnd as [_ Hnd]. now apply NoDup_cons_iff in Hnd as [Hnd _].
  - cbn [app] in *. apply NoDup_cons_iff in Hnd as [Hb Hnd].
    destruct pre as [|c pre]; cbn [app] in *; rewrite steps_cons; cbn [filter snd].
    + assert (E : String.eqb a n = false).
      { apply String.eqb_neq. intros ->. apply NoDup_cons_iff in Hnd as [Hnd _].
        apply Hnd. now left. }
      rewrite E. now apply IH.
    + assert (E : String.eqb c n = false).
      { apply String.eqb_neq. intros ->. apply NoDup_cons_iff in Hnd as [Hnd _].
        apply Hnd. apply in_or_app. right. right. now left. }
      rewrite E. now apply IH.
Qed.

Lemma predecessors_path_start (n : string) (post : list string) :
  NoDup (n :: post) -> predecessors (path_graph (n :: post)) n = [].
Proof.
  intros Hnd. rewrite predecessors_path_graph, steps_to; [reflexivity|].
  cbn [tl]. now apply NoDup_cons_iff in Hnd as [Hnd _].
Qed.

(** Where a node of a path stands: at the start, or after another node. *)
Lemma path_position (p : list string) (n : string) :
  In n p ->
  (exists post, p = n :: post) \/ (exists pre a post, p = pre ++ a :: n :: post).
Proof.
  intros Hin. apply in_split in Hin as [l1 [l2 ->]].
  destruct (rev l1) as [|x l] eqn:E.
  - left. exists l2. apply (f_equal (@rev string)) in E. rewrite rev_involutive in E.
    now rewrite E.
  - right. exists (rev l), x, l2. apply (f_equal (@rev string)) in E.
    rewrite rev_involutive in E. rewrite E. cbn [rev]. now rewrite <- app_assoc.
Qed.

Lemma path_position_end (p : list string) (n : string) :
  In n p ->
  (exists pre, p = pre ++ [n]) \/ (exists pre m post, p = pre ++ n :: m :: post).
Proof.
  intros Hin. apply in_split in Hin as [l1 [l2 ->]].
  destruct l2 as [|m l2]; [left; eauto|]. right. eauto.
Qed.

Lemma predecessors_path_le (p : list string) (n : string) :
  NoDup p -> (List.length (predecessors (path_graph p) n) <= 1)%nat.
Proof.
  intros Hnd. destruct (in_dec string_dec n p) as [Hin|Hout].
  - destruct (path_position p n Hin) as [[post ->]|[pre [a [post ->]]]].
    + rewrite predecessors_path_start by assumption. cbn. lia.
    + rewrite predecessors_on_path by assumption. cbn. lia.
  - rewrite predecessors_path_graph, steps_to; [cbn; lia|].
    intros H. apply Hout. destruct p; [destruct H|now right].
Qed.

Lemma successors_path_le (p : list string) (n : string) :
  NoDup p -> (List.length (successors (path_graph p) n) <= 1)%nat.
Proof.
  intros Hnd. destruct (in_dec string_dec n p) as [Hin|Hout].
  - destruct (path_position_end p n Hin) as [[pre ->]|[pre [m [post ->]]]].
    + rewrite successors_path_end by assumption. cbn. lia.
    + rewrite successors_on_path by assumption. cbn. lia.
  - rewrite successors_path_graph, steps_from; [cbn; lia|].
    intros H. apply Hout. now apply In_removelast.
Qed.

Lemma get_starting_nodes_path (n : string) (post : list string) :
  NoDup (n :: post) -> get_starting_nodes (path_graph (n :: post)) = [n].
Proof.
  intros Hnd. unfold get_starting_nodes. cbn [path_graph nodes filter].
  rewrite predecessors_path_start by assumption. cbn [List.length Nat.eqb].
  f_equal. apply filter_none. intros x Hx.
  apply in_split in Hx as [l1 [l2 E]].
  assert (Hp : exists pre a, n :: post = pre ++ a :: x :: l2).
  { rewrite E. clear E. destruct (rev l1) as [|y l] eqn:El;
      apply (f_equal (@rev string)) in El; rewrite rev_involutive in El; subst l1.
    - exists [], n. reflexivity.
    - exists (n :: rev l), y. cbn [rev app]. now rewrite <- app_assoc. }
  destruct Hp as [pre [a Hp]]. rewrite Hp in *.
  now rewrite predecessors_on_path.
Qed.

Lemma get_sink_nodes_path (pre : list string) (n : string) :
  NoDup (pre ++ [n]) -> get_sink_nodes (path_graph (pre ++ [n])) = [n].
Proof.
  intros Hnd. unfold get_sink_nodes. cbn [path_graph nodes]. rewrite filter_app.
  cbn [filter]. rewrite successors_path_end by assumption. cbn [List.length Nat.eqb].
  rewrite filter_none; [reflexivity|]. intros x Hx.
  apply in_split in Hx as [l1 [l2 E]].
  assert (Hp : exists m post, pre ++ [n] = l1 ++ x :: m :: post).
  { rewrite E, <- app_assoc. cbn [app]. destruct l2 as [|m l2]; cbn [app]; eauto. }
  destruct Hp as [m [post Hp]]. rewrite Hp in *.
  now rewrite successors_on_path.
Qed.

Lemma last_In (x : string) (l : list string) (d : string) : In (last (x :: l) d) (x :: l).
Proof.
  destruct l as [|y l]; [now left|]. right. apply last_cons_In. discriminate.
Qed.

Lemma walk_path_graph (p : list string) :
  NoDup p ->
  forall post pre n, p = pre ++ n :: post -> walk (path_graph p) n post.
Proof.
  intros Hnd. induction post as [|m post IH]; intros pre n Hp; [exact I|].
  split.
  - subst p. rewrite successors_on_path by assumption. now left.
  - apply (IH (pre ++ [n])). rewrite <- app_assoc. exact Hp.
Qed.

Lemma visit_path_graph (p : list string) :
  NoDup p ->
  forall post pre n depth,
    p = pre ++ n :: post ->
    (List.length post <= depth)%nat ->
    visit (path_graph p) [last (n :: post) n] depth pre n = [p].
Proof.
  intros Hnd. induction post as [|m post IH]; intros pre n depth Hp Hdepth.
  - cbn [last].
    assert (Hmem : mem n (pre ++ [n]) = true).
    { apply mem_In, in_or_app. right. now left. }
    assert (Hself : mem n [n] = true) by (apply mem_In; now left).
    destruct depth; cbn [visit]; rewrite Hself.
    + now rewrite Hp.
    + cbn [existsb]. rewrite Hmem. cbn [negb orb]. now rewrite Hp.
  - destruct depth as [|depth]; [cbn in Hdepth; lia|].
    set (e := last (n :: m :: post) n).
    assert (He : e = last (m :: post) m).
    { subst e. change (last (n :: m :: post) n) with (last (m :: post) n).
      apply last_default. }
    assert (Hin : In e (m :: post)) by (rewrite He; apply last_In).
    assert (Hsplit : p = (pre ++ [n]) ++ m :: post) by (now rewrite <- app_assoc).
    assert (Hdis : forall x, In x (pre ++ [n]) -> ~ In x (m :: post)).
    { rewrite Hsplit in Hnd. now apply NoDup_app_inv in Hnd. }
    assert (Hn : mem n [e] = false).
    { apply mem_not_In. intros [E|[]]. apply (Hdis n).
      - apply in_or_app. right. now left.
      - now rewrite <- E. }
    assert (He' : mem e (pre ++ [n]) = false).
    { apply mem_not_In. intros H. exact (Hdis e H Hin). }
    assert (Hm : mem m (pre ++ [n]) = false).
    { apply mem_not_In. intros H. apply (Hdis m H). now left. }
    cbn [visit]. rewrite Hn. cbn [existsb app]. rewrite He'. cbn [negb orb].
    assert (Hsucc : successors (path_graph p) n = [m]).
    { rewrite Hp. apply successors_on_path. now rewrite <- Hp. }
    rewrite Hsucc. cbn [filter]. rewrite Hm. cbn [negb flat_map].
    rewrite app_nil_r, He. apply IH; [exact Hsplit|cbn in Hdepth; lia].
Qed.

Section OneRead.

Context {RT : Runtime}.

Lemma scan_nodes_path (g : DiGraph) (ns : list string) :
  (forall n, (List.length (predecessors g n) <= 1)%nat) ->
  forall ancestor_node, scan_nodes g ns ancestor_node = Ok None.
Proof.
  intros Hle. induction ns as [|n ns IH]; intros anc; [reflexivity|].
  cbn [scan_nodes]. specialize (Hle n).
  replace (1 <? List.length (predecessors g n))%nat with false
    by (symmetry; apply Nat.ltb_ge; exact Hle).
  cbn [bind fst snd]. apply IH.
Qed.

Lemma scan_entry_path (g : DiGraph) (starting_nodes ns : list string) :
  (forall n, (List.length (predecessors g n) <= 1)%nat) ->
  scan_entry g starting_nodes ns = Ok None.
Proof.
  intros Hle. induction ns as [|n ns IH]; [reflexivity|].
  cbn [scan_entry]. specialize (Hle n).
  replace (1 <? List.length (predecessors g n))%nat with false
    by (symmetry; apply Nat.ltb_ge; exact Hle).
  rewrite andb_false_r. exact IH.
Qed.

Lemma scan_out_path (g : DiGraph) (ending_nodes ns : list string) :
  (forall n, (List.length (successors g n) <= 1)%nat) ->
  scan_out g ending_nodes ns = Ok None.
Proof.
  intros Hle. induction ns as [|n ns IH]; [reflexivity|].
  cbn [scan_out]. specialize (Hle n).
  replace (1 <? List.length (successors g n))%nat with false
    by (symmetry; apply Nat.ltb_ge; exact Hle).
  rewrite andb_false_r. exact IH.
Qed.

End OneRead.

Lemma dict_set_fresh (d : dict) (k : string) (v : Z) :
  ~ In k (dict_keys d) -> dict_set d k v = d ++ [(k, v)] /\ dict_get d k 0 = 0.
Proof.
  unfold dict_keys. induction d as [|[k' v'] d IH]; intros Hk; [split; reflexivity|].
  cbn [dict_set dict_get map fst] in *.
  assert (E : String.eqb k k' = false).
  { apply String.eqb_neq. intros ->. apply Hk. now left. }
  rewrite E. destruct IH as [-> ->]; [intros H; apply Hk; now right|]. split; reflexivity.
Qed.

Lemma count_kmers_fresh (kmers : list string) :
  forall d,
    NoDup (dict_keys d ++ kmers) ->
    fold_left count_kmer kmers d = d ++ map (fun kmer => (kmer, 1)) kmers.
Proof.
  induction kmers as [|kmer kmers IH]; intros d Hnd; cbn [fold_left map].
  - now rewrite app_nil_r.
  - assert (Hfresh : ~ In kmer (dict_keys d)).
    { intros Hin. apply NoDup_app_inv in Hnd as [_ [_ Hdis]].
      apply (Hdis kmer Hin). now left. }
    unfold count_kmer at 2. destruct (dict_set_fresh d kmer (dict_get d kmer 0 + 1) Hfresh)
      as [Hset Hget].
    rewrite Hset, Hget. cbn [Z.add]. rewrite IH.
    + now rewrite <- app_assoc.
    + unfold dict_keys in *. rewrite map_app. cbn [map fst]. rewrite <- app_assoc. exact Hnd.
Qed.

Lemma add_kmers_steps (kmers : list string) :
  forall g,
    fold_left add_kmer (map (fun kmer => (kmer, 1)) kmers) g
    = fold_left (fun g s => add_edge g (fst s) (snd s) 1)
                (map (fun kmer => (slice kmer None (Some (-1)), slice kmer (Some 1) None))
                     kmers) g.
Proof.
  induction kmers as [|kmer kmers IH]; intros g; [reflexivity|].
  cbn [map fold_left]. apply IH.
Qed.

Lemma map_fst_steps (p : list string) : map fst (steps p) = removelast p.
Proof.
  induction p as [|a p IH]; [reflexivity|]. destruct p as [|b p]; [reflexivity|].
  rewrite steps_cons. cbn [map fst]. rewrite IH. reflexivity.
Qed.

Lemma NoDup_removelast (p : list string) : NoDup p -> NoDup (removelast p).
Proof.
  intros Hnd. destruct p as [|a p]; [constructor|].
  rewrite (app_removelast_last a (l := a :: p)) in Hnd by discriminate.
  now apply NoDup_app_remove_r in Hnd.
Qed.

(** The graph of one read whose (k-1)-mers are all different is the path
    of these (k-1)-mers. *)
Lemma build_graph_one_read (read : string) (k : Z) :
  2 <= k -> k <= len read ->
  NoDup (cut_kmer read (k - 1)) ->
  build_graph (build_kmer_dict [read] k) = path_graph (cut_kmer read (k - 1)).
Proof.
  intros Hk Hlen Hnd.
  pose proof (steps_cut_kmer read k Hk) as Hsteps.
  assert (Hkmers : NoDup (cut_kmer read k)).
  { apply (NoDup_map_inv (fun kmer => slice kmer None (Some (-1)))).
    replace (map (fun kmer => slice kmer None (Some (-1))) (cut_kmer read k))
      with (map fst (steps (cut_kmer read (k - 1)))).
    - rewrite map_fst_steps. now apply NoDup_removelast.
    - rewrite Hsteps, map_map. reflexivity. }
  unfold build_kmer_dict. cbn [fold_left].
  rewrite count_kmers_fresh by exact Hkmers. cbn [app].
  unfold build_graph. rewrite add_kmers_steps, <- Hsteps.
  assert (Hshape : exists a b rest, cut_kmer read (k - 1) = a :: b :: rest).
  { pose proof (length_cut_kmer read (k - 1)) as Hl.
    destruct (cut_kmer read (k - 1)) as [|a [|b rest]]; cbn in Hl; try lia. eauto. }
  destruct Hshape as [a [b [rest E]]]. rewrite E in *.
  now apply add_steps_path_graph.
Qed.

Lemma get_contigs_path (s : string) (ns : list string) (c : string * Z) :
  NoDup (s :: ns) ->
  wf (path_graph (s :: ns)) ->
  contig_of_path (s :: ns) = Ok c ->
  get_contigs (path_graph (s :: ns)) [s] [last (s :: ns) s] = Ok [c].
Proof.
  intros Hnd Hwf Hc. set (p := s :: ns) in *. set (e := last p s).
  assert (Hs : In s (nodes (path_graph p))) by (now left).
  assert (He : In e (nodes (path_graph p))) by (apply last_In).
  unfold get_contigs. cbn [flat_map map app contigs_between].
  destruct (has_path_spec (path_graph p) s e Hwf Hs He) as [b [-> Hb]].
  assert (b = true) as ->.
  { apply Hb. apply (walk_reaches (path_graph p) ns s).
    apply (walk_path_graph p Hnd ns [] s). reflexivity. }
  cbn [bind]. unfold all_simple_paths, has_node.
  rewrite (proj2 (mem_In s _) Hs), (proj2 (mem_In e _) He).
  cbn [path_graph nodes]. unfold p at 1.
  change {| nodes := p; edges := map (fun s0 => (fst s0, snd s0, 1)) (steps p) |}
    with (path_graph p).
  change [e] with [last (s :: ns) s].
  rewrite (visit_path_graph p Hnd ns [] s (List.length ns) eq_refl (le_n _)).
  cbn [bind contigs_of_paths]. rewrite Hc. reflexivity.
Qed.

Section RoundTrip.

Context {RT : Runtime}.

(** X16. The assembly of one read of k characters or more whose (k-1)-mers
    are all different gives the read back as the only contig, with its
    length: the graph is a path, the three simplification passes find
    nothing to remove in it and draw no random number, and the path from
    its start to its end spells the read. *)
Theorem assemble_one_read (depth : nat) (read : string) (kmer_size : Z) (w0 : world) :
  2 <= kmer_size ->
  kmer_size <= len read ->
  NoDup (cut_kmer read (kmer_size - 1)) ->
  (0 < depth)%nat ->
  assemble depth [read] kmer_size w0 = Ok ([(read, len read)], random_seed 9001 w0).
Proof.
  intros Hk Hlen Hnd Hdepth. unfold assemble. cbv zeta.
  pose proof (wf_build_graph (build_kmer_dict [read] kmer_size)) as Hwf.
  rewrite build_graph_one_read in * by assumption.
  pose proof (contig_of_cut_kmer read kmer_size Hk ltac:(lia)) as Hc.
  destruct (cut_kmer read (kmer_size - 1)) as [|s ns] eqn:Ep; [discriminate|].
  set (g := path_graph (s :: ns)) in *.
  assert (Hpred : forall n, (List.length (predecessors g n) <= 1)%nat)
    by (intros n; now apply predecessors_path_le).
  assert (Hsucc : forall n, (List.length (successors g n) <= 1)%nat)
    by (intros n; now apply successors_path_le).
  destruct depth as [|depth]; [lia|].
  cbn [simplify_bubbles]. rewrite scan_nodes_path by assumption. cbn [bind fst snd].
  cbn [solve_entry_tips]. rewrite scan_entry_path by assumption. cbn [bind fst snd].
  cbn [solve_out_tips]. rewrite scan_out_path by assumption. cbn [bind fst snd].
  unfold g at 2. rewrite get_starting_nodes_path by assumption.
  assert (Hsink : get_sink_nodes g = [last (s :: ns) s]).
  { unfold g. rewrite (app_removelast_last s (l := s :: ns)) at 1 by discriminate.
    apply get_sink_nodes_path.
    now rewrite <- (app_removelast_last s (l := s :: ns)) by discriminate. }
  rewrite Hsink. unfold g.
  rewrite (get_contigs_path s ns (read, len read)) by assumption.
  reflexivity.
Qed.

End RoundTrip.

Lemma assemble_one_read_witness :
  2 <= 3
  /\ 3 <= len "TCAGT"
  /\ NoDup (cut_kmer "TCAGT" (3 - 1))
  /\ (0 < 1000)%nat
  /\ @assemble lcg_runtime 1000 ["TCAGT"] 3 world0
     = Ok ([("TCAGT", 5)], {| gen := 9001; drawn := [] |}).
Proof.
  assert (H1 : 2 <= 3) by lia.
  assert (H2 : 3 <= len "TCAGT") by (vm_compute; discriminate).
  assert (H3 : NoDup (cut_kmer "TCAGT" (3 - 1))).
  { vm_compute. repeat constructor; cbn; intuition discriminate. }
  assert (H4 : (0 < 1000)%nat) by lia.
  split; [exact H1|]. split; [exact H2|]. split; [exact H3|]. split; [exact H4|].
  exact (@assemble_one_read lcg_runtime 1000 "TCAGT" 3 world0 H1 H2 H3 H4).
Defined.

(** *** Bubbles on graphs with a cycle or without a branch *)

Section Cycles.

Context {RT : Runtime}.

Lemma scan_nodes_cyclic (g : DiGraph) (ns : list string) :
  is_directed_acyclic_graph g = false ->
  (exists node, In node ns /\ (2 <= List.length (predecessors g node))%nat) ->
  forall ancestor_node, scan_nodes g ns ancestor_node = Raise NetworkXError.
Proof.
  intros Hcyc. induction ns as [|n ns IH]; intros [node [Hin Hpreds]] anc;
    [destruct Hin|].
  cbn [scan_nodes].
  destruct (1 <? List.length (predecessors g n))%nat eqn:E.
  - destruct (predecessors g n) as [|p [|q preds]]; [discriminate|discriminate|].
    cbn [scan_i scan_j]. rewrite lowest_common_ancestor_cyclic by assumption.
    reflexivity.
  - cbn [bind fst snd]. apply IH. exists node. split; [|assumption].
    destruct Hin as [->|Hin]; [|assumption].
    apply Nat.ltb_ge in E. lia.
Qed.

(** X17. [simplify_bubbles] on a graph with a cycle: when some node has two
    predecessors or more, the call raises [NetworkXError], which comes from
    [lowest_common_ancestor], before any path is removed; when no node has
    two predecessors, the graph is returned as it is, with or without
    cycle. *)
Theorem simplify_bubbles_cyclic (depth : nat) (graph : DiGraph) (w : world) :
  wf graph ->
  (~ acyclic graph ->
   (exists node, In node (nodes graph)
                 /\ (2 <= List.length (predecessors graph node))%nat) ->
   simplify_bubbles (S depth) graph w = Raise NetworkXError)
  /\ ((forall node, (List.length (predecessors graph node) <= 1)%nat) ->
      simplify_bubbles (S depth) graph w = Ok (graph, w)).
Proof.
  intros Hwf. split.
  - intros Hcyc Hnode. cbn [simplify_bubbles].
    rewrite scan_nodes_cyclic; [reflexivity| |assumption].
    destruct (is_directed_acyclic_graph graph) eqn:E; [|reflexivity].
    exfalso. apply Hcyc. now apply is_directed_acyclic_graph_spec.
  - intros Hle. cbn [simplify_bubbles]. now rewrite scan_nodes_path.
Qed.

End Cycles.

Lemma simplify_bubbles_cyclic_witness :
  wf cyclic_graph
  /\ ~ acyclic cyclic_graph
  /\ (exists node, In node (nodes cyclic_graph)
                   /\ (2 <= List.length (predecessors cyclic_graph node))%nat)
  /\ @simplify_bubbles lcg_runtime 1 cyclic_graph world0 = Raise NetworkXError.
Proof.
  assert (H1 : wf cyclic_graph) by apply wf_build_graph.
  assert (H2 : ~ acyclic cyclic_graph).
  { intros H. apply (proj2 (is_directed_acyclic_graph_spec cyclic_graph H1)) in H.
    vm_compute in H. discriminate. }
  assert (H3 : exists node, In node (nodes cyclic_graph)
                            /\ (2 <= List.length (predecessors cyclic_graph node))%nat).
  { exists "AC". split; [vm_compute; tauto|]. vm_compute. lia. }
  split; [exact H1|]. split; [exact H2|]. split; [exact H3|].
  exact (proj1 (@simplify_bubbles_cyclic lcg_runtime 0 cyclic_graph world0 H1) H2 H3).
Defined.

(** *** What the removals keep *)

Lemma all_simple_paths_NoDup (g : DiGraph) (source target : string)
      (paths : list (list string)) :
  all_simple_paths g source target = Ok paths ->
  forall p, In p paths -> NoDup p.
Proof.
  intros H p Hp. unfold all_simple_paths in H.
  destruct (has_node g source); [|discriminate].
  destruct (nodes g) as [|n0 ns]; [injection H as <-; destruct Hp|].
  destruct (if has_node g target then [target] else chars target) as [|t ts];
    [injection H as <-; destruct Hp|].
  injection H as <-. apply visit_simple in Hp; [tauto|].
  cbn. constructor; [intros []|constructor].
Qed.

Lemma paths_between_starts (g : DiGraph) (node : string) (targets : list string) :
  forall paths,
    paths_between g (map (fun e => (node, e)) targets) = Ok paths ->
    forall p, In p paths -> exists rest, p = node :: rest /\ ~ In node rest.
Proof.
  induction targets as [|t targets IH]; intros paths H p Hp; cbn [map paths_between] in H.
  - injection H as <-. destruct Hp.
  - destruct (has_path g node t) as [h|]; [|discriminate]. cbn [bind] in H.
    destruct (if h then all_simple_paths g node t else Ok []) as [ps|] eqn:Hps;
      [|discriminate].
    cbn [bind] in H.
    destruct (paths_between g (map (fun e => (node, e)) targets)) as [qs|] eqn:Hqs;
      [|discriminate].
    cbn [bind] in H. injection H as <-. apply in_app_or in Hp as [Hp|Hp].
    + destruct h; [|injection Hps as <-; destruct Hp].
      destruct (all_simple_paths_head _ _ _ _ Hps p Hp) as [rest ->].
      exists rest. split; [reflexivity|].
      pose proof (all_simple_paths_NoDup _ _ _ _ Hps _ Hp) as Hnd.
      now apply NoDup_cons_iff in Hnd.
    + now apply (IH qs).
Qed.

Section Kept.

Context {RT : Runtime}.

(** X18. When out-tip resolution removes losing paths, that is when
    [select_best_path], called with [delete_sink_node] set and
    [delete_entry_node] unset on the paths gathered from the node where
    the tips part to the ending nodes, returns a graph: every node of each
    losing path except its first node is no longer a node of that graph,
    and the node where the tips part still is. *)
Theorem out_tip_removal (graph : DiGraph) (ending_nodes : list string)
        (node : string) (path_list : list (list string)) (weight_avg_list : list Q)
        (w : world) (g' : DiGraph) (w' : world) :
  In node (nodes graph) ->
  paths_between graph (map (fun e => (node, e)) ending_nodes) = Ok path_list ->
  select_best_path graph path_list (lengths_of path_list) weight_avg_list
                   false true w = Ok (g', w') ->
  exists i,
    best_path_index (lengths_of path_list) weight_avg_list w = Ok (i, w')
    /\ (forall losing n,
          In losing (drop_index i path_list) ->
          In n (tl losing) -> ~ In n (nodes g'))
    /\ In node (nodes g').
Proof.
  intros Hnode Hpaths Hsel. unfold select_best_path in Hsel.
  destruct (best_path_index (lengths_of path_list) weight_avg_list w)
    as [[i w1]|] eqn:Hbest; [|discriminate].
  cbn [bind fst snd] in Hsel.
  destruct (remove_paths graph (drop_index i path_list) false true)
    as [g1|] eqn:Hrem; [|discriminate].
  cbn [bind] in Hsel. injection Hsel as <- <-.
  exists i. split; [reflexivity|].
  pose proof (remove_paths_nodes _ _ _ _ _ Hrem) as Hnodes. split.
  - intros losing n Hlosing Hn Hin. apply Hnodes in Hin as [_ Hin].
    apply Hin. unfold removed_nodes. apply in_flat_map.
    exists losing. split; [assumption|exact Hn].
  - apply Hnodes. split; [assumption|].
    unfold removed_nodes. intros Hin.
    apply in_flat_map in Hin as [p [Hp Hin]].
    apply drop_index_In in Hp.
    destruct (paths_between_starts graph node ending_nodes path_list Hpaths p Hp)
      as [rest [-> Hrest]].
    cbn in Hin. contradiction.
Qed.


End Kept.

Lemma out_tip_removal_witness :
  let path_list := [["CG"; "GT"]; ["CG"; "GA"]] in
  let g' := {| nodes := ["AC"; "CG"; "GT"];
               edges := [("AC", "CG", 3); ("CG", "GT", 3)] |} in
  In "CG" (nodes out_tip_graph)
  /\ paths_between out_tip_graph (map (fun e => ("CG", e)) ["GT"; "GA"]) = Ok path_list
  /\ @select_best_path lcg_runtime out_tip_graph path_list (lengths_of path_list)
       [3; 1]%Q false true world0 = Ok (g', world0)
  /\ exists i,
       @best_path_index lcg_runtime (lengths_of path_list) [3; 1]%Q world0
       = Ok (i, world0)
       /\ (forall losing n,
             In losing (drop_index i path_list) ->
             In n (tl losing) -> ~ In n (nodes g'))
       /\ In "CG" (nodes g').
Proof.
  intros path_list g'.
  assert (H1 : In "CG" (nodes out_tip_graph)) by (vm_compute; tauto).
  assert (H2 : paths_between out_tip_graph (map (fun e => ("CG", e)) ["GT"; "GA"])
               = Ok path_list) by (vm_compute; reflexivity).
  assert (H3 : @select_best_path lcg_runtime out_tip_graph path_list
                 (lengths_of path_list) [3; 1]%Q false true world0 = Ok (g', world0))
    by (vm_compute; reflexivity).
  split; [exact H1|]. split; [exact H2|]. split; [exact H3|].
  exact (@out_tip_removal lcg_runtime out_tip_graph ["GT"; "GA"] "CG" path_list
           [3; 1]%Q world0 g' world0 H1 H2 H3).
Defined.


(** *** Every edge of an acyclic graph is on a contig *)

Lemma walk_app (g : DiGraph) (l1 l2 : list string) :
  forall n, walk g n (l1 ++ l2) <-> walk g n l1 /\ walk g (last (n :: l1) n) l2.
Proof.
  induction l1 as [|m l1 IH]; intros n.
  - cbn. tauto.
  - cbn [app walk]. rewrite IH.
    change (last (n :: m :: l1) n) with (last (m :: l1) n).
    rewrite (last_default m l1 n m). tauto.
Qed.

Lemma walk_reaches_plus (g : DiGraph) (l : list string) (n x : string) :
  walk g n (l ++ [x]) -> reaches_plus g n x.
Proof.
  intros H. destruct l as [|m l]; cbn [app walk] in H; destruct H as [Hm H].
  - exists x. split; [exact Hm|constructor].
  - exists m. split; [exact Hm|].
    replace x with (last (m :: l ++ [x]) m); [now apply walk_reaches|].
    change (m :: l ++ [x]) with ((m :: l) ++ [x]). apply last_last.
Qed.

Lemma acyclic_walk_NoDup (g : DiGraph) :
  acyclic g -> forall rest n, walk g n rest -> NoDup (n :: rest).
Proof.
  intros Hdag. induction rest as [|m rest IH]; intros n Hwalk.
  - constructor; [intros []|constructor].
  - constructor; [|apply IH; now destruct Hwalk].
    intros Hin. apply in_split in Hin as [l1 [l2 E]]. rewrite E in Hwalk.
    change (l1 ++ n :: l2) with (l1 ++ [n] ++ l2) in Hwalk.
    rewrite app_assoc in Hwalk. apply walk_app in Hwalk as [Hwalk _].
    apply (Hdag n). eapply walk_reaches_plus. eassumption.
Qed.

Lemma In_get_starting_nodes (g : DiGraph) (n : string) :
  In n (get_starting_nodes g) <-> In n (nodes g) /\ predecessors g n = [].
Proof.
  unfold get_starting_nodes. rewrite filter_In. split; intros [Hn H]; split; try assumption.
  - now destruct (predecessors g n).
  - now rewrite H.
Qed.

Lemma In_get_sink_nodes (g : DiGraph) (n : string) :
  In n (get_sink_nodes g) <-> In n (nodes g) /\ successors g n = [].
Proof.
  unfold get_sink_nodes. rewrite filter_In. split; intros [Hn H]; split; try assumption.
  - now destruct (successors g n).
  - now rewrite H.
Qed.

Lemma walk_too_long (g : DiGraph) (n : string) (rest : list string) :
  wf g -> acyclic g -> In n (nodes g) -> walk g n rest ->
  (List.length rest < List.length (nodes g))%nat.
Proof.
  intros Hwf Hdag Hn Hwalk.
  pose proof (acyclic_walk_NoDup g Hdag rest n Hwalk) as Hnd.
  assert (Hincl : incl (n :: rest) (nodes g)).
  { intros x [<-|Hx]; [assumption|]. eapply walk_nodes; eassumption. }
  pose proof (NoDup_incl_length Hnd Hincl) as Hlen. cbn in Hlen. lia.
Qed.

(** Every node is reached from a starting node. *)
Lemma walk_from_start (g : DiGraph) :
  wf g -> acyclic g ->
  forall x, In x (nodes g) ->
            exists s pre, In s (get_starting_nodes g) /\ walk g s pre
                          /\ last (s :: pre) s = x.
Proof.
  intros Hwf Hdag x Hx.
  assert (Hfuel : forall k,
             (exists s pre, In s (get_starting_nodes g) /\ walk g s pre
                            /\ last (s :: pre) s = x)
             \/ (exists y pre, In y (nodes g) /\ walk g y pre
                               /\ last (y :: pre) y = x /\ List.length pre = k)).
  { induction k as [|k [IH|[y [pre [Hy [Hwalk [Hlast Hlen]]]]]]].
    - right. exists x, []. repeat split; auto.
    - now left.
    - destruct (predecessors g y) as [|z preds] eqn:Hpreds.
      + left. exists y, pre. split; [now apply In_get_starting_nodes|now split].
      + right. exists z, (y :: pre).
        assert (Hz : In z (predecessors g y)) by (rewrite Hpreds; now left).
        split; [eapply predecessors_nodes; eassumption|]. split; [|split].
        * split; [now apply has_edge_predecessors|assumption].
        * change (last (z :: y :: pre) z) with (last (y :: pre) z).
          now rewrite (last_default y pre z y).
        * cbn. now rewrite Hlen. }
  destruct (Hfuel (List.length (nodes g))) as [H|[y [pre [Hy [Hwalk [_ Hlen]]]]]];
    [exact H|].
  pose proof (walk_too_long g y pre Hwf Hdag Hy Hwalk). lia.
Qed.

Lemma walk_snoc (g : DiGraph) (post : list string) (n z : string) :
  walk g n post -> In z (successors g (last (n :: post) n)) -> walk g n (post ++ [z]).
Proof.
  intros Hwalk Hz. apply walk_app. split; [assumption|]. split; [assumption|exact I].
Qed.

(** Every node reaches a sink. *)
Lemma walk_to_sink (g : DiGraph) :
  wf g -> acyclic g ->
  forall x, In x (nodes g) ->
            exists post, walk g x post /\ In (last (x :: post) x) (get_sink_nodes g).
Proof.
  intros Hwf Hdag x Hx.
  assert (Hfuel : forall k,
             (exists post, walk g x post /\ In (last (x :: post) x) (get_sink_nodes g))
             \/ (exists post, walk g x post /\ List.length post = k)).
  { induction k as [|k [IH|[post [Hwalk Hlen]]]].
    - right. exists []. split; [exact I|reflexivity].
    - now left.
    - destruct (successors g (last (x :: post) x)) as [|z succs] eqn:Hsuccs.
      + left. exists post. split; [assumption|]. apply In_get_sink_nodes.
        split; [|assumption]. destruct (last_In x post x) as [<-|Hin]; [assumption|].
        eapply walk_nodes; eassumption.
      + right. exists (post ++ [z]). split.
        * apply walk_snoc; [assumption|]. rewrite Hsuccs. now left.
        * rewrite length_app. cbn. lia. }
  destruct (Hfuel (List.length (nodes g))) as [H|[post [Hwalk Hlen]]]; [exact H|].
  pose proof (walk_too_long g x post Hwf Hdag Hx Hwalk). lia.
Qed.

Lemma last_app_cons (l r : list string) (x d d' : string) :
  last (l ++ x :: r) d = last (x :: r) d'.
Proof.
  induction l as [|a l IH]; [apply last_default|].
  cbn [app].
  assert (E : exists y t, l ++ x :: r = y :: t) by (destruct l; cbn; eauto).
  destruct E as [y [t E]]. rewrite E.
  change (last (a :: y :: t) d) with (last (y :: t) d). rewrite <- E. exact IH.
Qed.

Lemma steps_middle (l : list string) :
  forall a v r, In (last (a :: l) a, v) (steps ((a :: l) ++ v :: r)).
Proof.
  induction l as [|b l IH]; intros a v r.
  - left. reflexivity.
  - change ((a :: b :: l) ++ v :: r) with (a :: b :: (l ++ v :: r)).
    rewrite steps_cons. right.
    change (last (a :: b :: l) a) with (last (b :: l) a).
    rewrite (last_default b l a b). apply (IH b v r).
Qed.

(** X20. On an acyclic graph whose nodes are not empty strings,
    [get_contigs], called with the starting nodes and the sinks of the
    graph, returns, and every edge of the graph is a step of a path of the
    graph, from a starting node to a sink and without a repeated node,
    whose contig is in the list: no edge is left out of the contigs. *)
Theorem get_contigs_cover (graph : DiGraph) :
  wf graph ->
  acyclic graph ->
  (forall n, In n (nodes graph) -> n <> EmptyString) ->
  exists contigs,
    get_contigs graph (get_starting_nodes graph) (get_sink_nodes graph) = Ok contigs
    /\ forall u v weight,
         In (u, v, weight) (edges graph) ->
         exists node_start node_end a_path contig,
           In node_start (get_starting_nodes graph)
           /\ In node_end (get_sink_nodes graph)
           /\ simple_path_between graph node_start node_end a_path
           /\ In (u, v) (steps a_path)
           /\ contig_of_path a_path = Ok contig
           /\ In contig contigs.
Proof.
  intros Hwf Hdag Hne.
  set (pairs := flat_map (fun s => map (fun e => (s, e)) (get_sink_nodes graph))
                         (get_starting_nodes graph)).
  assert (Hpairs : forall s e, In (s, e) pairs -> In s (nodes graph) /\ In e (nodes graph)).
  { intros s e H. apply In_start_end_pairs in H as [Hs He].
    split; [now apply get_starting_nodes_nodes|now apply get_sink_nodes_nodes]. }
  destruct (contigs_between_ok graph pairs Hwf Hpairs Hne) as [contigs Hc].
  exists contigs. split; [exact Hc|].
  intros u v weight Hedge.
  destruct (proj2 (proj2 Hwf) _ Hedge) as [Hu Hv]. cbn [src dst fst snd] in Hu, Hv.
  assert (Huv : In v (successors graph u)) by (apply In_successors; eauto).
  destruct (walk_from_start graph Hwf Hdag u Hu) as [s [pre [Hs [Hpre Hlast]]]].
  destruct (walk_to_sink graph Hwf Hdag v Hv) as [post [Hpost Hsink]].
  set (p := (s :: pre) ++ v :: post).
  assert (Hwalk : walk graph s (pre ++ v :: post)).
  { apply walk_app. split; [assumption|]. rewrite Hlast. split; assumption. }
  assert (Hpath : simple_path_between graph s (last (v :: post) v) p).
  { exists (pre ++ v :: post). split; [reflexivity|]. split; [|split].
    - unfold p. apply last_app_cons.
    - exact (acyclic_walk_NoDup graph Hdag _ _ Hwalk).
    - exact Hwalk. }
  destruct (extend_contig_ok (pre ++ v :: post)) with (contig := s) as [c Hext].
  { intros n Hin. apply Hne. eapply walk_nodes; eassumption. }
  exists s, (last (v :: post) v), p, (c, len c).
  split; [exact Hs|]. split; [exact Hsink|]. split; [exact Hpath|]. split; [|split].
  - rewrite <- Hlast. apply steps_middle.
  - unfold p. cbn [app contig_of_path]. now rewrite Hext.
  - apply (proj2 (contigs_between_In graph pairs Hwf Hpairs contigs Hc (c, len c))).
    exists s, (last (v :: post) v), p. split; [|split].
    + apply In_start_end_pairs. split; assumption.
    + exact Hpath.
    + unfold p. cbn [app contig_of_path]. now rewrite Hext.
Qed.

Lemma get_contigs_cover_witness :
  wf chain_graph
  /\ acyclic chain_graph
  /\ (forall n, In n (nodes chain_graph) -> n <> EmptyString)
  /\ exists contigs,
       get_contigs chain_graph (get_starting_nodes chain_graph)
                   (get_sink_nodes chain_graph) = Ok contigs
       /\ exists node_start node_end a_path contig,
            In node_start (get_starting_nodes chain_graph)
            /\ In node_end (get_sink_nodes chain_graph)
            /\ simple_path_between chain_graph node_start node_end a_path
            /\ In ("CG", "GT") (steps a_path)
            /\ contig_of_path a_path = Ok contig
            /\ In contig contigs.
Proof.
  assert (H1 : wf chain_graph) by apply wf_build_graph.
  assert (H2 : acyclic chain_graph).
  { apply (proj1 (is_directed_acyclic_graph_spec chain_graph H1)). reflexivity. }
  assert (H3 : forall n, In n (nodes chain_graph) -> n <> EmptyString).
  { intros n Hn. vm_compute in Hn. destruct Hn as [<-|[<-|[<-|[]]]]; discriminate. }
  split; [exact H1|]. split; [exact H2|]. split; [exact H3|].
  destruct (get_contigs_cover chain_graph H1 H2 H3) as [contigs [Hget Hcover]].
  exists contigs. split; [exact Hget|].
  apply (Hcover "CG" "GT" 3). vm_compute. tauto.
Defined.

(** *** Reading and writing *)

Lemma read_fastq_four (a b c d : string) (rest : list string) :
  read_fastq (a :: b :: c :: d :: rest) = strip b :: read_fastq rest.
Proof. reflexivity. Qed.

Lemma lines_by_four (P : list string -> Prop) :
  (forall lines, (List.length lines < 4)%nat -> P lines) ->
  (forall a b c d rest, P rest -> P (a :: b :: c :: d :: rest)) ->
  forall lines, P lines.
Proof.
  intros Hshort Hfour lines.
  remember (List.length lines) as n eqn:Hn. revert lines Hn.
  induction n as [n IH] using lt_wf_ind. intros lines ->.
  destruct lines as [|a [|b [|c [|d rest]]]];
    try (apply Hshort; cbn; lia).
  apply Hfour. apply (IH (List.length rest)); [cbn; lia|reflexivity].
Qed.

Lemma read_fastq_short (lines : list string) :
  (List.length lines < 4)%nat -> read_fastq lines = [].
Proof.
  destruct lines as [|a [|b [|c [|d rest]]]]; cbn; try reflexivity; lia.
Qed.

Lemma length_read_fastq (lines : list string) :
  List.length (read_fastq lines) = (List.length lines / 4)%nat.
Proof.
  induction lines as [lines Hshort|a b c d rest IH] using lines_by_four.
  - rewrite read_fastq_short by assumption. now rewrite Nat.div_small.
  - rewrite read_fastq_four. cbn [List.length]. rewrite IH.
    change (S (S (S (S (List.length rest))))) with (1 * 4 + List.length rest)%nat.
    rewrite Nat.div_add_l by discriminate. reflexivity.
Qed.

Lemma nth_read_fastq (i : nat) :
  forall lines,
    (i < List.length lines / 4)%nat ->
    nth i (read_fastq lines) EmptyString = strip (nth (4 * i + 1) lines EmptyString).
Proof.
  induction i as [|i IH]; intros lines Hi.
  - destruct lines as [|a [|b [|c [|d rest]]]]; try (cbn in Hi; lia). reflexivity.
  - destruct lines as [|a [|b [|c [|d rest]]]]; try (cbn in Hi; lia).
    rewrite read_fastq_four. cbn [nth].
    replace (4 * S i + 1)%nat with (S (S (S (S (4 * i + 1))))) by lia. cbn [nth].
    apply IH.
    change (List.length (a :: b :: c :: d :: rest))
      with (1 * 4 + List.length rest)%nat in Hi.
    rewrite Nat.div_add_l in Hi by discriminate. lia.
Qed.

Lemma lstrip_head (s : string) (c : ascii) (rest : string) :
  lstrip s = String c rest -> is_space c = false.
Proof.
  induction s as [|a s IH]; cbn; [discriminate|].
  destruct (is_space a) eqn:E; [exact IH|]. intros H. injection H as <- _. exact E.
Qed.

Lemma rstrip_head (s : string) (c : ascii) (rest : string) :
  rstrip s = String c rest -> exists rest', s = String c rest'.
Proof.
  destruct s as [|a s]; cbn; [discriminate|].
  destruct (rstrip s); [destruct (is_space a); [discriminate|]|];
    intros H; injection H as <- _; eauto.
Qed.

Lemma rstrip_last (s : string) :
  forall init c, rstrip s = (init ++ String c EmptyString)%string -> is_space c = false.
Proof.
  induction s as [|a s IH]; intros init c; cbn.
  - destruct init; discriminate.
  - destruct (rstrip s) as [|b r] eqn:E.
    + destruct (is_space a) eqn:Ea; [destruct init; discriminate|].
      destruct init as [|x init]; cbn; intros H.
      * injection H as <-. exact Ea.
      * injection H as _ H. destruct init; discriminate.
    + destruct init as [|x init]; cbn; intros H.
      * injection H as _ H. discriminate.
      * injection H as _ H. eapply IH. eassumption.
Qed.

Lemma strip_no_outer_space (s : string) : no_outer_space (strip s).
Proof.
  unfold strip. split.
  - intros c rest H. destruct (rstrip_head _ _ _ H) as [rest' H'].
    eapply lstrip_head. eassumption.
  - intros init c H. eapply rstrip_last. eassumption.
Qed.

Lemma rstrip_spaces (s t : string) :
  (forall c, In c (list_ascii_of_string t) -> is_space c = true) ->
  rstrip (s ++ t) = rstrip s.
Proof.
  intros Ht. induction s as [|a s IH]; cbn.
  - induction t as [|b t IHt]; cbn; [reflexivity|].
    rewrite IHt by (intros c Hc; apply Ht; now right).
    now rewrite (Ht b (or_introl eq_refl)).
  - now rewrite IH.
Qed.

Lemma rstrip_fixed (s : string) :
  (forall init c, s = (init ++ String c EmptyString)%string -> is_space c = false) ->
  rstrip s = s.
Proof.
  induction s as [|a s IH]; intros H; cbn; [reflexivity|].
  rewrite IH by (intros init c ->; apply (H (String a init) c); reflexivity).
  destruct s as [|b s]; [|reflexivity].
  now rewrite (H EmptyString a eq_refl).
Qed.

Lemma strip_sequence_line (s t : string) :
  no_outer_space s ->
  (forall c, In c (list_ascii_of_string t) -> is_space c = true) ->
  strip (s ++ t) = s.
Proof.
  intros [Hhead Hlast] Ht. unfold strip. destruct s as [|a s].
  - cbn. clear Hhead Hlast. induction t as [|b t IH]; cbn; [reflexivity|].
    rewrite (Ht b (or_introl eq_refl)). apply IH. intros c Hc. apply Ht. now right.
  - cbn [append lstrip]. rewrite (Hhead a s eq_refl).
    change (String a (s ++ t)) with ((String a s ++ t)%string).
    rewrite rstrip_spaces by assumption. now apply rstrip_fixed.
Qed.

(** X21. The reads that [read_fastq] yields are the second lines of the
    successive groups of four lines, stripped: there are as many as whole
    groups of four lines, so that lines left over at the end are dropped,
    and the i-th read is the line of index 4 i + 1 without the white space
    at its ends. *)
Theorem read_fastq_records (lines : list string) :
  List.length (read_fastq lines) = (List.length lines / 4)%nat
  /\ (forall i, (i < List.length lines / 4)%nat ->
                nth i (read_fastq lines) EmptyString
                = strip (nth (4 * i + 1) lines EmptyString))
  /\ (forall read, In read (read_fastq lines) -> no_outer_space read).
Proof.
  split; [apply length_read_fastq|]. split; [intros i; apply nth_read_fastq|].
  induction lines as [lines Hshort|a b c d rest IH] using lines_by_four; intros read.
  - now rewrite read_fastq_short.
  - rewrite read_fastq_four. intros [<-|Hin]; [apply strip_no_outer_space|now apply IH].
Qed.

(** X22. A sequence line made of a sequence with no white space at its
    ends, followed by white space only (the end of line), is read back as
    that sequence. *)
Theorem read_fastq_sequence_line (header sequence eol plus quality : string)
        (rest : list string) :
  no_outer_space sequence ->
  (forall c, In c (list_ascii_of_string eol) -> is_space c = true) ->
  read_fastq (header :: (sequence ++ eol)%string :: plus :: quality :: rest)
  = sequence :: read_fastq rest.
Proof.
  intros Hs He. rewrite read_fastq_four. now rewrite strip_sequence_line.
Qed.

Lemma substring_clamp (s : string) :
  forall i m, substring i m s = substring i (Nat.min m (String.length s - i)) s.
Proof.
  induction s as [|c s IH]; intros i m.
  - destruct i, m; reflexivity.
  - destruct i as [|i]; cbn [String.length Nat.sub].
    + destruct m as [|m]; [reflexivity|]. cbn. f_equal.
      rewrite (IH O m). now rewrite Nat.sub_0_r.
    + cbn. apply IH.
Qed.

Lemma substring_none (s : string) : forall i, substring i 0 s = EmptyString.
Proof. induction s as [|c s IH]; intros [|i]; cbn; auto. Qed.

Lemma substring_join (s : string) :
  forall i a b,
    (substring i a s ++ substring (i + a) b s)%string = substring i (a + b) s.
Proof.
  induction s as [|c s IH]; intros i a b.
  - destruct i, a, b; reflexivity.
  - destruct i as [|i]; [|cbn; apply IH].
    destruct a as [|a]; [reflexivity|]. cbn. f_equal. apply (IH O a b).
Qed.

Lemma substring_whole (s : string) (n : nat) :
  (String.length s <= n)%nat -> substring 0 n s = s.
Proof.
  intros H. rewrite substring_clamp, Nat.sub_0_r, Nat.min_r by assumption.
  apply substring_full.
Qed.

Lemma length_substring_clamp (s : string) (i m : nat) :
  String.length (substring i m s) = Nat.min m (String.length s - i).
Proof.
  rewrite substring_clamp. destruct (Nat.le_gt_cases i (String.length s)) as [Hle|Hgt].
  - apply length_substring. lia.
  - replace (Nat.min m (String.length s - i)) with O by lia.
    now rewrite substring_none.
Qed.

Lemma slice_chunk (s : string) (i w : Z) :
  0 <= i -> 0 <= w ->
  slice s (Some i) (Some (i + w)) = substring (Z.to_nat i) (Z.to_nat w) s.
Proof.
  intros Hi Hw. unfold slice, slice_bound.
  destruct (i <? 0) eqn:E1; [lia|]. destruct (i + w <? 0) eqn:E2; [lia|].
  rewrite (substring_clamp s (Z.to_nat i) (Z.to_nat w)).
  rewrite (substring_clamp s (Z.to_nat (Z.min i (len s)))).
  unfold len. destruct (Z.le_gt_cases i (Z.of_nat (String.length s))) as [Hle|Hgt].
  - f_equal; lia.
  - replace (Nat.min (Z.to_nat w) (String.length s - Z.to_nat i)) with O by lia.
    replace (Nat.min _ (String.length s - Z.to_nat (Z.min i (Z.of_nat (String.length s)))))
      with O by lia.
    now rewrite !substring_none.
Qed.

Lemma contig_lines_chunks (contig : string) (length : Z) :
  contig_lines (contig, length)
  = map (fun j => substring (80 * j) 80 contig)
        (seq 0 (Z.to_nat ((length + 79) / 80))).
Proof.
  unfold contig_lines, range_step, range. cbn [fst snd].
  replace (length + 80 - 1) with (length + 79) by lia.
  rewrite !map_map. apply map_ext. intros j.
  rewrite slice_chunk by lia. f_equal. lia.
Qed.

Lemma concat_chunks (s : string) (width : nat) :
  forall m i,
    String.concat EmptyString (map (fun j => substring (width * j) width s) (seq i m))
    = substring (width * i) (width * m) s.
Proof.
  induction m as [|m IH]; intros i.
  - cbn. now rewrite Nat.mul_0_r, substring_none.
  - cbn [seq map]. 
    assert (Hcat : forall x l, String.concat EmptyString (x :: l)
                               = (x ++ String.concat EmptyString l)%string).
    { intros x [|y l]; cbn; [|reflexivity]. clear. induction x; cbn; congruence. }
    rewrite Hcat, IH.
    replace (width * S i)%nat with (width * i + width)%nat by lia.
    rewrite substring_join. f_equal. lia.
Qed.

Lemma contig_lines_wrapping (contig : string) :
  let lines := contig_lines (contig, len contig) in
  String.concat EmptyString lines = contig
  /\ Z.of_nat (List.length lines) = (len contig + 79) / 80
  /\ (forall line, In line lines -> 1 <= len line <= 80)
  /\ (forall i, (S i < List.length lines)%nat -> len (nth i lines EmptyString) = 80).
Proof.
  cbn zeta. rewrite contig_lines_chunks.
  assert (Hm : (String.length contig <= 80 * Z.to_nat ((len contig + 79) / 80)
                < String.length contig + 80)%nat).
  { unfold len. pose proof (Z.div_mod (Z.of_nat (String.length contig) + 79) 80).
    pose proof (Z.mod_pos_bound (Z.of_nat (String.length contig) + 79) 80). lia. }
  set (m := Z.to_nat ((len contig + 79) / 80)) in *.
  split; [|split; [|split]].
  - rewrite concat_chunks. replace (80 * 0)%nat with O by reflexivity.
    apply substring_whole. lia.
  - rewrite length_map, length_seq. subst m. unfold len.
    pose proof (Z.div_pos (Z.of_nat (String.length contig) + 79) 80). lia.
  - intros line Hin. apply in_map_iff in Hin as [j [<- Hj]]. apply in_seq in Hj.
    unfold len. rewrite length_substring_clamp. lia.
  - intros i Hi. rewrite length_map, length_seq in Hi.
    rewrite (nth_indep _ EmptyString (substring (80 * 0) 80 contig))
      by (rewrite length_map, length_seq; lia).
    pose proof (map_nth (fun j => substring (80 * j) 80 contig) (seq 0 m) O i) as E.
    cbn beta in E. rewrite E. clear E.
    rewrite seq_nth by lia. unfold len. rewrite length_substring_clamp. lia.
Qed.

Lemma save_contigs_from_app (l1 : list (string * Z)) :
  forall counter l2,
    save_contigs_from counter (l1 ++ l2)
    = save_contigs_from counter l1 ++ save_contigs_from (counter + List.length l1) l2.
Proof.
  induction l1 as [|x l1 IH]; intros counter l2; cbn [save_contigs_from app List.length].
  - now rewrite Nat.add_0_r.
  - rewrite IH, <- app_assoc.
    replace (S counter + List.length l1)%nat with (counter + S (List.length l1))%nat by lia.
    reflexivity.
Qed.

(** X23. For the contig at position [counter] of the list, recorded with
    its length, [save_contigs] writes a header line with [counter] and the
    length, and then the contig on [ceil(len(contig) / 80)] lines that,
    put end to end, give the contig back; every line has between 1 and 80
    characters, and every line but the last has 80. *)
Theorem save_contigs_wrapping (contigs_list : list (string * Z)) (counter : nat)
        (contig : string) :
  nth_error contigs_list counter = Some (contig, len contig) ->
  let eol := String (ascii_of_nat 10) EmptyString in
  exists before after lines,
    save_contigs contigs_list
    = before
      ++ (">contig_" ++ str_of_Z (Z.of_nat counter)
          ++ " len=" ++ str_of_Z (len contig) ++ eol)%string
      :: map (fun line => (line ++ eol)%string) lines
      ++ after
    /\ String.concat EmptyString lines = contig
    /\ Z.of_nat (List.length lines) = (len contig + 79) / 80
    /\ (forall line, In line lines -> 1 <= len line <= 80)
    /\ (forall i, (S i < List.length lines)%nat -> len (nth i lines EmptyString) = 80).
Proof.
  intros Hnth eol. apply nth_error_split in Hnth as [l1 [l2 [-> Hlen]]].
  exists (save_contigs_from 0 l1), (save_contigs_from (S counter) l2),
         (contig_lines (contig, len contig)).
  split; [|apply contig_lines_wrapping].
  unfold save_contigs. rewrite save_contigs_from_app. cbn [save_contigs_from Nat.add].
  rewrite Hlen. reflexivity.
Qed.

Lemma save_contigs_wrapping_witness :
  nth_error [("ACGTA", 5); ("AC", 2)] 1 = Some ("AC", len "AC")
  /\ exists before after lines,
       save_contigs [("ACGTA", 5); ("AC", 2)]
       = before
         ++ (">contig_1 len=2" ++ String (ascii_of_nat 10) EmptyString)%string
         :: map (fun line => (line ++ String (ascii_of_nat 10) EmptyString)%string) lines
         ++ after
       /\ String.concat EmptyString lines = "AC".
Proof.
  assert (H : nth_error [("ACGTA", 5); ("AC", 2)] 1 = Some ("AC", len "AC"))
    by reflexivity.
  split; [exact H|].
  destruct (save_contigs_wrapping [("ACGTA", 5); ("AC", 2)] 1 "AC" H)
    as [before [after [lines [Hsave [Hjoin _]]]]].
  exists before, after, lines. split; [exact Hsave|exact Hjoin].
Defined.

(** *** The properties on examples *)

Lemma read_kmers_are_edges_witness :
  2 <= 3
  /\ In "ACGT" ["ACGT"; "CGTA"]
  /\ In "CGT" (cut_kmer "ACGT" 3)
  /\ In ("CG", "GT", 2) (edges (build_graph (build_kmer_dict ["ACGT"; "CGTA"] 3))).
Proof.
  assert (H1 : 2 <= 3) by lia.
  assert (H2 : In "ACGT" ["ACGT"; "CGTA"]) by (now left).
  assert (H3 : In "CGT" (cut_kmer "ACGT" 3)) by (vm_compute; tauto).
  split; [exact H1|]. split; [exact H2|]. split; [exact H3|].
  exact (proj1 (read_kmers_are_edges ["ACGT"; "CGTA"] 3 "ACGT" "CGT" H1 H2 H3)).
Defined.

Lemma read_walk_contig_witness :
  2 <= 3
  /\ 3 - 1 <= len "ACGTA"
  /\ steps (cut_kmer "ACGTA" (3 - 1)) = [("AC", "CG"); ("CG", "GT"); ("GT", "TA")]
  /\ contig_of_path ["AC"; "CG"; "GT"; "TA"] = Ok ("ACGTA", 5).
Proof.
  assert (H1 : 2 <= 3) by lia.
  assert (H2 : 3 - 1 <= len "ACGTA") by (vm_compute; discriminate).
  destruct (read_walk_contig "ACGTA" 3 H1) as [Hsteps Hcontig].
  split; [exact H1|]. split; [exact H2|]. split.
  - rewrite Hsteps. reflexivity.
  - exact (Hcontig H2).
Defined.

Lemma remove_paths_errors_witness :
  removal_safe three_branch_graph (tl three_branches) false false
  /\ wf three_branch_graph
  /\ exists g, remove_paths three_branch_graph (tl three_branches) false false = Ok g
               /\ g = without three_branch_graph ["AG"; "GG"; "AT"; "TG"].
Proof.
  assert (H1 : removal_safe three_branch_graph (tl three_branches) false false).
  { right. split.
    - vm_compute. repeat constructor; cbn; intuition discriminate.
    - intros n Hn. vm_compute in Hn. vm_compute. tauto. }
  assert (H2 : wf three_branch_graph) by apply wf_build_graph.
  split; [exact H1|]. split; [exact H2|].
  destruct (remove_paths_errors three_branch_graph (tl three_branches) false false)
    as [Hiff [_ Hres]].
  destruct (proj2 Hiff H1) as [g Hg]. exists g. split; [exact Hg|].
  exact (proj2 (Hres g H2 Hg)).
Defined.

Lemma get_contigs_simple_paths_witness :
  wf chain_graph
  /\ (forall n, In n ["AC"] \/ In n ["GT"] -> In n (nodes chain_graph))
  /\ (forall n, In n (nodes chain_graph) -> n <> EmptyString)
  /\ exists contigs,
       get_contigs chain_graph ["AC"] ["GT"] = Ok contigs
       /\ (In ("ACGT", 4) contigs <->
           4 = len "ACGT"
           /\ exists node_start node_end a_path,
                In node_start ["AC"] /\ In node_end ["GT"]
                /\ simple_path_between chain_graph node_start node_end a_path
                /\ contig_of_path a_path = Ok ("ACGT", 4)).
Proof.
  assert (H1 : wf chain_graph) by apply wf_build_graph.
  assert (H2 : forall n, In n ["AC"] \/ In n ["GT"] -> In n (nodes chain_graph)).
  { intros n [[<-|[]]|[<-|[]]]; vm_compute; tauto. }
  assert (H3 : forall n, In n (nodes chain_graph) -> n <> EmptyString).
  { intros n Hn. vm_compute in Hn. destruct Hn as [<-|[<-|[<-|[]]]]; discriminate. }
  split; [exact H1|]. split; [exact H2|]. split; [exact H3|].
  destruct (get_contigs_simple_paths chain_graph ["AC"] ["GT"] H1 H2 H3)
    as [contigs [Hget Hin]].
  exists contigs. split; [exact Hget|]. exact (Hin "ACGT" 4).
Defined.

Lemma read_fastq_sequence_line_witness :
  let eol := String (ascii_of_nat 10) EmptyString in
  no_outer_space "ACGT"
  /\ (forall c, In c (list_ascii_of_string eol) -> is_space c = true)
  /\ read_fastq ["@read"; ("ACGT" ++ eol)%string; "+"; "IIII"] = ["ACGT"].
Proof.
  intros eol.
  assert (H1 : no_outer_space "ACGT").
  { change "ACGT" with (strip "ACGT"). apply strip_no_outer_space. }
  assert (H2 : forall c, In c (list_ascii_of_string eol) -> is_space c = true).
  { intros c [<-|[]]. reflexivity. }
  split; [exact H1|]. split; [exact H2|].
  exact (read_fastq_sequence_line "@read" "ACGT" eol "+" "IIII" [] H1 H2).
Defined.

Lemma get_contigs_spell_paths_witness :
  2 <= 3
  /\ wf chain_graph
  /\ (forall e, In e (edges chain_graph) -> edge_ok 3 e)
  /\ (forall n, In n (nodes chain_graph) -> len n = 3 - 1)
  /\ get_contigs chain_graph ["AC"] ["GT"] = Ok [("ACGT", 4)]
  /\ (exists node_start node_end,
        In node_start ["AC"] /\ In node_end ["GT"]
        /\ simple_path_between chain_graph node_start node_end (cut_kmer "ACGT" (3 - 1))).
Proof.
  assert (H1 : 2 <= 3) by lia.
  assert (H2 : wf chain_graph) by apply wf_build_graph.
  assert (H3 : forall e, In e (edges chain_graph) -> edge_ok 3 e).
  { intros e He. vm_compute in He. destruct He as [<-|[<-|[]]];
      (split; [reflexivity|]; split; [reflexivity|]; split; [reflexivity|];
       vm_compute; discriminate). }
  assert (H4 : forall n, In n (nodes chain_graph) -> len n = 3 - 1).
  { intros n Hn. vm_compute in Hn. destruct Hn as [<-|[<-|[<-|[]]]]; reflexivity. }
  assert (H5 : forall n, In n ["AC"] \/ In n ["GT"] -> In n (nodes chain_graph)).
  { intros n [[<-|[]]|[<-|[]]]; vm_compute; tauto. }
  assert (H6 : get_contigs chain_graph ["AC"] ["GT"] = Ok [("ACGT", 4)])
    by (vm_compute; reflexivity).
  split; [exact H1|]. split; [exact H2|]. split; [exact H3|]. split; [exact H4|].
  split; [exact H6|].
  exact (proj1 (proj2 (proj2 (get_contigs_spell_paths 3 chain_graph ["AC"] ["GT"]
                                [("ACGT", 4)] "ACGT" 4 H1 H2 H3 H4 H5 H6
                                (or_introl eq_refl))))).
Defined.

Lemma assemble_sound_witness :
  2 <= 3
  /\ @assemble lcg_runtime 10 ["ACGT"; "CGTA"] 3 world0
     = Ok ([("ACGTA", 5)], {| gen := 9001; drawn := [] |})
  /\ (forall kmer, In kmer (cut_kmer "ACGTA" 3) ->
                   exists read, In read ["ACGT"; "CGTA"] /\ In kmer (cut_kmer read 3)).
Proof.
  assert (H1 : 2 <= 3) by lia.
  assert (H2 : @assemble lcg_runtime 10 ["ACGT"; "CGTA"] 3 world0
               = Ok ([("ACGTA", 5)], {| gen := 9001; drawn := [] |}))
    by (vm_compute; reflexivity).
  split; [exact H1|]. split; [exact H2|].
  exact (proj2 (proj2 (@assemble_sound lcg_runtime 10 ["ACGT"; "CGTA"] 3 world0
                         [("ACGTA", 5)] {| gen := 9001; drawn := [] |} "ACGTA" 5
                         H1 H2 (or_introl eq_refl)))).
Defined.
